(** * guardianre_website: the WordPress content transformation pipeline

    A shallow embedding of [scripts/wp_transform.py] (slugify,
    html_to_markdown, convert_gutenberg_blocks, convert_vc_shortcodes,
    convert_internal_links, generate_frontmatter, transform_content,
    generate_report) and of [build_page_hierarchy] from
    [scripts/wp_export.py], with the properties of the specification stated
    and settled over it.

    Text is a list of 8-bit characters read as the code points 0..255
    (Latin-1); the character classes [\w], [\s], [\d] are Python's Unicode
    classes on that range.  The regular expressions of the source are kept in
    their source syntax and run by a backtracking matcher that explores
    alternatives in the order of Python's [re] module. *)

From Stdlib Require Import ZArith List Ascii String Lia Bool Arith.
From Stdlib Require Import SpecFloat.
From stdpp Require Import gmap strings list sorting.

Local Open Scope nat_scope.
Local Open Scope list_scope.

(* ===================================================================== *)
(** * Text and Python string literals *)
(* ===================================================================== *)

Abbreviation text := (list ascii).

Definition dquote : ascii := ascii_of_nat 34.
Definition backquote : ascii := ascii_of_nat 96.
Definition backslash : ascii := ascii_of_nat 92.
Definition newline : ascii := ascii_of_nat 10.
Definition tab : ascii := ascii_of_nat 9.

(** Source literals are written with a backquote wherever the Python source
    has a double quote (the source never uses a backquote itself). *)
Definition unquote (c : ascii) : ascii :=
  if Ascii.eqb c backquote then dquote else c.

(** [raw p]: a Python raw string [r'...'] (backslashes kept). *)
Definition raw (p : string) : text := map unquote (list_ascii_of_string p).

(** [py p]: a Python string literal ['...'], its escapes [\n], [\t], [\\]
    and [\'] decoded. *)
Fixpoint py_escapes (s : text) : text :=
  match s with
  | [] => []
  | c :: s' =>
    if Ascii.eqb c backslash then
      match s' with
      | c' :: s'' =>
        if Ascii.eqb c' "n" then newline :: py_escapes s''
        else if Ascii.eqb c' "t" then tab :: py_escapes s''
        else c' :: py_escapes s''
      | [] => [c]
      end
    else unquote c :: py_escapes s'
  end.

Definition py (p : string) : text := py_escapes (list_ascii_of_string p).

Definition code (c : ascii) : N := N_of_ascii c.

Definition in_range (lo hi : N) (c : ascii) : bool :=
  ((lo <=? code c) && (code c <=? hi))%N.

(** [str.isspace] on the code points below 256; also the class [\s]. *)
Definition is_space (c : ascii) : bool :=
  in_range 9 13 c || in_range 28 32 c
  || (code c =? 133)%N || (code c =? 160)%N.

(** The class [\d] (decimal digits) below 256. *)
Definition is_digit (c : ascii) : bool := in_range 48 57 c.

(** The class [\w] below 256: alphanumeric code points and the underscore. *)
Definition is_word (c : ascii) : bool :=
  is_digit c || in_range 65 90 c || in_range 97 122 c || (code c =? 95)%N
  || (code c =? 170)%N || (code c =? 178)%N || (code c =? 179)%N
  || (code c =? 181)%N || (code c =? 185)%N || (code c =? 186)%N
  || in_range 188 190 c || in_range 192 214 c || in_range 216 246 c
  || in_range 248 255 c.

(* ===================================================================== *)
(** * Regular expressions: syntax *)
(* ===================================================================== *)

Module Re.

(** An item of a bracketed class. *)
Inductive citem :=
| IChar (c : ascii)
| IRange (lo hi : ascii)
| IWord
| ISpace
| IDigit.

(** [Cls neg items] matches one character: one that belongs to some item,
    or to none when [neg] is set.  A literal character is [Cls false [IChar
    c]] and the dot is a negated class. *)
Inductive regex :=
| Eps
| Cls (neg : bool) (items : list citem)
| Seq (r1 r2 : regex)
| Rep (greedy : bool) (lo : nat) (hi : option nat) (r : regex)
| Grp (n : nat) (r : regex).

Definition item_mem (i : citem) (c : ascii) : bool :=
  match i with
  | IChar c' => Ascii.eqb c c'
  | IRange lo hi => in_range (code lo) (code hi) c
  | IWord => is_word c
  | ISpace => is_space c
  | IDigit => is_digit c
  end.

Definition cls_mem (neg : bool) (items : list citem) (c : ascii) : bool :=
  xorb neg (existsb (fun i => item_mem i c) items).

Definition Chr (c : ascii) : regex := Cls false [IChar c].

(** The pattern that matches the string [s] itself: [re.escape(s)]. *)
Fixpoint lit (s : text) : regex :=
  match s with
  | [] => Eps
  | [c] => Chr c
  | c :: s' => Seq (Chr c) (lit s')
  end.

Definition never : regex := Cls false [].

(* --------------------------------------------------------------------- *)
(** ** Parsing the source syntax *)

Definition is_punct_escape (c : ascii) : bool :=
  negb (is_digit c || in_range 65 90 c || in_range 97 122 c).

(** The class item denoted by the character after a backslash. *)
Definition escape_item (c : ascii) : option citem :=
  if Ascii.eqb c "w" then Some IWord
  else if Ascii.eqb c "s" then Some ISpace
  else if Ascii.eqb c "d" then Some IDigit
  else if Ascii.eqb c "n" then Some (IChar newline)
  else if Ascii.eqb c "t" then Some (IChar tab)
  else if is_punct_escape c then Some (IChar c)
  else None.

(** One member of a class: an escape or a plain character. *)
Definition class_atom (s : text) : option (citem * text) :=
  match s with
  | [] => None
  | c :: s' =>
    if Ascii.eqb c backslash then
      match s' with
      | e :: s'' => match escape_item e with Some i => Some (i, s'') | None => None end
      | [] => None
      end
    else Some (IChar c, s')
  end.

(** The members up to the closing bracket; [a-b] is a range when [b] is not
    the bracket. *)
Fixpoint parse_class (fuel : nat) (s : text) : option (list citem * text) :=
  match fuel with
  | O => None
  | S fuel' =>
    match s with
    | [] => None
    | c :: s' =>
      if Ascii.eqb c "]" then Some ([], s')
      else
        match class_atom s with
        | None => None
        | Some (i, s1) =>
          match i, s1 with
          | IChar lo, d :: (h :: _) as s2 =>
            if Ascii.eqb d "-" && negb (Ascii.eqb h "]") then
              match class_atom s2 with
              | Some (IChar hi, s3) =>
                match parse_class fuel' s3 with
                | Some (its, s4) => Some (IRange lo hi :: its, s4)
                | None => None
                end
              | _ => None
              end
            else
              match parse_class fuel' s1 with
              | Some (its, s4) => Some (i :: its, s4)
              | None => None
              end
          | _, _ =>
            match parse_class fuel' s1 with
            | Some (its, s4) => Some (i :: its, s4)
            | None => None
            end
          end
        end
    end
  end.

Fixpoint parse_nat (s : text) (acc : nat) : nat * text :=
  match s with
  | c :: s' =>
    if is_digit c then parse_nat s' (10 * acc + (nat_of_ascii c - 48)) else (acc, s)
  | [] => (acc, s)
  end.

(** The bounds of a quantifier [*], [+], [?], [{n}], [{n,}], [{n,m}]. *)
Definition parse_bounds (s : text) : option (nat * option nat * text) :=
  match s with
  | c :: s' =>
    if Ascii.eqb c "*" then Some (0, None, s')
    else if Ascii.eqb c "+" then Some (1, None, s')
    else if Ascii.eqb c "?" then Some (0, Some 1, s')
    else if Ascii.eqb c "{" then
      let '(lo, s1) := parse_nat s' 0 in
      match s1 with
      | d :: s2 =>
        if Ascii.eqb d "}" then Some (lo, Some lo, s2)
        else if Ascii.eqb d "," then
          match s2 with
          | e :: s3 =>
            if Ascii.eqb e "}" then Some (lo, None, s3)
            else
              let '(hi, s4) := parse_nat s2 0 in
              match s4 with
              | f :: s5 => if Ascii.eqb f "}" then Some (lo, Some hi, s5) else None
              | [] => None
              end
          | [] => None
          end
        else None
      | [] => None
      end
    else None
  | [] => None
  end.

(** A quantifier after an atom; a following [?] makes it lazy. *)
Definition parse_quant (r : regex) (s : text) : regex * text :=
  match parse_bounds s with
  | Some (lo, hi, s') =>
    match s' with
    | q :: s'' => if Ascii.eqb q "?" then (Rep false lo hi r, s'') else (Rep true lo hi r, s')
    | [] => (Rep true lo hi r, s')
    end
  | None => (r, s)
  end.

Definition seq_of (r1 r2 : regex) : regex :=
  match r2 with Eps => r1 | _ => Seq r1 r2 end.

(** A sequence of quantified atoms up to a closing parenthesis or the end of
    the pattern.  [g] is the number of the next capturing group; groups are
    numbered by their opening parenthesis. *)
Fixpoint parse_seq (fuel : nat) (dotall : bool) (s : text) (g : nat)
  : option (regex * text * nat) :=
  match fuel with
  | O => None
  | S fuel' =>
    match s with
    | [] => Some (Eps, [], g)
    | c :: s' =>
      if Ascii.eqb c ")" then Some (Eps, s, g)
      else
        let atom : option (regex * text * nat) :=
          if Ascii.eqb c "(" then
            match s' with
            | "?"%char :: ":"%char :: s'' =>
              match parse_seq fuel' dotall s'' g with
              | Some (r, ")"%char :: s3, g') => Some (r, s3, g')
              | _ => None
              end
            | _ =>
              match parse_seq fuel' dotall s' (S g) with
              | Some (r, ")"%char :: s3, g') => Some (Grp g r, s3, g')
              | _ => None
              end
            end
          else if Ascii.eqb c "[" then
            match s' with
            | "^"%char :: s'' =>
              match parse_class fuel' s'' with
              | Some (its, s3) => Some (Cls true its, s3, g)
              | None => None
              end
            | _ =>
              match parse_class fuel' s' with
              | Some (its, s3) => Some (Cls false its, s3, g)
              | None => None
              end
            end
          else if Ascii.eqb c "." then
            Some (Cls true (if dotall then [] else [IChar newline]), s', g)
          else if Ascii.eqb c backslash then
            match s' with
            | e :: s'' =>
              match escape_item e with
              | Some i => Some (Cls false [i], s'', g)
              | None => None
              end
            | [] => None
            end
          else if Ascii.eqb c "*" || Ascii.eqb c "+" || Ascii.eqb c "?" || Ascii.eqb c "|" then None
          else Some (Chr c, s', g) in
        match atom with
        | None => None
        | Some (r, s1, g1) =>
          let '(rq, s2) := parse_quant r s1 in
          match parse_seq fuel' dotall s2 g1 with
          | Some (rest, s3, g3) => Some (seq_of rq rest, s3, g3)
          | None => None
          end
        end
    end
  end.

Definition parse (dotall : bool) (p : text) : option regex :=
  match parse_seq (S (length p)) dotall p 1 with
  | Some (r, [], _) => Some r
  | _ => None
  end.

End Re.

(** [re p] is [re.compile(r'p')]; [re_s p] compiles with [re.DOTALL]. *)
Definition re (p : string) : Re.regex :=
  match Re.parse false (raw p) with Some r => r | None => Re.never end.
Definition re_s (p : string) : Re.regex :=
  match Re.parse true (raw p) with Some r => r | None => Re.never end.

(* ===================================================================== *)
(** * Regular expressions: matching, [re.search] and [re.sub] *)
(* ===================================================================== *)

Module Match.
Import Re.

(** The text captured by each group, most recent first. *)
Definition captures := list (nat * text).

Definition answer := option (text * captures).
Definition cont := text -> captures -> answer.

(** Repetition of [body] between [lo] and [hi] times.  A greedy repetition
    tries one more iteration before it tries to stop, a lazy one the other
    way round; an iteration that consumes nothing ends the repetition. *)
Fixpoint rep (body : text -> captures -> cont -> answer)
    (greedy : bool) (lo : nat) (hi : option nat) (fuel : nat)
    (s : text) (c : captures) (k : cont) {struct fuel} : answer :=
  match fuel with
  | O => None
  | S fuel' =>
    let again (_ : unit) : answer :=
      match hi with
      | Some O => None
      | _ =>
        body s c (fun s' c' =>
          if length s' <? length s
          then rep body greedy (pred lo) (option_map pred hi) fuel' s' c' k
          else None)
      end in
    let stop (_ : unit) : answer :=
      if lo =? 0 then k s c else None in
    if greedy
    then match again tt with Some x => Some x | None => stop tt end
    else match stop tt with Some x => Some x | None => again tt end
  end.

(** [exec r s c k]: match [r] at the start of [s], then continue with [k] on
    what is left; the first alternative whose continuation succeeds wins. *)
Fixpoint exec (r : regex) (s : text) (c : captures) (k : cont) : answer :=
  match r with
  | Eps => k s c
  | Cls neg items =>
    match s with
    | a :: s' => if cls_mem neg items a then k s' c else None
    | [] => None
    end
  | Seq r1 r2 => exec r1 s c (fun s' c' => exec r2 s' c' k)
  | Rep g lo hi r1 => rep (exec r1) g lo hi (S (length s)) s c k
  | Grp n r1 =>
    exec r1 s c (fun s' c' => k s' ((n, take (length s - length s') s) :: c'))
  end.

Record match_obj := MatchObj { m_whole : text; m_caps : captures }.

Fixpoint cap_lookup (n : nat) (c : captures) : option text :=
  match c with
  | [] => None
  | (i, t) :: c' => if i =? n then Some t else cap_lookup n c'
  end.

(** [m.group(n)]: [None] for a group that took no part in the match. *)
Definition group (m : match_obj) (n : nat) : option text :=
  match n with
  | O => Some (m_whole m)
  | _ => cap_lookup n (m_caps m)
  end.

(** A match of [r] at the start of [s]; with [must_advance] the empty match
    is refused. *)
Definition match_here (r : regex) (must_advance : bool) (s : text) : answer :=
  exec r s []
    (fun s' c => if must_advance && (length s' =? length s) then None else Some (s', c)).

Definition match_of (s rest : text) (c : captures) : match_obj :=
  MatchObj (take (length s - length rest) s) c.

(** [re.search]: the match at the leftmost position that has one. *)
Fixpoint search (r : regex) (s : text) : option match_obj :=
  match match_here r false s with
  | Some (rest, c) => Some (match_of s rest c)
  | None =>
    match s with
    | [] => None
    | _ :: s' => search r s'
    end
  end.

(** The subject cut into the non-overlapping matches [re.sub] replaces and the
    characters between them. *)
Inductive piece :=
| Gap (c : ascii)
| Hit (m : match_obj).

(** After a match the scan resumes where it ended; after an empty match the
    next match at that place has to advance.  One step consumes a character
    or raises [must_advance], so [2 * length s + 2] steps are enough. *)
Fixpoint scan_loop (fuel : nat) (r : regex) (must_advance : bool) (s : text)
  : list piece :=
  match fuel with
  | O => map Gap s
  | S fuel' =>
    match match_here r must_advance s with
    | Some (rest, c) =>
      Hit (match_of s rest c)
        :: scan_loop fuel' r (length rest =? length s) rest
    | None =>
      match s with
      | [] => []
      | a :: s' => Gap a :: scan_loop fuel' r false s'
      end
    end
  end.

Definition scan (r : regex) (s : text) : list piece :=
  scan_loop (2 * length s + 2) r false s.

(** [re.sub(r, f, s)] for a callable [f]. *)
Definition render (f : match_obj -> text) (p : piece) : text :=
  match p with
  | Gap c => [c]
  | Hit m => f m
  end.

Definition sub_fn (r : regex) (f : match_obj -> text) (s : text) : text :=
  flat_map (render f) (scan r s).

(** A replacement template: literal characters and group references. *)
Inductive titem :=
| TLit (c : ascii)
| TRef (n : nat).

Definition expand_item (m : match_obj) (i : titem) : text :=
  match i with
  | TLit c => [c]
  | TRef n => match group m n with Some t => t | None => [] end
  end.

Definition expand (t : list titem) (m : match_obj) : text :=
  flat_map (expand_item m) t.

(** The template syntax of [re.sub]: [\1] .. [\9], [\n], [\\]. *)
Fixpoint parse_template (s : text) : list titem :=
  match s with
  | [] => []
  | c :: s' =>
    if Ascii.eqb c backslash then
      match s' with
      | d :: s'' =>
        if is_digit d then TRef (nat_of_ascii d - 48) :: parse_template s''
        else if Ascii.eqb d "n" then TLit newline :: parse_template s''
        else if Ascii.eqb d backslash then TLit backslash :: parse_template s''
        else TLit c :: TLit d :: parse_template s''
      | [] => [TLit c]
      end
    else TLit c :: parse_template s'
  end.

(** [re.sub(r, t, s)] for a template string [t]. *)
Definition sub (r : regex) (t : list titem) (s : text) : text :=
  sub_fn r (expand t) s.

End Match.

Import Match.

Definition tpl (p : string) : list titem := parse_template (raw p).

(* ===================================================================== *)
(** * Python values: exceptions, string methods, [int], floats *)
(* ===================================================================== *)

Inductive exn :=
| ValueError
| ZeroDivisionError
| OverflowError.

Inductive result (A : Type) :=
| OK (a : A)
| Raise (e : exn).
Arguments OK {A} a.
Arguments Raise {A} e.

Definition bind {A B} (x : result A) (f : A -> result B) : result B :=
  match x with
  | OK a => f a
  | Raise e => Raise e
  end.

Notation "x <- e1 ;; e2" := (bind e1 (fun x => e2))
  (at level 100, e1 at next level, right associativity).

(** [re.sub(r, f, s)] for a callable that may raise: the matches are replaced
    from left to right and the first exception ends the call. *)
Fixpoint render_try (f : match_obj -> result text) (ps : list piece) : result text :=
  match ps with
  | [] => OK []
  | Gap c :: ps' => out <- render_try f ps' ;; OK (c :: out)
  | Hit m :: ps' => t <- f m ;; out <- render_try f ps' ;; OK (t ++ out)
  end.

Definition sub_try (r : Re.regex) (f : match_obj -> result text) (s : text) : result text :=
  render_try f (scan r s).

Fixpoint is_prefix (p s : text) : bool :=
  match p, s with
  | [], _ => true
  | a :: p', b :: s' => Ascii.eqb a b && is_prefix p' s'
  | _ :: _, [] => false
  end.

(** [sub in s]. *)
Fixpoint contains (sub s : text) : bool :=
  is_prefix sub s ||
  match s with
  | [] => false
  | _ :: s' => contains sub s'
  end.

Fixpoint replace_loop (old new : text) (skip : nat) (s : text) : text :=
  match s with
  | [] => []
  | c :: s' =>
    match skip with
    | S k => replace_loop old new k s'
    | O =>
      if is_prefix old s
      then new ++ replace_loop old new (length old - 1) s'
      else c :: replace_loop old new 0 s'
    end
  end.

(** [s.replace(old, new)]: the occurrences of [old] from left to right,
    without overlap; an empty [old] is found before every character and at
    the end. *)
Definition str_replace (old new s : text) : text :=
  match old with
  | [] => new ++ flat_map (fun c => c :: new) s
  | _ => replace_loop old new 0 s
  end.

Fixpoint drop_while (p : ascii -> bool) (s : text) : text :=
  match s with
  | c :: s' => if p c then drop_while p s' else s
  | [] => []
  end.

(** [s.strip(chars)] for the characters accepted by [p]. *)
Definition strip_with (p : ascii -> bool) (s : text) : text :=
  rev (drop_while p (rev (drop_while p s))).

(** [s.strip()]. *)
Definition strip (s : text) : text := strip_with is_space s.

(** [s.lower()] on ASCII text. *)
Definition lower_char (c : ascii) : ascii :=
  if in_range 65 90 c then ascii_of_N (code c + 32) else c.
Definition lower (s : text) : text := map lower_char s.

Fixpoint split_loop (sep : text) (skip : nat) (cur : text) (s : text) : list text :=
  match s with
  | [] => [rev cur]
  | c :: s' =>
    match skip with
    | S k => split_loop sep k cur s'
    | O =>
      if is_prefix sep s
      then rev cur :: split_loop sep (length sep - 1) [] s'
      else split_loop sep 0 (c :: cur) s'
    end
  end.

(** [s.split(sep)] for a non-empty separator. *)
Definition str_split (sep s : text) : list text := split_loop sep 0 [] s.

(** [len(s.split())]: the number of maximal runs of non-space characters. *)
Fixpoint count_words (in_word : bool) (s : text) : nat :=
  match s with
  | [] => 0
  | c :: s' =>
    if is_space c then count_words false s'
    else if in_word then count_words true s' else S (count_words true s')
  end.

(** [sep.join(parts)]. *)
Fixpoint join (sep : text) (parts : list text) : text :=
  match parts with
  | [] => []
  | [p] => p
  | p :: ps => p ++ sep ++ join sep ps
  end.

Definition digit_char (d : N) : ascii := ascii_of_N (48 + d).

Fixpoint dec_digits (fuel : nat) (n : N) (acc : text) : text :=
  match fuel with
  | O => acc
  | S fuel' =>
    let acc' := digit_char (n mod 10) :: acc in
    if (n / 10 =? 0)%N then acc' else dec_digits fuel' (n / 10)%N acc'
  end.

(** [str(n)] for an integer. *)
Definition str_of_N (n : N) : text := dec_digits (S (N.to_nat (N.log2 n))) n [].
Definition str_of_Z (z : Z) : text :=
  match z with
  | Zneg p => "-"%char :: str_of_N (Npos p)
  | _ => str_of_N (Z.to_N z)
  end.

(** The digits of an integer literal: decimal digits, single underscores
    allowed between two digits. *)
Fixpoint int_digits (s : text) (acc : N) (after_digit : bool) : option N :=
  match s with
  | [] => if after_digit then Some acc else None
  | c :: s' =>
    if is_digit c then int_digits s' (10 * acc + (code c - 48))%N true
    else if Ascii.eqb c "_" && after_digit then
      match s' with
      | d :: _ => if is_digit d then int_digits s' acc false else None
      | [] => None
      end
    else None
  end.

(** [int(s)] for a string: surrounding white space, an optional sign, then
    the digits; [ValueError] otherwise. *)
Definition int_of_str (s : text) : result Z :=
  let body := strip s in
  let '(neg, ds) :=
    match body with
    | c :: s' =>
      if Ascii.eqb c "-" then (true, s')
      else if Ascii.eqb c "+" then (false, s')
      else (false, body)
    | [] => (false, body)
    end in
  match int_digits ds 0%N false with
  | Some n => OK (if neg then (- Z.of_N n)%Z else Z.of_N n)
  | None => Raise ValueError
  end.

(** ** Double-precision arithmetic (IEEE 754 binary64, round to nearest even),
    by the reference operations of the standard library. *)
Module Float.

Definition prec : Z := 53.
Definition emax : Z := 1024.

(** The double nearest to a quotient or product of integers is computed from
    the exact integers. *)
Definition of_Z (z : Z) : spec_float :=
  match z with
  | Z0 => S754_zero false
  | Zpos p => S754_finite false p 0
  | Zneg p => S754_finite true p 0
  end.

(** [a / b] on integers (true division). *)
Definition true_div (a b : Z) : result spec_float :=
  if (b =? 0)%Z then Raise ZeroDivisionError
  else
    match SFdiv prec emax (of_Z a) (of_Z b) with
    | S754_infinity _ => Raise OverflowError
    | q => OK q
    end.

(** [x * n] for a double and an integer. *)
Definition mul_int (x : spec_float) (n : Z) : spec_float :=
  SFmul prec emax x (of_Z n).

(** [int(x)]: truncation toward zero. *)
Definition to_int (x : spec_float) : result Z :=
  match x with
  | S754_zero _ => OK 0%Z
  | S754_finite sg m e =>
    let v := if (0 <=? e)%Z then (Z.pos m * 2 ^ e)%Z else (Z.pos m / 2 ^ (- e))%Z in
    OK (if sg then (- v)%Z else v)
  | S754_infinity _ => Raise OverflowError
  | S754_nan => Raise ValueError
  end.

End Float.

(* ===================================================================== *)
(** * scripts/wp_transform.py *)
(* ===================================================================== *)

(** A [re.sub] statement: pattern and replacement (template or callable). *)
Inductive rule :=
| Tpl (r : Re.regex) (t : list titem)
| Fn (r : Re.regex) (f : match_obj -> text).

Definition apply_rule (content : text) (ru : rule) : text :=
  match ru with
  | Tpl r t => Match.sub r t content
  | Fn r f => Match.sub_fn r f content
  end.

(** A run of [content = re.sub(...)] statements, first to last. *)
Definition apply_rules (rules : list rule) (content : text) : text :=
  fold_left apply_rule rules content.

(** The composition [normalize('NFKD', c).encode('ascii', 'ignore')] on one
    code point below 256: the ASCII letters and digits of its compatibility
    decomposition; code points without an ASCII part vanish. *)
Definition nfkd_ascii_char (c : ascii) : text :=
  let n := code c in
  if (n <? 128)%N then [c]
  else if (n =? 160)%N || (n =? 168)%N || (n =? 175)%N || (n =? 180)%N || (n =? 184)%N
    then [" "%char]
  else if (n =? 170)%N then ["a"%char]
  else if (n =? 178)%N then ["2"%char]
  else if (n =? 179)%N then ["3"%char]
  else if (n =? 185)%N then ["1"%char]
  else if (n =? 186)%N then ["o"%char]
  else if (n =? 188)%N then ["1"; "4"]%char
  else if (n =? 189)%N then ["1"; "2"]%char
  else if (n =? 190)%N then ["3"; "4"]%char
  else if in_range 192 197 c then ["A"%char]
  else if (n =? 199)%N then ["C"%char]
  else if in_range 200 203 c then ["E"%char]
  else if in_range 204 207 c then ["I"%char]
  else if (n =? 209)%N then ["N"%char]
  else if in_range 210 214 c then ["O"%char]
  else if in_range 217 220 c then ["U"%char]
  else if (n =? 221)%N then ["Y"%char]
  else if in_range 224 229 c then ["a"%char]
  else if (n =? 231)%N then ["c"%char]
  else if in_range 232 235 c then ["e"%char]
  else if in_range 236 239 c then ["i"%char]
  else if (n =? 241)%N then ["n"%char]
  else if in_range 242 246 c then ["o"%char]
  else if in_range 249 252 c then ["u"%char]
  else if (n =? 253)%N || (n =? 255)%N then ["y"%char]
  else [].

Definition nfkd_ascii (s : text) : text := flat_map nfkd_ascii_char s.

(** [slugify]. *)
Definition slugify (t : text) : text :=
  let t := nfkd_ascii t in
  let t := Match.sub (re "[^\w\s-]") (tpl "") (lower t) in
  strip_with (fun c => Ascii.eqb c "-") (Match.sub (re "[-\s]+") (tpl "-") t).

(** [round(x)] for a double: the nearest integer, ties to even. *)
Definition py_round (x : spec_float) : Z :=
  match x with
  | S754_finite sg m e =>
    let v :=
      if (0 <=? e)%Z then (Z.pos m * 2 ^ e)%Z
      else
        let d := (2 ^ (- e))%Z in
        let q := (Z.pos m / d)%Z in
        let r := (Z.pos m mod d)%Z in
        if (2 * r <? d)%Z then q
        else if (d <? 2 * r)%Z then (q + 1)%Z
        else if Z.even q then q else (q + 1)%Z in
    if sg then (- v)%Z else v
  | _ => 0%Z
  end.

(** [estimate_reading_time]. *)
Definition estimate_reading_time (content : text) : Z :=
  let t := Match.sub (re "<[^>]+>") (tpl "") content in
  let words := Z.of_nat (count_words false t) in
  match Float.true_div words 200 with
  | OK q => Z.max 1 (py_round q)
  | Raise _ => 1%Z
  end.

(** The module-level [unknown_shortcodes] set. *)
Abbreviation registry := (gset text).

Section Transform.

(** [html.unescape] of the Python standard library. *)
Variable html_unescape : text -> text.

(** The [re.sub] statements of [html_to_markdown] before the entities are
    decoded. *)
Definition markup_rules : list rule :=
  [ Tpl (re "<!--[^>]*-->") (tpl "");
    Tpl (re "/\*!?[^*]*\*+(?:[^/*][^*]*\*+)*/") (tpl "");
    Tpl (re_s "<style[^>]*>.*?</style>") (tpl "");
    Tpl (re_s "<script[^>]*>.*?</script>") (tpl "");
    Tpl (re "\.elementor[^{]*\{[^}]*\}") (tpl "");
    Tpl (re "\.[a-zA-Z_-]+[^{]*\{[^}]*\}") (tpl "");
    Tpl (re_s "<h1[^>]*>\s*(.*?)\s*</h1>") (tpl "# \1\n");
    Tpl (re_s "<h2[^>]*>\s*(.*?)\s*</h2>") (tpl "## \1\n");
    Tpl (re_s "<h3[^>]*>\s*(.*?)\s*</h3>") (tpl "### \1\n");
    Tpl (re_s "<h4[^>]*>\s*(.*?)\s*</h4>") (tpl "#### \1\n");
    Tpl (re_s "<h5[^>]*>\s*(.*?)\s*</h5>") (tpl "##### \1\n");
    Tpl (re_s "<h6[^>]*>\s*(.*?)\s*</h6>") (tpl "###### \1\n");
    Tpl (re_s "<p[^>]*>\s*(.*?)\s*</p>") (tpl "\1\n\n");
    Tpl (re_s "<a[^>]*href=`([^`]*)`[^>]*>\s*(.*?)\s*</a>") (tpl "[\2](\1)");
    Tpl (re_s "<strong[^>]*>\s*(.*?)\s*</strong>") (tpl "**\1**");
    Tpl (re_s "<b[^>]*>\s*(.*?)\s*</b>") (tpl "**\1**");
    Tpl (re_s "<em[^>]*>\s*(.*?)\s*</em>") (tpl "*\1*");
    Tpl (re_s "<i[^>]*>\s*(.*?)\s*</i>") (tpl "*\1*");
    Tpl (re_s "<blockquote[^>]*>\s*(.*?)\s*</blockquote>") (tpl "> \1\n");
    Tpl (re_s "<li[^>]*>\s*(.*?)\s*</li>") (tpl "- \1\n");
    Tpl (re "<ul[^>]*>") (tpl "\n");
    Tpl (re "</ul>") (tpl "\n");
    Tpl (re "<ol[^>]*>") (tpl "\n");
    Tpl (re "</ol>") (tpl "\n");
    Tpl (re "<img[^>]*src=`([^`]*)`[^>]*alt=`([^`]*)`[^>]*/?\s*>") (tpl "![\2](\1)\n");
    Tpl (re "<img[^>]*src=`([^`]*)`[^>]*/?\s*>") (tpl "![Image](\1)\n");
    Tpl (re "<br\s*/?\s*>") (tpl "\n");
    Tpl (re "<hr[^>]*/?\s*>") (tpl "\n---\n");
    Tpl (re "<[^>]+>") (tpl "") ].

(** The white-space clean-up that ends [html_to_markdown]. *)
Definition whitespace_rules : list rule :=
  [ Tpl (re "\n{3,}") (tpl "\n\n");
    Tpl (re "[ \t]+") (tpl " ");
    Tpl (re "\n +") (tpl "\n");
    Tpl (re " +\n") (tpl "\n") ].

Definition escape_braces (content : text) : text :=
  str_replace (py "}") (py "&#125;") (str_replace (py "{") (py "&#123;") content).

(** [html_to_markdown]. *)
Definition html_to_markdown (html_content : text) : text :=
  match html_content with
  | [] => []
  | _ =>
    let content := apply_rules markup_rules html_content in
    let content := html_unescape content in
    let content := escape_braces content in
    let content := apply_rules whitespace_rules content in
    strip content
  end.

Definition clean_html (html_content : text) : text := html_to_markdown html_content.

(** The [re.sub] statements of [convert_gutenberg_blocks]. *)
Definition gutenberg_rules : list rule :=
  [ Tpl (re "<!-- wp:paragraph[^>]*-->\s*") (tpl "");
    Tpl (re "\s*<!-- /wp:paragraph -->") (tpl "");
    Tpl (re "<!-- wp:heading[^>]*-->\s*") (tpl "");
    Tpl (re "\s*<!-- /wp:heading -->") (tpl "");
    Tpl (re "<!-- wp:list[^>]*-->\s*") (tpl "");
    Tpl (re "\s*<!-- /wp:list -->") (tpl "");
    Tpl (re "<!-- wp:list-item[^>]*-->\s*") (tpl "");
    Tpl (re "\s*<!-- /wp:list-item -->") (tpl "");
    Tpl (re "<!-- wp:quote[^>]*-->\s*") (tpl "");
    Tpl (re "\s*<!-- /wp:quote -->") (tpl "");
    Tpl (re "<!-- wp:code[^>]*-->\s*") (tpl "");
    Tpl (re "\s*<!-- /wp:code -->") (tpl "");
    Tpl (re "<!-- wp:preformatted[^>]*-->\s*") (tpl "");
    Tpl (re "\s*<!-- /wp:preformatted -->") (tpl "");
    Tpl (re "<!-- wp:group[^>]*-->\s*") (tpl "<div class=`content-group`>");
    Tpl (re "\s*<!-- /wp:group -->") (tpl "</div>");
    Tpl (re "<!-- wp:columns[^>]*-->\s*") (tpl "<div class=`columns`>");
    Tpl (re "\s*<!-- /wp:columns -->") (tpl "</div>");
    Tpl (re "<!-- wp:column[^>]*-->\s*") (tpl "<div class=`column`>");
    Tpl (re "\s*<!-- /wp:column -->") (tpl "</div>");
    Tpl (re "<!-- wp:image[^>]*-->\s*") (tpl "");
    Tpl (re "\s*<!-- /wp:image -->") (tpl "");
    Tpl (re "<!-- wp:gallery[^>]*-->\s*") (tpl "<div class=`gallery`>");
    Tpl (re "\s*<!-- /wp:gallery -->") (tpl "</div>");
    Tpl (re "<!-- wp:video[^>]*-->\s*") (tpl "");
    Tpl (re "\s*<!-- /wp:video -->") (tpl "");
    Tpl (re "<!-- wp:audio[^>]*-->\s*") (tpl "");
    Tpl (re "\s*<!-- /wp:audio -->") (tpl "");
    Tpl (re "<!-- wp:embed[^>]*-->\s*") (tpl "<div class=`embed`>");
    Tpl (re "\s*<!-- /wp:embed -->") (tpl "</div>");
    Tpl (re "<!-- wp:core-embed/[^>]*-->\s*") (tpl "<div class=`embed`>");
    Tpl (re "\s*<!-- /wp:core-embed/[^>]* -->") (tpl "</div>");
    Tpl (re "<!-- wp:[^>]* -->") (tpl "");
    Tpl (re "<!-- /wp:[^>]* -->") (tpl "") ].

(** [convert_gutenberg_blocks]. *)
Definition convert_gutenberg_blocks (content : text) : text :=
  match content with
  | [] => []
  | _ => apply_rules gutenberg_rules content
  end.

Definition known_shortcodes : gset text :=
  list_to_set (map py
    [ "vc_row"; "vc_row_inner"; "vc_column"; "vc_column_inner";
      "vc_column_text"; "vc_custom_heading"; "vc_single_image";
      "vc_separator"; "vc_empty_space"; "vc_pie"; "vc_progress_bar";
      "vc_tta_section"; "vc_tta_accordion"; "vc_tta_tabs"; "vc_btn";
      "vc_icon"; "vc_gallery"; "vc_video"; "vc_wp_search";
      "stm_spacing"; "stm_icon_box"; "stm_services"; "stm_news";
      "stm_testimonials"; "stm_testimonials_carousel"; "stm_partner";
      "stm_post_details"; "stm_image_carousel"; "stm_vacancies";
      "stm_company_history_item"; "stm_cost_calculator" ]%string).

(** [match.group(1) if match.group(1) else ''], and [m.group(1)] of a
    search that is known to have matched. *)
Definition group1 (m : match_obj) : text := default [] (group m 1).

(** [track_unknown]: the callback of the first pass. *)
Definition track_unknown (reg : registry) (m : match_obj) : registry :=
  let shortcode := group1 m in
  if decide (shortcode ∈ known_shortcodes) then reg else {[ shortcode ]} ∪ reg.

Definition track_piece (reg : registry) (p : piece) : registry :=
  match p with
  | Hit m => track_unknown reg m
  | Gap _ => reg
  end.

(** The first pass: [re.sub(r'\[(\w+)[^\]]*\]', track_unknown, content)],
    run for its effect on the registry. *)
Definition track_shortcodes (content : text) (reg : registry) : registry :=
  fold_left track_piece (scan (re "\[(\w+)[^\]]*\]") content) reg.

(** [re.search] for an attribute pattern, and group 1 of its match. *)
Definition attr_search (p : string) (attrs : text) : option text :=
  option_map group1 (search (re p) attrs).

(** [convert_column]. *)
Definition convert_column (m : match_obj) : result text :=
  let attrs := group1 m in
  let width_match := attr_search "width=`([^`]+)`" attrs in
  let offset_match := attr_search "offset=`([^`]+)`" attrs in
  let classes := [py "column"] in
  classes <-
    match width_match with
    | Some width =>
      if contains (py "/") width then
        match str_split (py "/") width with
        | [num; den] =>
          n <- int_of_str num ;;
          d <- int_of_str den ;;
          q <- Float.true_div n d ;;
          pct <- Float.to_int (Float.mul_int q 100) ;;
          OK (classes ++ [py "w-" ++ str_of_Z pct])
        | _ => Raise ValueError
        end
      else OK classes
    | None => OK classes
    end ;;
  let classes :=
    match offset_match with
    | Some offset => classes ++ [str_replace (py "vc_col-") (py "col-") offset]
    | None => classes
    end in
  OK (py "<div class=`" ++ join (py " ") classes ++ py "`>").

(** [convert_heading]. *)
Definition convert_heading (m : match_obj) : text :=
  let attrs := group1 m in
  let t := default [] (attr_search "text=`([^`]+)`" attrs) in
  py "<h2 class=`section-heading`>" ++ html_unescape t ++ py "</h2>".

(** [convert_image]. *)
Definition convert_image (m : match_obj) : text :=
  py "<figure class=`wp-image`><img src=`/images/placeholder.jpg` alt=`Image` /></figure>".

(** [convert_button]. *)
Definition convert_button (m : match_obj) : text :=
  let attrs := group1 m in
  let title_match := attr_search "title=`([^`]+)`" attrs in
  let link_match := attr_search "link=`([^`]+)`" attrs in
  let title :=
    match title_match with
    | Some t => html_unescape t
    | None => py "Button"
    end in
  let link :=
    match link_match with
    | Some l =>
      let link_str := html_unescape l in
      match attr_search "url:([^|]+)" link_str with
      | Some u => u
      | None => py "#"
      end
    | None => py "#"
    end in
  py "<a href=`" ++ link ++ py "` class=`btn btn-primary`>" ++ title ++ py "</a>".

(** [convert_pie]. *)
Definition convert_pie (m : match_obj) : text :=
  let attrs := group1 m in
  let value_match := attr_search "value=`([^`]+)`" attrs in
  let label_match := attr_search "label_value=`([^`]+)`" attrs in
  let title_match := attr_search "title=`([^`]+)`" attrs in
  let value := default (py "0") value_match in
  let label := match label_match with Some l => html_unescape l | None => value end in
  let title := match title_match with Some t => html_unescape t | None => [] end in
  py "<div class=`stat-item`>\n  <span class=`stat-value`>" ++ label
    ++ py "</span>\n  <span class=`stat-label`>" ++ title ++ py "</span>\n</div>".

(** [convert_icon_box]. *)
Definition convert_icon_box (m : match_obj) : text :=
  let attrs := group1 m in
  let title :=
    match attr_search "title=`([^`]+)`" attrs with
    | Some t => html_unescape t
    | None => []
    end in
  py "<div class=`icon-box`>\n  <h3>" ++ title ++ py "</h3>\n</div>".

(** [convert_tta_section]. *)
Definition convert_tta_section (m : match_obj) : text :=
  let attrs := group1 m in
  let title :=
    match attr_search "title=`([^`]+)`" attrs with
    | Some t => html_unescape t
    | None => py "Section"
    end in
  py "<div class=`accordion-item`><h4 class=`accordion-title`>" ++ title
    ++ py "</h4><div class=`accordion-content`>".

(** [convert_video]. *)
Definition convert_video (m : match_obj) : text :=
  let attrs := group1 m in
  let link := default [] (attr_search "link=`([^`]+)`" attrs) in
  if contains (py "youtube") link || contains (py "youtu.be") link
  then py "<div class=`video-embed`><a href=`" ++ link ++ py "` target=`_blank`>Watch Video</a></div>"
  else py "<div class=`video-embed`><!-- Video content --></div>".

(** The statements of [convert_vc_shortcodes] before the column rules. *)
Definition row_rules : list rule :=
  [ Tpl (re "\[vc_row[^\]]*\]") (tpl "<section class=`content-section`>");
    Tpl (re "\[/vc_row\]") (tpl "</section>");
    Tpl (re "\[vc_row_inner[^\]]*\]") (tpl "<div class=`row-inner`>");
    Tpl (re "\[/vc_row_inner\]") (tpl "</div>") ].

(** The statements of [convert_vc_shortcodes] after the column rules. *)
Definition shortcode_rules : list rule :=
  [ Tpl (re "\[vc_column_text[^\]]*\]") (tpl "");
    Tpl (re "\[/vc_column_text\]") (tpl "");
    Fn (re "\[vc_custom_heading([^\]]*)\]") convert_heading;
    Fn (re "\[vc_single_image([^\]]*)\]") convert_image;
    Tpl (re "\[vc_separator[^\]]*\]") (tpl "<hr class=`section-divider` />");
    Tpl (re "\[vc_empty_space[^\]]*\]") (tpl "<div class=`spacer`></div>");
    Fn (re "\[vc_btn([^\]]*)\]") convert_button;
    Fn (re "\[vc_pie([^\]]*)\]") convert_pie;
    Tpl (re "\[stm_spacing[^\]]*\]") (tpl "<div class=`spacer`></div>");
    Fn (re "\[stm_icon_box([^\]]*)\]") convert_icon_box;
    Tpl (re "\[stm_services[^\]]*\]")
        (tpl "<!-- TODO: Services component needs implementation -->");
    Tpl (re "\[stm_news[^\]]*\]")
        (tpl "<!-- TODO: News component needs implementation -->");
    Tpl (re "\[stm_testimonials[^\]]*\]")
        (tpl "<!-- TODO: Testimonials component needs implementation -->");
    Tpl (re "\[stm_testimonials_carousel[^\]]*\]")
        (tpl "<!-- TODO: Testimonials carousel needs implementation -->");
    Tpl (re "\[stm_partner[^\]]*\]")
        (tpl "<!-- TODO: Partner logos component needs implementation -->");
    Tpl (re "\[stm_post_details[^\]]*\]") (tpl "");
    Tpl (re "\[stm_image_carousel[^\]]*\]")
        (tpl "<!-- TODO: Image carousel needs implementation -->");
    Tpl (re "\[stm_vacancies[^\]]*\]")
        (tpl "<!-- TODO: Vacancies/careers listing needs implementation -->");
    Tpl (re "\[stm_company_history_item[^\]]*\]")
        (tpl "<!-- TODO: Company history item needs implementation -->");
    Tpl (re "\[stm_cost_calculator[^\]]*\]")
        (tpl "<!-- TODO: Cost calculator needs implementation -->");
    Tpl (re "\[vc_tta_accordion[^\]]*\]") (tpl "<div class=`accordion`>");
    Tpl (re "\[/vc_tta_accordion\]") (tpl "</div>");
    Tpl (re "\[vc_tta_tabs[^\]]*\]") (tpl "<div class=`tabs`>");
    Tpl (re "\[/vc_tta_tabs\]") (tpl "</div>");
    Fn (re "\[vc_tta_section([^\]]*)\]") convert_tta_section;
    Tpl (re "\[/vc_tta_section\]") (tpl "</div></div>");
    Tpl (re "\[woocommerce_cart[^\]]*\]")
        (tpl "<!-- TODO: Shopping cart needs implementation -->");
    Tpl (re "\[woocommerce_my_account[^\]]*\]")
        (tpl "<!-- TODO: Account page needs implementation -->");
    Tpl (re "\[contact-form-7[^\]]*\]")
        (tpl "<div class=`contact-form-placeholder`><p>Contact form - please use the contact details provided.</p></div>");
    Tpl (re "\[vc_wp_search[^\]]*\]") (tpl "");
    Tpl (re "\[vc_gallery[^\]]*\]")
        (tpl "<div class=`gallery`><!-- Gallery images --></div>");
    Fn (re "\[vc_video([^\]]*)\]") convert_video;
    Tpl (re "\[vc_icon[^\]]*\]") (tpl "");
    Tpl (re "\[\/?[\w_-]+[^\]]*\]") (tpl "") ].

(** [convert_vc_shortcodes]: the registry after the call and the text it
    returns, or the exception [convert_column] raised.  The first pass has
    updated the registry before any rule runs. *)
Definition convert_vc_shortcodes (content : text) (reg : registry)
  : registry * result text :=
  match content with
  | [] => (reg, OK [])
  | _ =>
    let reg' := track_shortcodes content reg in
    (reg',
     let content := apply_rules row_rules content in
     content <- sub_try (re "\[vc_column([^\]]*)\]") convert_column content ;;
     let content := Match.sub (re "\[/vc_column\]") (tpl "</div>") content in
     content <- sub_try (re "\[vc_column_inner([^\]]*)\]") convert_column content ;;
     let content := Match.sub (re "\[/vc_column_inner\]") (tpl "</div>") content in
     OK (apply_rules shortcode_rules content))
  end.

(** The three [re.sub] statements of [convert_internal_links]; the two
    patterns that start with [re.escape(base_url)] are built from it. *)
Definition link_rules (base_url : text) : list rule :=
  [ Tpl (Re.Seq (Re.lit base_url) (re "/([\d]{4})/([\d]{2})/([\d]{2})/([^/`]+)/?"))
        (tpl "/blog/\4/");
    Tpl (Re.Seq (Re.lit base_url) (re "/([^`\'>\s]+)/?")) (tpl "/\1/");
    Tpl (re "([^:])//") (tpl "\1/") ].

(** [convert_internal_links]. *)
Definition convert_internal_links (content base_url : text) : text :=
  match content with
  | [] => []
  | _ => apply_rules (link_rules base_url) content
  end.

(** [transform_content]. *)
Definition transform_content (content base_url : text) (reg : registry)
  : registry * result text :=
  match content with
  | [] => (reg, OK [])
  | _ =>
    let content := convert_gutenberg_blocks content in
    let '(reg', converted) := convert_vc_shortcodes content reg in
    (reg',
     content <- converted ;;
     let content := convert_internal_links content base_url in
     let content := clean_html content in
     let content := Match.sub (re "\n{3,}") (tpl "\n\n") content in
     OK (strip content))
  end.

End Transform.

(* --------------------------------------------------------------------- *)
(** ** Content records and the frontmatter *)

Record term := Term { term_id : Z; term_name : text; term_slug : text }.

Record featured_image := Featured { fi_url : option text; fi_alt : option text }.

(** A content record: the keys the transformation reads; [None] is a key the
    record does not supply, so that [item.get(key, default)] takes the
    default. *)
Record item := Item {
  it_id : Z;
  it_title : option text;
  it_slug : option text;
  it_date : option text;
  it_modified : option text;
  it_status : option text;
  it_excerpt : option text;
  it_categories : option (list term);
  it_tags : option (list term);
  it_featuredImage : option featured_image;
  it_authorId : option Z;
  it_menuOrder : option Z;
  it_parentId : option Z;
  it_fullPath : option text;
  it_content : option text }.

Definition escape_quotes (s : text) : text := str_replace (py "`") (py "\\`") s.

(** The quoted, comma-separated slugs of a term list. *)
Definition slug_list (ts : list term) : text :=
  join (py ", ") (map (fun t => py "`" ++ term_slug t ++ py "`") ts).

(** [generate_frontmatter]; [now] is [datetime.now().isoformat()].  The list
    [fm] grows by [fm.append(line)]; a conditional [append] adds one line or
    none. *)
Definition generate_frontmatter (now : text) (it : item) (item_type : text) : text :=
  let title := escape_quotes (default (py "Untitled") (it_title it)) in
  let fm := [py "---"; py "title: `" ++ title ++ py "`"] in
  let slug := default (slugify title) (it_slug it) in
  let fm := fm ++ [py "permalink: `" ++ slug ++ py "`"] in
  let date := default now (it_date it) in
  let fm := fm ++ [py "date: `" ++ date ++ py "`"] in
  let fm := fm ++
    match it_modified it with
    | Some (_ :: _ as modified) => [py "updated: `" ++ modified ++ py "`"]
    | _ => []
    end in
  let fm := fm ++ [py "type: `" ++ item_type ++ py "`"] in
  let fm := fm ++ [py "status: `" ++ default (py "publish") (it_status it) ++ py "`"] in
  let excerpt :=
    take 200 (str_replace [newline] (py " ") (escape_quotes (default [] (it_excerpt it)))) in
  let fm := fm ++
    match excerpt with
    | [] => []
    | _ => [py "excerpt: `" ++ excerpt ++ py "`"]
    end in
  let fm := fm ++
    match it_categories it with
    | Some (_ :: _ as categories) => [py "categories: [" ++ slug_list categories ++ py "]"]
    | _ => []
    end in
  let fm := fm ++
    match it_tags it with
    | Some (_ :: _ as tags) => [py "tags: [" ++ slug_list tags ++ py "]"]
    | _ => []
    end in
  let fm := fm ++
    match it_featuredImage it with
    | Some featured =>
      [py "featuredImage: `" ++ default [] (fi_url featured) ++ py "`";
       py "featuredImageAlt: `" ++ escape_quotes (default [] (fi_alt featured)) ++ py "`"]
    | None => []
    end in
  let fm := fm ++
    match it_authorId it with
    | Some author_id =>
      if (author_id =? 0)%Z then [] else [py "authorId: " ++ str_of_Z author_id]
    | None => []
    end in
  let fm := fm ++
    (if decide (item_type = py "page") then
       [py "menuOrder: " ++ str_of_Z (default 0%Z (it_menuOrder it));
        py "parentId: " ++ str_of_Z (default 0%Z (it_parentId it));
        py "path: `" ++ default slug (it_fullPath it) ++ py "`"]
     else []) in
  let fm := fm ++
    (if decide (item_type = py "post") then
       [py "readingTime: "
          ++ str_of_Z (estimate_reading_time (default [] (it_content it)))]
     else []) in
  let fm := fm ++ [py "canonicalUrl: `/" ++ slug ++ py "/`"] in
  join [newline] (fm ++ [py "---"]).

(* --------------------------------------------------------------------- *)
(** ** The batch run and its report *)

Section Batch.

Variable html_unescape : text -> text.

(** [list(unknown_shortcodes)]: the order in which a Python set yields its
    members is left open. *)
Variable set_order : gset text -> list text.

(** [datetime.now().isoformat()]. *)
Variable now : text.

(** An output document, as [save_mdx] writes it: file stem and contents. *)
Definition document := (text * text)%type.

(** The loop of [transform_posts] (and of [transform_pages] and
    [transform_custom_types], which differ in the item type and directory):
    each item in turn, the registry carried along; the first exception ends
    the run. *)
Fixpoint transform_items (item_type base_url : text) (items : list item)
    (reg : registry) : registry * result (list document) :=
  match items with
  | [] => (reg, OK [])
  | it :: items' =>
    let slug := default (slugify (default (py "untitled") (it_title it))) (it_slug it) in
    let frontmatter := generate_frontmatter now it item_type in
    match transform_content html_unescape (default [] (it_content it)) base_url reg with
    | (reg', Raise e) => (reg', Raise e)
    | (reg', OK content) =>
      let doc := (slug, frontmatter ++ [newline; newline] ++ content) in
      match transform_items item_type base_url items' reg' with
      | (reg'', OK docs) => (reg'', OK (doc :: docs))
      | (reg'', Raise e) => (reg'', Raise e)
      end
    end
  end.

(** The custom types that [transform_custom_types] skips. *)
Definition skipped_types : list text :=
  map py [ "cost-calc"; "cost-calc-templates"; "cost-calc-categories";
           "wpcf7_contact_form"; "stm_vc_sidebar"; "elementor_library" ]%string.

Fixpoint transform_custom_types (base_url : text)
    (custom_types : list (text * list item)) (reg : registry)
  : registry * result (list document) :=
  match custom_types with
  | [] => (reg, OK [])
  | (type_name, items) :: rest =>
    if decide (type_name ∈ skipped_types) then transform_custom_types base_url rest reg
    else
      match transform_items type_name base_url items reg with
      | (reg', Raise e) => (reg', Raise e)
      | (reg', OK docs) =>
        match transform_custom_types base_url rest reg' with
        | (reg'', OK docs') => (reg'', OK (docs ++ docs'))
        | (reg'', Raise e) => (reg'', Raise e)
        end
      end
  end.

Record report := Report {
  unknownShortcodes : list text;
  conversionIssues : list text;
  timestamp : text }.

(** [generate_report]; nothing in the module appends to [conversion_issues]. *)
Definition generate_report (reg : registry) : report :=
  Report (set_order reg) [] now.

(** The order of Python strings: lexicographic on the code points. *)
Fixpoint text_leb (a b : text) : bool :=
  match a, b with
  | [], _ => true
  | _ :: _, [] => false
  | x :: a', y :: b' =>
    if (code x <? code y)%N then true
    else if (code x =? code y)%N then text_leb a' b'
    else false
  end.

(** The lines [generate_report] prints: [sorted(unknown_shortcodes)]. *)
Definition printed_shortcodes (reg : registry) : list text :=
  merge_sort (fun a b => Is_true (text_leb a b)) (elements reg).

(** [main]: posts, pages and custom types are transformed in this order,
    starting from the empty registry, then the report is generated. *)
Definition main (base_url : text) (posts pages : list item)
    (custom_types : list (text * list item)) : result report :=
  match transform_items (py "post") base_url posts ∅ with
  | (_, Raise e) => Raise e
  | (reg1, OK _) =>
    match transform_items (py "page") base_url pages reg1 with
    | (_, Raise e) => Raise e
    | (reg2, OK _) =>
      match transform_custom_types base_url custom_types reg2 with
      | (_, Raise e) => Raise e
      | (reg3, OK _) => OK (generate_report reg3)
      end
    end
  end.

End Batch.

(* ===================================================================== *)
(** * scripts/wp_export.py: the page hierarchy *)
(* ===================================================================== *)

Record page := Page {
  pg_id : Z;
  pg_slug : text;
  pg_parentId : Z;
  pg_title : text }.

Record hierarchy_node := Node {
  nd_slug : text;
  nd_fullPath : text;
  nd_parentId : Z;
  nd_title : text }.

(** [page_map = {p['id']: p for p in pages}]: a later page replaces an
    earlier one with the same id. *)
Definition page_map (pages : list page) : gmap Z page :=
  fold_left (fun m p => <[pg_id p := p]> m) pages ∅.

(** The [while] loop of [get_path]: one unit of fuel per iteration; [None]
    when the fuel runs out before the loop ends. *)
Fixpoint walk (fuel : nat) (pm : gmap Z page) (path : list text) (current : page)
  : option (list text) :=
  match fuel with
  | O => None
  | S fuel' =>
    if (0 <? pg_parentId current)%Z then
      match pm !! pg_parentId current with
      | Some parent => walk fuel' pm (pg_slug parent :: path) parent
      | None => Some path
      end
    else Some path
  end.

(** [get_path]. *)
Definition get_path (fuel : nat) (pm : gmap Z page) (p : page) : option text :=
  option_map (join (py "/")) (walk fuel pm [pg_slug p] p).

(** The [for] loop of [build_page_hierarchy]. *)
Fixpoint build_loop (fuel : nat) (pm : gmap Z page) (pages : list page)
    (hierarchy : gmap Z hierarchy_node) : option (gmap Z hierarchy_node) :=
  match pages with
  | [] => Some hierarchy
  | p :: pages' =>
    match get_path fuel pm p with
    | None => None
    | Some full =>
      build_loop fuel pm pages'
        (<[pg_id p := Node (pg_slug p) full (pg_parentId p) (pg_title p)]> hierarchy)
    end
  end.

(** [build_page_hierarchy]: [None] when some walk does not end within
    [fuel] iterations. *)
Definition build_page_hierarchy (fuel : nat) (pages : list page)
  : option (gmap Z hierarchy_node) :=
  build_loop fuel (page_map pages) pages ∅.

(* ===================================================================== *)
(** * scripts/wp_export.py: the meta dictionary of a post *)
(* ===================================================================== *)

(** A value of the dictionary: the value of the only row of a key, or the
    list of the values of its rows. *)
Inductive meta_value :=
| Single (v : text)
| Several (vs : list text).

(** [key.startswith('_edit_') or key == '_wp_old_slug']. *)
Definition internal_meta_key (key : text) : bool :=
  is_prefix (py "_edit_") key || bool_decide (key = py "_wp_old_slug").

(** The body of the loop over the fetched rows. *)
Definition add_meta (meta : gmap text meta_value) (row : text * text)
  : gmap text meta_value :=
  let '(key, value) := row in
  if internal_meta_key key then meta
  else
    match meta !! key with
    | Some (Several vs) => <[key := Several (vs ++ [value])]> meta
    | Some (Single v) => <[key := Several [v; value]]> meta
    | None => <[key := Single value]> meta
    end.

(** [get_post_meta], on the rows the query returned. *)
Definition get_post_meta (rows : list (text * text)) : gmap text meta_value :=
  fold_left add_meta rows ∅.

(** The values of the rows of [key], in the order of the rows. *)
Definition meta_rows (key : text) (rows : list (text * text)) : list text :=
  map snd (List.filter (fun row => bool_decide (fst row = key)) rows).

(** The dictionary value for the values of a key's rows. *)
Definition pack_meta (vs : list text) : option meta_value :=
  match vs with
  | [] => None
  | [v] => Some (Single v)
  | _ => Some (Several vs)
  end.

(* ===================================================================== *)
(** * scripts/wp_discover.py *)
(* ===================================================================== *)

Definition wp_core_tables : list text :=
  map py [ "posts"; "postmeta"; "options"; "terms"; "term_taxonomy";
           "term_relationships"; "users"; "usermeta"; "comments";
           "commentmeta" ]%string.

(** [s.endswith(suffix)]. *)
Definition ends_with (suffix s : text) : bool := is_prefix (rev suffix) (rev s).

(** [prefixes[prefix] += 1] on a [defaultdict(int)]: the keys stay in the
    order of their first use. *)
Fixpoint bump (prefix : text) (prefixes : list (text * nat)) : list (text * nat) :=
  match prefixes with
  | [] => [(prefix, 1)]
  | (k, n) :: rest =>
    if bool_decide (k = prefix) then (k, S n) :: rest else (k, n) :: bump prefix rest
  end.

(** The body of the inner loop of [detect_prefix]; [table[:-len(core_table)-1]]
    is the table name without its last [len(core_table) + 1] characters. *)
Definition count_table (table : text) (prefixes : list (text * nat)) (core_table : text)
  : list (text * nat) :=
  if ends_with ("_"%char :: core_table) table || ends_with core_table table then
    let prefix :=
      if ends_with ("_"%char :: core_table) table
      then take (length table - length core_table - 1) table ++ py "_"
      else [] in
    bump prefix prefixes
  else prefixes.

Definition count_prefixes (tables : list text) : list (text * nat) :=
  fold_left (fun prefixes table => fold_left (count_table table) wp_core_tables prefixes)
            tables [].

(** [max(items, key=lambda x: x[1])]: the first of the items with the
    greatest count. *)
Fixpoint max_item (best : text * nat) (items : list (text * nat)) : text * nat :=
  match items with
  | [] => best
  | x :: rest => max_item (if snd best <? snd x then x else best) rest
  end.

(** [detect_prefix]. *)
Definition detect_prefix (tables : list text) : option text :=
  match count_prefixes tables with
  | [] => None
  | x :: items => Some (fst (max_item x items))
  end.

(* ===================================================================== *)
(** * Reasoning about patterns: the language of a pattern and what can be
      read off its syntax *)
(* ===================================================================== *)

Module Lang.
Import Re.

(** [matches r w]: the matcher can consume exactly [w] for [r]. *)
Inductive matches : regex -> text -> Prop :=
| M_eps : matches Eps []
| M_cls neg items a :
    cls_mem neg items a = true -> matches (Cls neg items) [a]
| M_seq r1 r2 w1 w2 :
    matches r1 w1 -> matches r2 w2 -> matches (Seq r1 r2) (w1 ++ w2)
| M_grp n r w :
    matches r w -> matches (Grp n r) w
| M_stop g hi r :
    matches (Rep g 0 hi r) []
| M_more g lo hi r w1 w2 :
    hi <> Some 0 -> w1 <> [] ->
    matches r w1 -> matches (Rep g (pred lo) (option_map pred hi) r) w2 ->
    matches (Rep g lo hi r) (w1 ++ w2).

(** Can [r] match the empty text? *)
Fixpoint nullable (r : regex) : bool :=
  match r with
  | Eps => true
  | Cls _ _ => false
  | Seq r1 r2 => nullable r1 && nullable r2
  | Rep _ lo _ _ => lo =? 0
  | Grp _ r1 => nullable r1
  end.

(** Can a match of [r] start with the character [a]? *)
Fixpoint first (r : regex) (a : ascii) : bool :=
  match r with
  | Eps => false
  | Cls neg items => cls_mem neg items a
  | Seq r1 r2 => first r1 a || (nullable r1 && first r2 a)
  | Rep _ _ _ r1 => first r1 a
  | Grp _ r1 => first r1 a
  end.

(** The text of a pattern made of literal characters only. *)
Fixpoint as_lit (r : regex) : option text :=
  match r with
  | Eps => Some []
  | Cls false [IChar c] => Some [c]
  | Seq r1 r2 =>
    match as_lit r1, as_lit r2 with
    | Some w1, Some w2 => Some (w1 ++ w2)
    | _, _ => None
    end
  | _ => None
  end.

(** A text every match of [r] starts with. *)
Fixpoint lit_prefix (r : regex) : text :=
  match r with
  | Cls false [IChar c] => [c]
  | Seq r1 r2 =>
    match as_lit r1 with
    | Some w1 => w1 ++ lit_prefix r2
    | None => lit_prefix r1
    end
  | Grp _ r1 => lit_prefix r1
  | _ => []
  end.

(** Does every match of [r] hold the character [c]? *)
Fixpoint must_have (c : ascii) (r : regex) : bool :=
  match r with
  | Eps => false
  | Cls false [IChar c'] => Ascii.eqb c c'
  | Cls _ _ => false
  | Seq r1 r2 => must_have c r1 || must_have c r2
  | Rep _ lo _ r1 => negb (lo =? 0) && must_have c r1
  | Grp _ r1 => must_have c r1
  end.

(** No repeated subpattern can match the empty text. *)
Fixpoint wf (r : regex) : bool :=
  match r with
  | Eps | Cls _ _ => true
  | Seq r1 r2 => wf r1 && wf r2
  | Rep _ _ _ r1 => negb (nullable r1) && wf r1
  | Grp _ r1 => wf r1
  end.

(** A greedy repetition of a one-character class [p], without the fuel of
    the general matcher. *)
Fixpoint greedy_run (p : ascii -> bool) (lo : nat) (hi : option nat)
    (s : text) (c : captures) (k : cont) : answer :=
  let stop := if lo =? 0 then k s c else None in
  match s with
  | a :: s' =>
    match hi with
    | Some O => stop
    | _ =>
      if p a then
        match greedy_run p (pred lo) (option_map pred hi) s' c k with
        | Some x => Some x
        | None => stop
        end
      else stop
    end
  | [] => stop
  end.

(** A lazy repetition of a one-character class. *)
Fixpoint lazy_run (p : ascii -> bool) (lo : nat) (hi : option nat)
    (s : text) (c : captures) (k : cont) : answer :=
  let again :=
    match s with
    | a :: s' =>
      match hi with
      | Some O => None
      | _ => if p a then lazy_run p (pred lo) (option_map pred hi) s' c k else None
      end
    | [] => None
    end in
  if lo =? 0 then match k s c with Some x => Some x | None => again end
  else again.

End Lang.

Definition rule_regex (ru : rule) : Re.regex :=
  match ru with
  | Tpl r _ => r
  | Fn r _ => r
  end.

(** A template made of literal characters accepted by [p], and a rule with
    such a template. *)
Definition literal_template (p : ascii -> bool) (t : list titem) : bool :=
  forallb (fun i => match i with TLit c => p c | TRef _ => false end) t.

Definition literal_rule (p : ascii -> bool) (ru : rule) : bool :=
  match ru with
  | Tpl _ t => literal_template p t
  | Fn _ _ => false
  end.

Definition is_brace (c : ascii) : bool := Ascii.eqb c "{" || Ascii.eqb c "}".

(** All 256 characters. *)
Definition all_chars : text := map ascii_of_nat (seq 0 256).

(** The ids of the pages the walk of [get_path] moves to from [current],
    at most [n] of them. *)
Fixpoint ancestor_ids (n : nat) (pm : gmap Z page) (current : page) : list Z :=
  match n with
  | O => []
  | S n' =>
    if (0 <? pg_parentId current)%Z then
      match pm !! pg_parentId current with
      | Some parent => pg_parentId current :: ancestor_ids n' pm parent
      | None => []
      end
    else []
  end.

(** The parent links form no cycle: no page of the map is reached again by
    the walk that starts from it. *)
Definition acyclic (pm : gmap Z page) : Prop :=
  map_Forall (fun k q => k ∉ ancestor_ids (size pm) pm q) pm.



(** The percentage the specification gives for the width fraction [a/b]:
    [100 * a / b] rounded to the nearest whole number. *)
Definition spec_round_percent (a b : Z) : Z := ((200 * a + b) / (2 * b))%Z.

(** The text holds a doubled slash after a character other than the
    colon: what the third rule of [convert_internal_links] rewrites. *)
Fixpoint has_dslash (s : text) : bool :=
  match s with
  | [] => false
  | c :: s' =>
    match s' with
    | a :: b :: _ =>
      (negb (Ascii.eqb c ":") && Ascii.eqb a "/" && Ascii.eqb b "/") || has_dslash s'
    | _ => false
    end
  end.

(** The double-precision value of [int((a / b) * 100)]. *)
Definition width_percent (a b : Z) : result Z :=
  q <- Float.true_div a b ;; Float.to_int (Float.mul_int q 100).

(** What [re.sub] does for a pattern [[...]+] and a literal replacement [t]:
    every maximal run of characters of the class [p] becomes [t].  [in_run]
    tells that the previous character belonged to a run. *)
Fixpoint collapse (p : ascii -> bool) (t : text) (in_run : bool) (s : text) : text :=
  match s with
  | [] => []
  | c :: s' =>
    if p c then (if in_run then collapse p t true s' else t ++ collapse p t true s')
    else c :: collapse p t false s'
  end.

(** The characters of a slug: lower-case ASCII letters, digits, the
    underscore and the hyphen. *)
Definition slug_char (c : ascii) : bool :=
  in_range 97 122 c || is_digit c || Ascii.eqb c "_" || Ascii.eqb c "-".

(** Every match of [r] starts with the character [a]. *)
Definition starts_only_with (a : ascii) (r : Re.regex) : bool :=
  negb (Lang.nullable r)
  && forallb (fun c => implb (Lang.first r c) (Ascii.eqb c a)) all_chars.

(** The characters of [s] before the first [d]. *)
Fixpoint take_until (d : ascii) (s : text) : text :=
  match s with
  | [] => []
  | c :: s' => if Ascii.eqb c d then [] else c :: take_until d s'
  end.

(** The destination a button's link value names: at the first place where
    [url:] is followed by a character other than the bar, the characters up
    to the next bar. *)
Fixpoint url_segment (s : text) : option text :=
  let here :=
    if is_prefix (py "url:") s
    then match take_until "|" (skipn 4 s) with
         | [] => None
         | v => Some v
         end
    else None in
  match here with
  | Some v => Some v
  | None =>
    match s with
    | [] => None
    | _ :: s' => url_segment s'
    end
  end.

(** An attribute as it is written in a macro: a space, the name, the value
    in double quotes; nothing for an attribute that is not given. *)
Definition attribute (name : string) (value : option text) : text :=
  match value with
  | Some v => py " " ++ py name ++ py "=`" ++ v ++ py "`"
  | None => []
  end.

(** The button macro with the given [link] and [title] attributes. *)
Definition btn_macro (link title : option text) : text :=
  py "[vc_btn" ++ attribute "link" link ++ attribute "title" title ++ py "]".

(** The link element [convert_button] builds. *)
Definition btn_element (href label : text) : text :=
  py "<a href=`" ++ href ++ py "` class=`btn btn-primary`>" ++ label ++ py "</a>".

(** An attribute value that the simple attribute patterns read back: not
    empty, and without double quote, bracket or ampersand. *)
Definition plain_value (v : text) : Prop :=
  v <> [] /\ Forall (fun c => c <> dquote /\ c <> "["%char /\ c <> "]"%char /\ c <> "&"%char) v.

(** The part of an attribute pattern after the name, the equals sign and the
    opening quote: the value, captured, and the closing quote. *)
Definition value_re : Re.regex :=
  Re.Seq (Re.Grp 1 (Re.Rep true 1 None (Re.Cls true [Re.IChar dquote]))) (Re.Chr dquote).

(** The non-empty suffixes of a text. *)
Fixpoint tails (s : text) : list text :=
  match s with
  | [] => []
  | _ :: s' => s :: tails s'
  end.

(** A text without markup: no angle bracket, square bracket, ampersand or
    brace, and no opening of a comment. *)
Definition markup_free (s : text) : bool :=
  forallb (fun c => negb (existsb (Ascii.eqb c) (py "<[&{}"))) s
  && negb (contains (py "/*") s).

(** A text whose white space is as [html_to_markdown] leaves it: no tab, no
    two spaces in a row, no space next to a newline, no three newlines in a
    row, no white space at either end. *)
Definition tidy (s : text) : bool :=
  forallb (fun c => negb (Ascii.eqb c tab)) s
  && negb (contains (py "  ") s)
  && negb (contains (py "\n ") s)
  && negb (contains (py " \n") s)
  && negb (contains (py "\n\n\n") s)
  && bool_decide (strip s = s).

(** What makes a rule of the pipeline find nothing in a text without
    markup: its pattern needs an angle bracket or a brace, or starts with the
    opening of a comment. *)
Definition needs_markup (ru : rule) : bool :=
  Lang.must_have "<" (rule_regex ru) || Lang.must_have "{" (rule_regex ru)
  || bool_decide (Lang.lit_prefix (rule_regex ru) = py "/*").

(** The column macro with the given [width] and [offset] attributes. *)
Definition column_macro (width offset : option text) : text :=
  py "[vc_column" ++ attribute "width" width ++ attribute "offset" offset ++ py "]".

(** The number a run of decimal digits denotes. *)
Definition numeral_value (ds : text) : N :=
  fold_left (fun acc c => (10 * acc + (code c - 48))%N) ds 0%N.

(** The class an offset attribute adds to a column. *)
Definition offset_class (offset : option text) : text :=
  match offset with
  | Some o => py " " ++ str_replace (py "vc_col-") (py "col-") o
  | None => []
  end.

(** A width that is a fraction: two runs of decimal digits and a slash. *)
Definition fraction (num den : text) : text := num ++ py "/" ++ den.

(* ===================================================================== *)
(** * Properties *)
(* ===================================================================== *)

(** ** The matcher *)

Module MatchFacts.
Import Re Lang.

Lemma rep_S body g lo hi fuel s c k :
  rep body g lo hi (S fuel) s c k =
  let again :=
    match hi with
    | Some O => None
    | _ =>
      body s c (fun s' c' =>
        if length s' <? length s
        then rep body g (pred lo) (option_map pred hi) fuel s' c' k
        else None)
    end in
  let stop := if lo =? 0 then k s c else None in
  if g
  then match again with Some x => Some x | None => stop end
  else match stop with Some x => Some x | None => again end.
Proof. reflexivity. Qed.

Lemma rep_sound r1 :
  (forall s c k x, exec r1 s c k = Some x ->
     exists w s' c', s = w ++ s' /\ matches r1 w /\ k s' c' = Some x) ->
  forall fuel g lo hi s c k x,
    rep (exec r1) g lo hi fuel s c k = Some x ->
    exists w s' c', s = w ++ s' /\ matches (Rep g lo hi r1) w /\ k s' c' = Some x.
Proof.
  intros IH fuel. induction fuel as [|fuel IHf]; intros g lo hi s c k x H; [discriminate|].
  rewrite rep_S in H.
  lazymatch type of H with
  | (let again := ?A in let stop := ?B in _) = _ =>
    assert (Hagain : A = Some x ->
      exists w s' c', s = w ++ s' /\ matches (Rep g lo hi r1) w /\ k s' c' = Some x);
    [|assert (Hstop : B = Some x ->
      exists w s' c', s = w ++ s' /\ matches (Rep g lo hi r1) w /\ k s' c' = Some x)]
  end.
  - intros Ha.
    assert (Hhi : hi <> Some 0) by (destruct hi as [[|?]|]; congruence).
    assert (He : exec r1 s c (fun s' c' =>
             if length s' <? length s
             then rep (exec r1) g (pred lo) (option_map pred hi) fuel s' c' k
             else None) = Some x) by (destruct hi as [[|?]|]; congruence).
    apply IH in He as (w1 & s1 & c1 & -> & Hm1 & Hk).
    destruct (Nat.ltb_spec (length s1) (length (w1 ++ s1))) as [Hlt|]; [|discriminate].
    apply IHf in Hk as (w2 & s2 & c2 & -> & Hm2 & Hk).
    exists (w1 ++ w2), s2, c2. split; [by rewrite <- app_assoc|]. split; [|done].
    apply M_more; try done. intros ->. simpl in Hlt. lia.
  - destruct (Nat.eqb_spec lo 0) as [->|]; [|discriminate].
    intros Hk. exists [], s, c. split; [done|]. split; [apply M_stop|done].
  - cbv zeta in H. destruct g.
    + match type of H with match ?a with _ => _ end = _ => destruct a eqn:E end.
      * apply Hagain. rewrite <- H. reflexivity.
      * apply Hstop. exact H.
    + match type of H with match ?a with _ => _ end = _ => destruct a eqn:E end.
      * apply Hstop. rewrite <- H. reflexivity.
      * apply Hagain. exact H.
Qed.

(** Soundness of the matcher: a successful run has consumed a word of the
    pattern and handed the rest to its continuation. *)
Lemma exec_sound r :
  forall s c k x, exec r s c k = Some x ->
    exists w s' c', s = w ++ s' /\ matches r w /\ k s' c' = Some x.
Proof.
  induction r as [|neg items|r1 IH1 r2 IH2|g lo hi r1 IH1|n r1 IH1]; intros s c k x H; cbn [exec] in H.
  - exists [], s, c. split; [done|]. split; [constructor|done].
  - destruct s as [|a s']; [discriminate|].
    destruct (cls_mem neg items a) eqn:E; [|discriminate].
    exists [a], s', c. split; [done|]. split; [by constructor|done].
  - apply IH1 in H as (w1 & s1 & c1 & -> & Hm1 & H).
    apply IH2 in H as (w2 & s2 & c2 & -> & Hm2 & H).
    exists (w1 ++ w2), s2, c2. split; [by rewrite <- app_assoc|]. split; [by constructor|done].
  - eapply rep_sound; eauto.
  - apply IH1 in H as (w1 & s1 & c1 & -> & Hm1 & H).
    eexists w1, s1, _. split; [done|]. split; [by constructor|exact H].
Qed.

Lemma cls_mem_chr a c : cls_mem false [IChar c] a = true <-> a = c.
Proof.
  unfold cls_mem. simpl. rewrite orb_false_r. apply Ascii.eqb_eq.
Qed.

Lemma matches_nullable r w : matches r w -> w = [] -> nullable r = true.
Proof.
  induction 1 as [|neg items a Ha|r1 r2 w1 w2 _ IH1 _ IH2|n r w _ IH|g hi r
                 |g lo hi r w1 w2 Hhi Hne _ _ _ _]; intros Hw; simpl; try done.
  - apply app_eq_nil in Hw as [-> ->]. by rewrite IH1, IH2.
  - by apply IH.
  - apply app_eq_nil in Hw as [-> _]. done.
Qed.

Lemma matches_first r w :
  matches r w -> forall a w', w = a :: w' -> first r a = true.
Proof.
  induction 1 as [|neg items b Hb|r1 r2 w1 w2 H1 IH1 _ IH2|n r w _ IH|g hi r
                 |g lo hi r w1 w2 Hhi Hne _ IH1 _ _]; intros a w' Hw; simpl; try done.
  - by injection Hw as -> _.
  - destruct w1 as [|b w1].
    + simpl in Hw. rewrite (matches_nullable _ _ H1 eq_refl), (IH2 _ _ Hw).
      simpl. apply orb_true_r.
    + injection Hw as -> _. by rewrite (IH1 _ _ eq_refl).
  - by eapply IH.
  - destruct w1 as [|b w1]; [done|]. injection Hw as -> _. by eapply IH1.
Qed.

Lemma as_lit_matches r : forall l w, as_lit r = Some l -> matches r w -> w = l.
Proof.
  induction r as [|neg items|r1 IH1 r2 IH2|g lo hi r1 IH1|n r1 IH1]; intros l w Hl Hm; simpl in Hl.
  - inversion Hm; congruence.
  - destruct neg; [done|]. destruct items as [|[c| | | |] [|? ?]]; try done.
    injection Hl as <-. inversion Hm as [|? ? a Ha| | | |]; subst.
    apply cls_mem_chr in Ha. by subst.
  - destruct (as_lit r1) as [l1|] eqn:E1; [|done].
    destruct (as_lit r2) as [l2|] eqn:E2; [|done].
    injection Hl as <-. inversion Hm; subst.
    f_equal; [by apply IH1|by apply IH2].
  - done.
  - done.
Qed.

(** Every match starts with the literal prefix of its pattern. *)
Lemma matches_lit_prefix r w : matches r w -> exists k, w = lit_prefix r ++ k.
Proof.
  induction 1 as [|neg items b Hb|r1 r2 w1 w2 H1 IH1 _ IH2|n r w _ IH|g hi r
                 |g lo hi r w1 w2 Hhi Hne _ _ _ _]; simpl; try by eexists.
  - destruct neg; [by eexists|]. destruct items as [|[c| | | |] [|? ?]]; try by eexists.
    apply cls_mem_chr in Hb as ->. by exists [].
  - destruct (as_lit r1) as [l1|] eqn:E1.
    + rewrite (as_lit_matches _ _ _ E1 H1). destruct IH2 as [k ->].
      exists k. by rewrite app_assoc.
    + destruct IH1 as [k ->]. exists (k ++ w2). by rewrite app_assoc.
  - exact IH.
Qed.

(** Every match holds the characters its pattern must have. *)
Lemma matches_must_have c r w : matches r w -> must_have c r = true -> In c w.
Proof.
  induction 1 as [|neg items b Hb|r1 r2 w1 w2 _ IH1 _ IH2|n r w _ IH|g hi r
                 |g lo hi r w1 w2 Hhi Hne _ IH1 _ _]; simpl; intros Hc; try done.
  - destruct neg; [done|]. destruct items as [|[c'| | | |] [|? ?]]; try done.
    apply cls_mem_chr in Hb as ->. apply Ascii.eqb_eq in Hc. by left.
  - apply in_or_app. apply orb_true_iff in Hc as [Hc|Hc]; [left; by apply IH1|right; by apply IH2].
  - by apply IH.
  - apply andb_true_iff in Hc as [_ Hc]. apply in_or_app. left. by apply IH1.
Qed.

Lemma match_here_sound r b s rest c :
  match_here r b s = Some (rest, c) ->
  exists w, s = w ++ rest /\ matches r w /\ (b = true -> w <> []).
Proof.
  unfold match_here. intros H.
  apply exec_sound in H as (w & s' & c' & -> & Hm & Hk).
  destruct b; simpl in Hk.
  - destruct (Nat.eqb_spec (length s') (length (w ++ s'))) as [|Hne]; [done|].
    injection Hk as <- <-. exists w. split; [done|]. split; [done|].
    intros _ ->. by apply Hne.
  - injection Hk as <- <-. exists w. done.
Qed.

Lemma is_prefix_app p k : is_prefix p (p ++ k) = true.
Proof. induction p as [|a p IH]; simpl; [done|]. by rewrite Ascii.eqb_refl, IH. Qed.

Lemma is_prefix_spec p s : is_prefix p s = true <-> exists k, s = p ++ k.
Proof.
  split.
  - revert s. induction p as [|a p IH]; intros s H; [by exists s|].
    destruct s as [|b s]; [done|]. simpl in H.
    apply andb_true_iff in H as [Hab H]. apply Ascii.eqb_eq in Hab as ->.
    destruct (IH _ H) as [k ->]. by exists k.
  - intros [k ->]. apply is_prefix_app.
Qed.

(** Three ways to see from the syntax that a pattern does not match here. *)
Lemma no_match_nil r b : nullable r = false -> match_here r b [] = None.
Proof.
  intros Hn. destruct (match_here r b []) as [[rest c]|] eqn:E; [|done].
  apply match_here_sound in E as (w & Hw & Hm & _).
  symmetry in Hw. apply app_eq_nil in Hw as [-> _].
  apply matches_nullable in Hm; [congruence|done].
Qed.

Lemma no_match_first r b a s :
  nullable r = false -> first r a = false -> match_here r b (a :: s) = None.
Proof.
  intros Hn Hf. destruct (match_here r b (a :: s)) as [[rest c]|] eqn:E; [|done].
  apply match_here_sound in E as (w & Hw & Hm & _).
  destruct w as [|a' w].
  - apply matches_nullable in Hm; [congruence|done].
  - injection Hw as <- _. eapply matches_first in Hm; [|done]. congruence.
Qed.

Lemma no_match_prefix r b s :
  is_prefix (lit_prefix r) s = false -> match_here r b s = None.
Proof.
  intros Hp. destruct (match_here r b s) as [[rest c]|] eqn:E; [|done].
  apply match_here_sound in E as (w & -> & Hm & _).
  apply matches_lit_prefix in Hm as [k ->].
  rewrite <- app_assoc, is_prefix_app in Hp. done.
Qed.

Lemma no_match_must_have c r b s :
  must_have c r = true -> ~ In c s -> match_here r b s = None.
Proof.
  intros Hc Hs. destruct (match_here r b s) as [[rest c']|] eqn:E; [|done].
  apply match_here_sound in E as (w & -> & Hm & _).
  exfalso. apply Hs, in_or_app. left. eapply matches_must_have; eauto.
Qed.

(** ** [re.sub]: the scan *)

(** The fuel of the scan is never exhausted. *)
Lemma scan_loop_irrel r f1 : forall f2 (b : bool) (s : text),
  2 * length s + (if b then 0 else 1) < f1 ->
  2 * length s + (if b then 0 else 1) < f2 ->
  scan_loop f1 r b s = scan_loop f2 r b s.
Proof.
  induction f1 as [|f1 IH]; intros f2 b s H1 H2; [lia|].
  destruct f2 as [|f2]; [lia|]. simpl.
  destruct (match_here r b s) as [[rest c]|] eqn:E.
  - f_equal. apply match_here_sound in E as (w & -> & _ & Hb).
    rewrite length_app in *.
    destruct (Nat.eqb_spec (length rest) (length w + length rest)) as [He|He].
    + destruct b; [|apply IH; lia].
      destruct w; [exfalso; by apply Hb|simpl in He; lia].
    + apply IH; destruct b; lia.
  - destruct s as [|a s']; [done|]. f_equal. simpl in *. apply IH; destruct b; lia.
Qed.

Lemma scan_nil r : nullable r = false -> scan r [] = [].
Proof. intros Hn. unfold scan. simpl. by rewrite no_match_nil. Qed.

Lemma scan_gap r a s :
  match_here r false (a :: s) = None -> scan r (a :: s) = Gap a :: scan r s.
Proof.
  intros H. unfold scan. cbn [scan_loop length Nat.mul Nat.add].
  replace (2 * length (a :: s) + 2) with (S (2 * length s + 3)) by (simpl; lia).
  cbn [scan_loop]. rewrite H. f_equal. apply scan_loop_irrel; lia.
Qed.

Lemma scan_hit r s rest c :
  match_here r false s = Some (rest, c) -> length rest < length s ->
  scan r s = Hit (match_of s rest c) :: scan r rest.
Proof.
  intros H Hlt. unfold scan.
  replace (2 * length s + 2) with (S (2 * length s + 1)) by lia.
  cbn [scan_loop]. rewrite H. f_equal.
  destruct (Nat.eqb_spec (length rest) (length s)); [lia|].
  apply scan_loop_irrel; lia.
Qed.

(** Where the pattern matches at no position, the scan finds only gaps. *)
Lemma scan_no_match r s :
  (forall t, t `suffix_of` s -> match_here r false t = None) ->
  scan r s = map Gap s.
Proof.
  induction s as [|a s IH]; intros H.
  - unfold scan. simpl. by rewrite H.
  - rewrite scan_gap by (by apply H). simpl. f_equal. apply IH.
    intros t Ht. apply H. by apply suffix_cons_r.
Qed.

Lemma render_gaps f s : flat_map (render f) (map Gap s) = s.
Proof. induction s as [|a s IH]; simpl; [done|]. by rewrite IH. Qed.

Lemma render_try_gaps f s : render_try f (map Gap s) = OK s.
Proof. induction s as [|a s IH]; simpl; [done|]. by rewrite IH. Qed.

Lemma sub_fn_nil r f : nullable r = false -> sub_fn r f [] = [].
Proof. intros Hn. unfold sub_fn. by rewrite scan_nil. Qed.

Lemma sub_fn_gap r f a s :
  match_here r false (a :: s) = None -> sub_fn r f (a :: s) = a :: sub_fn r f s.
Proof. intros H. unfold sub_fn. by rewrite scan_gap. Qed.

Lemma sub_fn_hit r f s rest c :
  match_here r false s = Some (rest, c) -> length rest < length s ->
  sub_fn r f s = f (match_of s rest c) ++ sub_fn r f rest.
Proof. intros H Hlt. unfold sub_fn. by rewrite (scan_hit _ _ _ _ H Hlt). Qed.

(** The characters between the matches are characters of the subject. *)
Lemma scan_loop_gaps (P : ascii -> Prop) r fuel : forall b s,
  Forall P s ->
  Forall (fun p => match p with Gap c => P c | Hit _ => True end) (scan_loop fuel r b s).
Proof.
  induction fuel as [|fuel IH]; intros b s Hs; simpl.
  - induction Hs; simpl; by constructor.
  - destruct (match_here r b s) as [[rest c]|] eqn:E.
    + constructor; [done|]. apply IH.
      apply match_here_sound in E as (w & -> & _). by apply Forall_app in Hs as [_ ?].
    + destruct Hs; constructor; [done|]. by apply IH.
Qed.

(** A property of characters that holds of the subject and of every
    replacement holds of the result of [re.sub]. *)
Lemma sub_fn_Forall (P : ascii -> Prop) r f s :
  Forall P s -> (forall m, Forall P (f m)) -> Forall P (sub_fn r f s).
Proof.
  intros Hs Hf. unfold sub_fn, scan.
  pose proof (scan_loop_gaps P r (2 * length s + 2) false s Hs) as H.
  induction H as [|p ps Hp _ IH]; simpl; [constructor|].
  apply Forall_app. split; [|done].
  destruct p; simpl; [by constructor|apply Hf].
Qed.

(** ** Running the matcher on a text that is known only in part *)

Lemma exec_Seq r1 r2 s c k :
  exec (Seq r1 r2) s c k = exec r1 s c (fun s' c' => exec r2 s' c' k).
Proof. reflexivity. Qed.

Lemma exec_Grp n r1 s c k :
  exec (Grp n r1) s c k =
  exec r1 s c (fun s' c' => k s' ((n, take (length s - length s') s) :: c')).
Proof. reflexivity. Qed.

Lemma exec_Cls_cons neg items a s c k :
  exec (Cls neg items) (a :: s) c k = if cls_mem neg items a then k s c else None.
Proof. reflexivity. Qed.

Lemma exec_Cls_nil neg items c k : exec (Cls neg items) [] c k = None.
Proof. reflexivity. Qed.

Lemma exec_Eps s c k : exec Eps s c k = k s c.
Proof. reflexivity. Qed.


(** A greedy repetition of a class is its run. *)
Lemma rep_greedy_run neg items k : forall s fuel lo hi c,
  length s < fuel ->
  rep (exec (Cls neg items)) true lo hi fuel s c k
  = greedy_run (cls_mem neg items) lo hi s c k.
Proof.
  induction s as [|a s IH]; intros fuel lo hi c Hf;
    (destruct fuel as [|fuel]; [simpl in Hf; lia|]); rewrite rep_S; cbv zeta.
  - simpl. by destruct hi as [[|?]|].
  - rewrite exec_Cls_cons. simpl length.
    destruct (Nat.ltb_spec (length s) (S (length s))) as [_|]; [|lia].
    cbn [greedy_run]. destruct hi as [[|n]|]; try done.
    + destruct (cls_mem neg items a); [|done].
      rewrite IH by (simpl in Hf; lia). done.
    + destruct (cls_mem neg items a); [|done].
      rewrite IH by (simpl in Hf; lia). done.
Qed.

Lemma exec_Rep_greedy neg items lo hi s c k :
  exec (Rep true lo hi (Cls neg items)) s c k
  = greedy_run (cls_mem neg items) lo hi s c k.
Proof. cbn [exec]. apply rep_greedy_run. lia. Qed.

Lemma rep_lazy_run neg items k : forall s fuel lo hi c,
  length s < fuel ->
  rep (exec (Cls neg items)) false lo hi fuel s c k
  = lazy_run (cls_mem neg items) lo hi s c k.
Proof.
  induction s as [|a s IH]; intros fuel lo hi c Hf;
    (destruct fuel as [|fuel]; [simpl in Hf; lia|]); rewrite rep_S; cbv zeta.
  - simpl. destruct (lo =? 0); destruct hi as [[|?]|]; done.
  - rewrite exec_Cls_cons. simpl length.
    destruct (Nat.ltb_spec (length s) (S (length s))) as [_|]; [|lia].
    cbn [lazy_run].
    assert (Hi : forall c', rep (exec (Cls neg items)) false (pred lo) (option_map pred hi) fuel s c' k
              = lazy_run (cls_mem neg items) (pred lo) (option_map pred hi) s c' k)
      by (intros; apply IH; simpl in Hf; lia).
    destruct hi as [[|n]|]; destruct (cls_mem neg items a); rewrite ?Hi;
      destruct (lo =? 0); try done; by destruct (k (a :: s) c).
Qed.

Lemma exec_Rep_lazy neg items lo hi s c k :
  exec (Rep false lo hi (Cls neg items)) s c k
  = lazy_run (cls_mem neg items) lo hi s c k.
Proof. cbn [exec]. apply rep_lazy_run. lia. Qed.

(** The head of a text does not belong to the class [p] (or there is no
    head). *)
Definition stops (p : ascii -> bool) (s : text) : Prop :=
  match s with
  | [] => True
  | a :: _ => p a = false
  end.

(** A greedy run first takes every character of the class; when the rest of
    the pattern matches from there, that is the match. *)
Lemma greedy_run_app p k x : forall X lo s c,
  Forall (fun a => p a = true) X -> stops p s -> lo <= length X ->
  k s c = Some x ->
  greedy_run p lo None (X ++ s) c k = Some x.
Proof.
  induction X as [|b X IH]; intros lo s c HX Hs Hlo Hk.
  - simpl in Hlo. assert (lo = 0) as -> by lia. simpl.
    destruct s as [|a s]; simpl; [done|]. simpl in Hs. by rewrite Hs.
  - apply Forall_cons in HX as [Hb HX]. simpl. rewrite Hb.
    rewrite (IH (pred lo) s c); [done|done|done| |done]. simpl in Hlo. lia.
Qed.


Lemma search_hit r s rest c :
  match_here r false s = Some (rest, c) -> search r s = Some (match_of s rest c).
Proof. intros H. destruct s; simpl; by rewrite H. Qed.

Lemma search_skip r a s :
  match_here r false (a :: s) = None -> search r (a :: s) = search r s.
Proof. intros H. simpl. by rewrite H. Qed.

Lemma search_none r s :
  (forall t, t `suffix_of` s -> match_here r false t = None) -> search r s = None.
Proof.
  induction s as [|a s IH]; intros H.
  - simpl. by rewrite H.
  - rewrite search_skip by (by apply H). apply IH.
    intros t Ht. apply H. by apply suffix_cons_r.
Qed.

(** No character of the text can start a match. *)
Lemma no_match_anywhere r s :
  nullable r = false -> Forall (fun a => first r a = false) s ->
  forall t, t `suffix_of` s -> match_here r false t = None.
Proof.
  intros Hn Hs t [k ->]. apply Forall_app in Hs as [_ Ht].
  destruct Ht; [by apply no_match_nil|by apply no_match_first].
Qed.

Lemma take_app_rest (w s : text) : take (length (w ++ s) - length s) (w ++ s) = w.
Proof.
  rewrite length_app. replace (length w + length s - length s) with (length w) by lia.
  by rewrite take_app_length.
Qed.

End MatchFacts.

(** ** Python string methods *)

Module StrFacts.

Lemma replace_loop_Forall (P : ascii -> Prop) old new : forall s skip,
  Forall P s -> Forall P new -> Forall P (replace_loop old new skip s).
Proof.
  induction s as [|a s IH]; intros skip Hs Hn; simpl; [constructor|].
  apply Forall_cons in Hs as [Ha Hs].
  destruct skip; [|by apply IH].
  destruct (is_prefix old (a :: s)).
  - apply Forall_app. split; [done|by apply IH].
  - constructor; [done|by apply IH].
Qed.

Lemma str_replace_Forall (P : ascii -> Prop) old new s :
  Forall P s -> Forall P new -> Forall P (str_replace old new s).
Proof.
  intros Hs Hn. destruct old as [|o old]; simpl.
  - apply Forall_app. split; [done|].
    induction Hs; simpl; [constructor|]. constructor; [done|]. by apply Forall_app.
  - by apply replace_loop_Forall.
Qed.

(** Replacing a character by a text without it removes the character. *)
Lemma str_replace_char_absent c new s :
  ~ In c new -> ~ In c (str_replace [c] new s).
Proof.
  intros Hn. unfold str_replace.
  induction s as [|a s IH]; simpl; [tauto|].
  destruct (Ascii.eqb_spec c a) as [->|Hne]; simpl.
  - intros H. apply in_app_or in H as [H|H]; [by apply Hn|by apply IH].
  - intros [H|H]; [by apply Hne|by apply IH].
Qed.

Lemma drop_while_suffix p s : drop_while p s `suffix_of` s.
Proof.
  induction s as [|a s IH]; simpl; [done|].
  destruct (p a); [by apply suffix_cons_r|done].
Qed.

Lemma drop_while_Forall (P : ascii -> Prop) p s :
  Forall P s -> Forall P (drop_while p s).
Proof.
  intros Hs. destruct (drop_while_suffix p s) as [k Hk].
  rewrite Hk in Hs. by apply Forall_app in Hs as [_ ?].
Qed.

Lemma strip_with_Forall (P : ascii -> Prop) p s :
  Forall P s -> Forall P (strip_with p s).
Proof.
  intros Hs. unfold strip_with.
  apply Forall_rev, drop_while_Forall, Forall_rev, drop_while_Forall, Hs.
Qed.

Lemma Forall_not_In (c : ascii) (s : text) : Forall (fun a => a <> c) s <-> ~ In c s.
Proof.
  rewrite Forall_forall. split.
  - intros H Hin. apply (H c); [by apply list_elem_of_In|done].
  - intros H a Ha ->. by apply H, list_elem_of_In.
Qed.

End StrFacts.

(** ** Rules *)

Module RuleFacts.
Import MatchFacts StrFacts.

Lemma expand_literal p t m :
  literal_template p t = true -> Forall (fun c => p c = true) (expand t m).
Proof.
  unfold expand, literal_template. induction t as [|i t IH]; simpl; [constructor|].
  intros H. apply andb_true_iff in H as [Hi Ht].
  apply Forall_app. split; [|by apply IH]. destruct i; [by repeat constructor|done].
Qed.

(** Rules whose replacements are literal texts over [p] keep a text over
    [p]. *)
Lemma apply_rules_Forall p rules : forall s,
  forallb (literal_rule p) rules = true ->
  Forall (fun c => p c = true) s -> Forall (fun c => p c = true) (apply_rules rules s).
Proof.
  unfold apply_rules. induction rules as [|ru rules IH]; intros s Hr Hs; simpl; [done|].
  simpl in Hr. apply andb_true_iff in Hr as [Hru Hr]. apply IH; [done|].
  destruct ru as [r t|r f]; simpl in *; [|done].
  apply sub_fn_Forall; [done|]. intros m. by apply expand_literal.
Qed.

End RuleFacts.

(** ** The transformation pipeline *)

Section TransformFacts.
Import MatchFacts StrFacts RuleFacts.

Variable html_unescape : text -> text.

Let brace_free (s : text) : Prop := Forall (fun c => negb (is_brace c) = true) s.

Lemma brace_free_spec s : brace_free s <-> ~ In "{"%char s /\ ~ In "}"%char s.
Proof.
  unfold brace_free. rewrite Forall_forall. split.
  - intros H. split; intros Hin; apply list_elem_of_In in Hin; by apply H in Hin.
  - intros [H1 H2] c Hc. apply list_elem_of_In in Hc. unfold is_brace.
    destruct (Ascii.eqb_spec c "{") as [->|]; [done|].
    destruct (Ascii.eqb_spec c "}") as [->|]; done.
Qed.

Lemma escape_braces_brace_free s : brace_free (escape_braces s).
Proof.
  apply brace_free_spec. unfold escape_braces. split.
  - apply Forall_not_In, str_replace_Forall.
    + apply Forall_not_In. change (py "{") with ["{"%char].
      apply str_replace_char_absent. vm_compute. intuition discriminate.
    + vm_compute. repeat constructor; discriminate.
  - change (py "}") with ["}"%char].
    apply str_replace_char_absent. vm_compute. intuition discriminate.
Qed.

Lemma html_to_markdown_brace_free s : brace_free (html_to_markdown html_unescape s).
Proof.
  unfold html_to_markdown. destruct s as [|a s]; [constructor|].
  apply strip_with_Forall, apply_rules_Forall; [by vm_compute|].
  apply escape_braces_brace_free.
Qed.

Lemma transform_content_brace_free s base reg out :
  snd (transform_content html_unescape s base reg) = OK out -> brace_free out.
Proof.
  unfold transform_content. destruct s as [|a s].
  - simpl. intros [= <-]. constructor.
  - destruct (convert_vc_shortcodes _ _ _) as [reg' [content|e]]; simpl; [|done].
    intros [= <-]. apply strip_with_Forall, sub_fn_Forall.
    + apply html_to_markdown_brace_free.
    + intros m. by apply expand_literal.
Qed.

End TransformFacts.

(** ** Deciding a property of characters by trying all of them *)

Module CharFacts.

Lemma all_chars_complete a : In a all_chars.
Proof.
  unfold all_chars. apply in_map_iff. exists (nat_of_ascii a). split.
  - apply ascii_nat_embedding.
  - apply in_seq. pose proof (nat_ascii_bounded a). lia.
Qed.

Lemma forall_chars (p : ascii -> bool) :
  forallb p all_chars = true -> forall a, p a = true.
Proof.
  intros H a. rewrite forallb_forall in H. apply H, all_chars_complete.
Qed.

End CharFacts.

(** Replace the patterns of the goal by their syntax trees. *)
Ltac reify_re :=
  repeat match goal with
  | |- context [re ?p] =>
    let r := eval vm_compute in (re p) in change (re p) with r
  | |- context [re_s ?p] =>
    let r := eval vm_compute in (re_s p) in change (re_s p) with r
  end.

(** ** The first pass of [convert_vc_shortcodes] *)

Module TrackFacts.
Import Re Lang MatchFacts CharFacts.



Lemma track_fold_gaps s reg : fold_left track_piece (map Gap s) reg = reg.
Proof. induction s as [|a s IH]; simpl; done. Qed.



End TrackFacts.

(** ** The page hierarchy *)

Module HierarchyFacts.

Lemma walk_mono pm : forall n m path p x,
  walk n pm path p = Some x -> n <= m -> walk m pm path p = Some x.
Proof.
  induction n as [|n IH]; intros m path p x H Hle; [done|].
  destruct m as [|m]; [lia|]. simpl in *.
  destruct (0 <? pg_parentId p)%Z; [|done].
  destruct (pm !! pg_parentId p) as [parent|]; [|done].
  apply IH; [done|lia].
Qed.

(** A walk that is still running after [n] iterations has visited [n]
    pages. *)
Lemma walk_none pm : forall n path p,
  walk (S n) pm path p = None -> length (ancestor_ids n pm p) = n.
Proof.
  induction n as [|n IH]; intros path p H; [done|].
  cbn [walk] in H. cbn [ancestor_ids].
  destruct (0 <? pg_parentId p)%Z; [|done].
  destruct (pm !! pg_parentId p) as [parent|]; [|done].
  simpl. f_equal. by eapply IH.
Qed.

Lemma ancestor_ids_dom pm : forall n p k,
  k ∈ ancestor_ids n pm p -> k ∈ dom pm.
Proof.
  induction n as [|n IH]; intros p k Hk; simpl in Hk; [by apply elem_of_nil in Hk|].
  destruct (0 <? pg_parentId p)%Z; [|by apply elem_of_nil in Hk].
  destruct (pm !! pg_parentId p) as [parent|] eqn:E; [|by apply elem_of_nil in Hk].
  apply elem_of_cons in Hk as [->|Hk]; [|by eapply IH].
  apply elem_of_dom. by eexists.
Qed.

Lemma ancestor_ids_prefix pm : forall n m p,
  n <= m -> ancestor_ids n pm p `prefix_of` ancestor_ids m pm p.
Proof.
  induction n as [|n IH]; intros m p Hle; [apply prefix_nil|].
  destruct m as [|m]; [lia|]. simpl.
  destruct (0 <? pg_parentId p)%Z; [|done].
  destruct (pm !! pg_parentId p) as [parent|]; [|done].
  apply prefix_cons, IH. lia.
Qed.

(** Without a cycle the walk never visits a page twice. *)
Lemma acyclic_NoDup pm : acyclic pm -> forall n p,
  n <= S (size pm) -> NoDup (ancestor_ids n pm p).
Proof.
  intros Hac. induction n as [|n IH]; intros p Hn; [constructor|].
  simpl. destruct (0 <? pg_parentId p)%Z; [|constructor].
  destruct (pm !! pg_parentId p) as [parent|] eqn:E; [|constructor].
  constructor; [|apply IH; lia].
  intros Hin. apply (Hac _ _ E).
  destruct (ancestor_ids_prefix pm n (size pm) parent ltac:(lia)) as [k ->].
  apply elem_of_app. by left.
Qed.

(** Without a cycle the walk ends within [size pm + 2] iterations. *)
Lemma walk_terminates pm path p :
  acyclic pm -> exists x, walk (S (S (size pm))) pm path p = Some x.
Proof.
  intros Hac. destruct (walk (S (S (size pm))) pm path p) as [x|] eqn:E; [by exists x|].
  exfalso. apply walk_none in E.
  pose proof (acyclic_NoDup pm Hac (S (size pm)) p ltac:(lia)) as Hnd.
  assert (Hsub : list_to_set (C := gset Z) (ancestor_ids (S (size pm)) pm p) ⊆ dom pm).
  { intros k Hk. apply elem_of_list_to_set in Hk. by eapply ancestor_ids_dom. }
  apply subseteq_size in Hsub.
  rewrite size_list_to_set, size_dom, E in Hsub by done. lia.
Qed.

Lemma page_map_size pages : size (page_map pages) <= length pages.
Proof.
  unfold page_map.
  assert (H : forall (m : gmap Z page),
             size (fold_left (fun m p => <[pg_id p := p]> m) pages m) <= size m + length pages).
  { induction pages as [|p pages IH]; intros m; simpl; [lia|].
    etrans; [apply IH|].
    destruct (m !! pg_id p) eqn:E.
    - rewrite map_size_insert_Some by done. lia.
    - rewrite map_size_insert_None by done. lia. }
  specialize (H ∅). by rewrite map_size_empty in H.
Qed.

Lemma build_loop_terminates fuel pm pages : forall h,
  acyclic pm -> S (S (size pm)) <= fuel ->
  exists h', build_loop fuel pm pages h = Some h'.
Proof.
  induction pages as [|p pages IH]; intros h Hac Hf; simpl; [by eexists|].
  unfold get_path.
  destruct (walk_terminates pm [pg_slug p] p Hac) as [x Hx].
  rewrite (walk_mono _ _ fuel _ _ _ Hx Hf). simpl. by apply IH.
Qed.

(** On a page that is its own parent the walk runs out of any fuel. *)
Lemma walk_self_parent (p : page) pm :
  (0 < pg_parentId p)%Z -> pm !! pg_parentId p = Some p ->
  forall fuel path, walk fuel pm path p = None.
Proof.
  intros Hpos Hp. induction fuel as [|fuel IH]; intros path; [done|].
  simpl. destruct (Z.ltb_spec 0 (pg_parentId p)); [|lia]. rewrite Hp. apply IH.
Qed.

End HierarchyFacts.

(** ** The registry over a batch *)

Module BatchFacts.
Import TrackFacts.



Section WithUnescape.
Variable html_unescape : text -> text.



Variable now : text.



Variable set_order : gset text -> list text.


End WithUnescape.



End BatchFacts.

(** ** [re.sub] for a class and for a repeated class *)

Module SubFacts.
Import Re Lang MatchFacts StrFacts.

(** [re.sub] for a pattern that is one class: every character of the class
    is replaced. *)
Lemma sub_fn_class neg items f s :
  sub_fn (Cls neg items) f s
  = flat_map (fun c => if cls_mem neg items c then f (MatchObj [c] []) else [c]) s.
Proof.
  induction s as [|c s IH]; [by apply sub_fn_nil|].
  cbn [flat_map]. destruct (cls_mem neg items c) eqn:E.
  - rewrite (sub_fn_hit _ _ (c :: s) s []).
    + rewrite IH. unfold match_of. simpl length.
      replace (S (length s) - length s) with 1 by lia. done.
    + unfold match_here. rewrite exec_Cls_cons, E. done.
    + simpl. lia.
  - rewrite sub_fn_gap, IH; [done|].
    unfold match_here. by rewrite exec_Cls_cons, E.
Qed.

Lemma drop_while_split p s :
  exists k, s = k ++ drop_while p s
            /\ Forall (fun a => p a = true) k /\ stops p (drop_while p s).
Proof.
  induction s as [|a s (k & Hk & Hall & Hstop)]; [by exists []|].
  simpl. destruct (p a) eqn:E.
  - exists (a :: k). split; [by rewrite Hk at 1|]. split; [by constructor|done].
  - exists []. split; [done|]. split; [constructor|done].
Qed.

Lemma drop_while_length p s : length (drop_while p s) <= length s.
Proof.
  destruct (drop_while_suffix p s) as [k Hk]. rewrite Hk at 2. rewrite length_app. lia.
Qed.

(** The match of [[...]+] at a character of the class ends where the run
    ends. *)
Lemma plus_match_here neg items c s :
  match_here (Rep true 1 None (Cls neg items)) false (c :: s)
  = if cls_mem neg items c
    then Some (drop_while (cls_mem neg items) s, [])
    else None.
Proof.
  unfold match_here. rewrite exec_Rep_greedy.
  destruct (cls_mem neg items c) eqn:E.
  - destruct (drop_while_split (cls_mem neg items) s) as (k & Hk & Hall & Hstop).
    rewrite Hk at 1. change (c :: k ++ ?r) with ((c :: k) ++ r).
    apply greedy_run_app; [by constructor|done|simpl; lia|done].
  - simpl. by rewrite E.
Qed.

Lemma collapse_in_run p t s :
  collapse p t true s = collapse p t false (drop_while p s).
Proof.
  induction s as [|c s IH]; [done|]. simpl. destruct (p c) eqn:E; [done|].
  simpl. by rewrite E.
Qed.

Lemma sub_fn_plus_len neg items t n : forall s,
  length s <= n ->
  sub_fn (Rep true 1 None (Cls neg items)) (fun _ => t) s
  = collapse (cls_mem neg items) t false s.
Proof.
  induction n as [|n IH]; intros s Hn.
  - destruct s; [by apply sub_fn_nil|simpl in Hn; lia].
  - destruct s as [|c s]; [by apply sub_fn_nil|]. simpl in Hn.
    pose proof (plus_match_here neg items c s) as Hm. cbn [collapse].
    destruct (cls_mem neg items c) eqn:E.
    + rewrite (sub_fn_hit _ _ _ _ _ Hm).
      * rewrite IH, collapse_in_run; [done|].
        pose proof (drop_while_length (cls_mem neg items) s). lia.
      * pose proof (drop_while_length (cls_mem neg items) s). simpl. lia.
    + rewrite sub_fn_gap by done. rewrite IH by lia. done.
Qed.

(** [re.sub] for a pattern [[...]+] and a literal replacement collapses the
    runs of the class. *)
Lemma sub_fn_plus neg items t s :
  sub_fn (Rep true 1 None (Cls neg items)) (fun _ => t) s
  = collapse (cls_mem neg items) t false s.
Proof. by apply (sub_fn_plus_len _ _ _ (length s)). Qed.

Lemma collapse_Forall (Q : ascii -> Prop) p t : forall s b,
  Forall Q t -> Forall (fun c => p c = false -> Q c) s ->
  Forall Q (collapse p t b s).
Proof.
  induction s as [|c s IH]; intros b Ht Hs; [constructor|].
  apply Forall_cons in Hs as [Hc Hs]. simpl. destruct (p c) eqn:E.
  - destruct b; [by apply IH|]. apply Forall_app. split; [done|by apply IH].
  - constructor; [by apply Hc|by apply IH].
Qed.

(** After the runs of a class that holds [d] are collapsed to [d], no two
    [d] are next to each other. *)
Lemma collapse_no_double p d : p d = true -> forall s b,
  contains [d; d] (collapse p [d] b s) = false
  /\ (b = true -> is_prefix [d] (collapse p [d] b s) = false).
Proof.
  intros Hd. induction s as [|c s IH]; intros b; [by destruct b|].
  simpl collapse. destruct (p c) eqn:E.
  - destruct b; [apply IH|].
    destruct (IH true) as [IH1 IH2]. specialize (IH2 eq_refl). split; [|done].
    cbn [app]. cbn [contains is_prefix]. rewrite Ascii.eqb_refl. cbn [andb].
    destruct (collapse p [d] true s) as [|x xs] eqn:Ec; [done|].
    cbn [is_prefix] in *. rewrite andb_true_r in *. by rewrite IH2, IH1.
  - assert (Hcd : Ascii.eqb d c = false).
    { destruct (Ascii.eqb_spec d c) as [->|]; [congruence|done]. }
    destruct (IH false) as [IH1 _]. split.
    + cbn [contains is_prefix]. rewrite Hcd. cbn [andb orb]. exact IH1.
    + intros _. cbn [is_prefix]. by rewrite Hcd.
Qed.

Lemma contains_app_l x : forall A B,
  contains x (A ++ B) = false -> contains x A = false.
Proof.
  induction A as [|a A IH]; intros B H.
  - simpl. rewrite orb_false_r. destruct x; [|done].
    destruct B; simpl in H; discriminate.
  - cbn [app contains] in *. apply orb_false_iff in H as [H1 H2].
    rewrite (IH _ H2), orb_false_r.
    destruct (is_prefix x (a :: A)) eqn:E; [|done].
    apply is_prefix_spec in E as [k E].
    change (a :: A ++ B) with ((a :: A) ++ B) in H1.
    rewrite E, <- app_assoc, is_prefix_app in H1. done.
Qed.

Lemma contains_drop_suffix x s t :
  contains x s = false -> t `suffix_of` s -> contains x t = false.
Proof.
  intros H [k ->]. induction k as [|a k IH]; [done|].
  cbn [app contains] in H. apply orb_false_iff in H as [_ H]. by apply IH.
Qed.

Lemma strip_with_infix p s : exists a b, s = a ++ strip_with p s ++ b.
Proof.
  unfold strip_with.
  destruct (drop_while_suffix p s) as [a Ha].
  destruct (drop_while_suffix p (rev (drop_while p s))) as [b Hb].
  exists a, (rev b). rewrite <- rev_app_distr, <- Hb, rev_involutive. exact Ha.
Qed.

Lemma strip_with_contains x p s :
  contains x s = false -> contains x (strip_with p s) = false.
Proof.
  intros H. destruct (strip_with_infix p s) as (a & b & Hs). rewrite Hs in H.
  eapply contains_app_l, contains_drop_suffix; [exact H|]. by exists a.
Qed.

Lemma drop_while_stops p s : stops p (drop_while p s).
Proof. by destruct (drop_while_split p s) as (k & _ & _ & H). Qed.

(** A stripped text neither starts nor ends with a stripped character. *)
Lemma strip_with_ends p s :
  stops p (strip_with p s) /\ stops p (rev (strip_with p s)).
Proof.
  unfold strip_with. rewrite rev_involutive. split; [|apply drop_while_stops].
  pose proof (drop_while_stops p s) as H0.
  destruct (drop_while_suffix p (rev (drop_while p s))) as [k Hk].
  destruct (drop_while p s) as [|a u] eqn:E; [done|].
  assert (Hr : rev (drop_while p (rev (a :: u))) ++ rev k = a :: u).
  { rewrite <- rev_app_distr, <- Hk. apply rev_involutive. }
  destruct (rev (drop_while p (rev (a :: u)))) as [|b v] eqn:E2; [done|].
  injection Hr as -> _. exact H0.
Qed.

End SubFacts.

(** ** Rules that find nothing to rewrite *)

Module MacroFacts.
Import Re Lang MatchFacts StrFacts CharFacts.

Lemma starts_only_with_spec a r :
  starts_only_with a r = true ->
  nullable r = false /\ forall c, c <> a -> first r c = false.
Proof.
  unfold starts_only_with. intros H. apply andb_true_iff in H as [Hn Hf].
  split; [by destruct (nullable r)|]. intros c Hc.
  pose proof (forall_chars _ Hf c) as H. cbv beta in H.
  destruct (first r c); [|done]. simpl in H. by apply Ascii.eqb_eq in H.
Qed.

(** A pattern whose matches start with [a] finds nothing in a text without
    [a]. *)
Lemma inert_without a r s :
  starts_only_with a r = true -> ~ In a s ->
  forall t, t `suffix_of` s -> match_here r false t = None.
Proof.
  intros Hr Hs. apply starts_only_with_spec in Hr as [Hn Hf].
  apply no_match_anywhere; [done|]. apply Forall_forall. intros c Hc.
  apply Hf. intros ->. by apply Hs, list_elem_of_In.
Qed.

(** ... and nothing in a text whose only [a] is its first character, when
    the literal prefix of the pattern is not a prefix of the text. *)
Lemma inert_at_head a r s :
  starts_only_with a r = true -> ~ In a s ->
  is_prefix (lit_prefix r) (a :: s) = false ->
  forall t, t `suffix_of` (a :: s) -> match_here r false t = None.
Proof.
  intros Hr Hs Hp t [k Hk]. destruct k as [|b k].
  - simpl in Hk. subst t. by apply no_match_prefix.
  - injection Hk as -> ->. eapply inert_without; [done|done|]. by exists k.
Qed.

Definition inert (s : text) (r : regex) : Prop :=
  forall t, t `suffix_of` s -> match_here r false t = None.

Lemma sub_fn_inert r f s : inert s r -> sub_fn r f s = s.
Proof. intros H. unfold sub_fn. rewrite scan_no_match by done. apply render_gaps. Qed.

Lemma sub_try_inert r f s : inert s r -> sub_try r f s = OK s.
Proof. intros H. unfold sub_try. rewrite scan_no_match by done. apply render_try_gaps. Qed.

Lemma apply_rules_inert rules s :
  Forall (fun ru => inert s (rule_regex ru)) rules -> apply_rules rules s = s.
Proof.
  unfold apply_rules. induction 1 as [|ru rules Hru _ IH]; [done|].
  cbn [fold_left]. destruct ru as [r t|r f]; cbn [apply_rule rule_regex] in *.
  - unfold Match.sub. by rewrite sub_fn_inert.
  - by rewrite sub_fn_inert.
Qed.

(** The rules of a list are inert on a text without [a]. *)
Lemma rules_inert_without a rules s :
  forallb (fun ru => starts_only_with a (rule_regex ru)) rules = true ->
  ~ In a s -> Forall (fun ru => inert s (rule_regex ru)) rules.
Proof.
  intros H Hs. apply Forall_forall. intros ru Hru. apply list_elem_of_In in Hru.
  rewrite forallb_forall in H. intros t Ht.
  apply (inert_without a (rule_regex ru) s); [by apply H|done|done].
Qed.

(** The rules of a list are inert on a text that starts with its only [a],
    when no literal prefix fits. *)
Lemma rules_inert_at_head a rules s :
  forallb (fun ru => starts_only_with a (rule_regex ru)) rules = true ->
  forallb (fun ru => negb (is_prefix (lit_prefix (rule_regex ru)) (a :: s))) rules = true ->
  ~ In a s -> Forall (fun ru => inert (a :: s) (rule_regex ru)) rules.
Proof.
  intros H Hp Hs. apply Forall_forall. intros ru Hru. apply list_elem_of_In in Hru.
  rewrite forallb_forall in H, Hp. intros t Ht.
  apply (inert_at_head a (rule_regex ru) s); [by apply H|done| |done].
  specialize (Hp _ Hru). by destruct (is_prefix _ _).
Qed.

(** A match that consumes the whole text is the only piece of the scan. *)
Lemma scan_whole r s c :
  nullable r = false -> s <> [] -> match_here r false s = Some ([], c) ->
  scan r s = [Hit (MatchObj s c)].
Proof.
  intros Hn Hs Hm. rewrite (scan_hit _ _ _ _ Hm) by (destruct s; [done|simpl; lia]).
  rewrite scan_nil by done. unfold match_of. simpl length.
  by rewrite Nat.sub_0_r, firstn_all.
Qed.

Lemma sub_fn_whole r f s c :
  nullable r = false -> s <> [] -> match_here r false s = Some ([], c) ->
  sub_fn r f s = f (MatchObj s c).
Proof.
  intros Hn Hs Hm. unfold sub_fn. rewrite (scan_whole _ _ _ Hn Hs Hm).
  simpl. apply app_nil_r.
Qed.

Lemma sub_try_whole r f s c :
  nullable r = false -> s <> [] -> match_here r false s = Some ([], c) ->
  sub_try r f s = (t <- f (MatchObj s c) ;; OK t).
Proof.
  intros Hn Hs Hm. unfold sub_try. rewrite (scan_whole _ _ _ Hn Hs Hm).
  simpl. destruct (f _); simpl; [by rewrite app_nil_r|done].
Qed.

(** A search skips a stretch of text in which the literal prefix of the
    pattern does not start. *)
Lemma search_through r A s :
  (forall A', A' <> [] -> A' `suffix_of` A -> is_prefix (lit_prefix r) (A' ++ s) = false) ->
  search r (A ++ s) = search r s.
Proof.
  induction A as [|a A IH]; intros H; [done|].
  cbn [app]. rewrite search_skip.
  - apply IH. intros A' Hne HA'. apply H; [done|]. by apply suffix_cons_r.
  - apply no_match_prefix. by apply (H (a :: A)).
Qed.

(** A pattern that ends in a character [d] which its earlier part [P] does
    not hold: in a text without [d] up to a [d], it can only start where
    exactly [P] is left before the [d]. *)
Lemma is_prefix_barrier d : forall P A B,
  ~ In d P -> ~ In d A ->
  is_prefix (P ++ [d]) (A ++ d :: B) = true -> A = P.
Proof.
  induction P as [|x P IH]; intros A B HP HA H.
  - destruct A as [|y A]; [done|]. simpl in H.
    apply andb_true_iff in H as [H _]. apply Ascii.eqb_eq in H as ->.
    exfalso. apply HA. by left.
  - destruct A as [|y A]; simpl in H.
    + apply andb_true_iff in H as [H _]. apply Ascii.eqb_eq in H as ->.
      exfalso. apply HP. by left.
    + apply andb_true_iff in H as [Hxy H]. apply Ascii.eqb_eq in Hxy as ->.
      f_equal. apply (IH A B); [| |done].
      * intros Hin. apply HP. by right.
      * intros Hin. apply HA. by right.
Qed.

End MacroFacts.

(** ** Attribute patterns *)

Module AttrFacts.
Import Re Lang MatchFacts StrFacts CharFacts MacroFacts.

Lemma tails_spec (Q : text -> Prop) C :
  Forall Q (tails C) -> forall C', C' <> [] -> C' `suffix_of` C -> Q C'.
Proof.
  induction C as [|a C IH]; intros H C' Hne [k Hk].
  - symmetry in Hk. apply app_eq_nil in Hk as [_ ->]. done.
  - cbn [tails] in H. apply Forall_cons in H as [Ha H]. destruct k as [|b k].
    + simpl in Hk. by subst C'.
    + injection Hk as -> ->. apply IH; [done|done|by exists k].
Qed.

Lemma suffix_app_cases (X Y A : text) :
  A `suffix_of` X ++ Y ->
  A `suffix_of` Y \/ exists X', X' <> [] /\ X' `suffix_of` X /\ A = X' ++ Y.
Proof.
  revert A. induction X as [|x X IH]; intros A [k Hk]; [left; by exists k|].
  destruct k as [|b k].
  - right. exists (x :: X). simpl in Hk. by subst A.
  - injection Hk as -> Hk. destruct (IH A) as [H|(X' & Hne & HX' & ->)]; [by exists k|by left|].
    right. exists X'. split; [done|]. split; [by apply suffix_cons_r|done].
Qed.

(** The pattern [r] is the literal text [P] followed by the value pattern. *)
Definition attr_pattern (r : regex) (P : text) : Prop :=
  lit_prefix r = P /\ nullable r = false
  /\ forall s c k, exec r (P ++ s) c k = exec value_re s c k.

Lemma value_here V rest :
  V <> [] -> ~ In dquote V ->
  exec value_re (V ++ dquote :: rest) []
    (fun s' c => if false && (length s' =? 0) then None else Some (s', c))
  = Some (rest, [(1, V)]).
Proof.
  intros Hne Hq. unfold value_re. rewrite exec_Seq, exec_Grp, exec_Rep_greedy.
  apply greedy_run_app.
  - apply Forall_forall. intros a Ha. unfold cls_mem. cbn [existsb item_mem xorb].
    rewrite orb_false_r. destruct (Ascii.eqb_spec a dquote) as [->|]; [|done].
    exfalso. by apply Hq, list_elem_of_In.
  - done.
  - destruct V; [done|simpl; lia].
  - rewrite take_app_rest. unfold Chr. rewrite exec_Cls_cons. unfold cls_mem.
    cbn [existsb item_mem xorb]. by rewrite Ascii.eqb_refl.
Qed.

(** The search finds the value of the attribute when the text before the
    attribute holds no start of the pattern. *)
Lemma attr_found r P A V B :
  attr_pattern r P -> V <> [] -> ~ In dquote V ->
  (forall A', A' <> [] -> A' `suffix_of` A ->
     is_prefix P (A' ++ P ++ V ++ dquote :: B) = false) ->
  option_map group1 (search r (A ++ P ++ V ++ dquote :: B)) = Some V.
Proof.
  intros (HP & Hn & Hexec) Hne Hq HA.
  rewrite search_through by (by rewrite HP).
  assert (Hm : match_here r false (P ++ V ++ dquote :: B) = Some (B, [(1, V)])).
  { unfold match_here. rewrite Hexec.
    pose proof (value_here V B Hne Hq) as Hv. cbn [andb] in *. exact Hv. }
  rewrite (search_hit _ _ _ _ Hm). done.
Qed.

(** The search finds nothing where the literal prefix of the pattern does not
    start. *)
Lemma attr_absent r P s :
  attr_pattern r P ->
  (forall s', s' <> [] -> s' `suffix_of` s -> is_prefix P s' = false) ->
  option_map group1 (search r s) = None.
Proof.
  intros (HP & Hn & _) Hs. rewrite search_none; [done|].
  intros t Ht. destruct t as [|a t]; [by apply no_match_nil|].
  apply no_match_prefix. rewrite HP. by apply Hs.
Qed.

(** In a stretch [C1 ++ V ++ dquote :: C2] of an attribute list, a pattern
    [Q ++ dquote] starts nowhere, when it does not start in the literal parts
    and the value [V] does not end with [Q]. *)
Lemma no_start_in_attr (Q C1 V C2 rest : text) :
  ~ In dquote Q -> ~ In dquote V -> ~ (Q `suffix_of` V) ->
  Forall (fun C' => is_prefix (Q ++ [dquote]) (C' ++ V ++ dquote :: C2 ++ rest) = false)
    (tails C1) ->
  Forall (fun C' => is_prefix (Q ++ [dquote]) (C' ++ rest) = false) (tails (dquote :: C2)) ->
  forall A', A' <> [] -> A' `suffix_of` C1 ++ V ++ dquote :: C2 ->
    is_prefix (Q ++ [dquote]) (A' ++ rest) = false.
Proof.
  intros HQ HV Hend H1 H2 A' Hne HA'.
  apply suffix_app_cases in HA' as [HA'|(C' & HC' & Hs & ->)].
  - apply suffix_app_cases in HA' as [HA'|(V' & HV' & Hs & ->)].
    + by apply (tails_spec _ _ H2).
    + destruct (is_prefix (Q ++ [dquote]) ((V' ++ dquote :: C2) ++ rest)) eqn:E; [|done].
      exfalso. apply Hend. rewrite <- app_assoc in E. cbn [app] in E.
      apply is_prefix_barrier in E; [by subst V'|done|].
      intros Hin. destruct Hs as [k ->]. apply HV, in_or_app. by right.
  - rewrite <- !app_assoc. cbn [app].
    by apply (tails_spec _ _ H1).
Qed.

End AttrFacts.

(** Replace the literal texts of the goal by their characters. *)
Ltac norm_py :=
  repeat match goal with
  | |- context [py ?p] =>
    let x := eval vm_compute in (py p) in change (py p) with x
  end;
  cbn [app].

(** ** The button macro *)

Module ButtonFacts.
Import Re Lang MatchFacts StrFacts CharFacts MacroFacts AttrFacts.

Lemma exec_Seq_Chr a r s c k : exec (Seq (Cls false [IChar a]) r) (a :: s) c k = exec r s c k.
Proof.
  rewrite exec_Seq, exec_Cls_cons. unfold cls_mem. cbn [existsb item_mem xorb].
  by rewrite Ascii.eqb_refl.
Qed.

Lemma title_pattern : attr_pattern (re "title=`([^`]+)`") (py "title=`").
Proof.
  split; [by vm_compute|]. split; [by vm_compute|].
  intros s c k. reify_re. norm_py. by rewrite !exec_Seq_Chr.
Qed.

Lemma link_pattern : attr_pattern (re "link=`([^`]+)`") (py "link=`").
Proof.
  split; [by vm_compute|]. split; [by vm_compute|].
  intros s c k. reify_re. norm_py. by rewrite !exec_Seq_Chr.
Qed.

Lemma take_until_split d s :
  exists rest, s = take_until d s ++ rest
               /\ ~ In d (take_until d s)
               /\ stops (fun c => negb (Ascii.eqb c d)) rest.
Proof.
  induction s as [|a s (rest & Hs & Hnot & Hstop)];
    [exists []; split; [done|split; [intros []|done]]|].
  simpl. destruct (Ascii.eqb_spec a d) as [->|Hne].
  - exists (d :: s). split; [done|]. split; [intros []|]. simpl. by rewrite Ascii.eqb_refl.
  - exists rest. split; [by rewrite Hs at 1|]. split; [|done].
    simpl. intros [H|H]; [by apply Hne|by apply Hnot].
Qed.

Lemma greedy_run_none p k s c :
  stops p s -> greedy_run p 1 None s c k = None.
Proof. destruct s as [|a s]; simpl; [done|]. by intros ->. Qed.

Lemma search_unfold r s :
  search r s
  = match match_here r false s with
    | Some (rest, c) => Some (match_of s rest c)
    | None => match s with [] => None | _ :: s' => search r s' end
    end.
Proof. by destruct s. Qed.

(** The search for [url:([^|]+)] reads the url segment. *)
Lemma url_search s : attr_search "url:([^|]+)" s = url_segment s.
Proof.
  unfold attr_search. induction s as [|a s IH].
  - by vm_compute.
  - rewrite search_unfold. cbn [url_segment]. rewrite <- IH. clear IH.
    destruct (is_prefix (py "url:") (a :: s)) eqn:E.
    + apply is_prefix_spec in E as [v E]. rewrite E.
      change (skipn 4 (py "url:" ++ v)) with v.
      destruct (take_until_split "|" v) as (rest & Hv & Hnot & Hstop).
      assert (Hcls : forall c, cls_mem true [IChar "|"] c = negb (Ascii.eqb c "|"))
        by (intros c; unfold cls_mem; cbn [existsb item_mem xorb]; by rewrite orb_false_r).
      assert (Hexec : forall k, exec (re "url:([^|]+)") (py "url:" ++ v) [] k
                = greedy_run (cls_mem true [IChar "|"]) 1 None v []
                    (fun s' c' => k s' ((1, take (length v - length s') v) :: c'))).
      { intros k. reify_re. norm_py. by rewrite !exec_Seq_Chr, exec_Grp, exec_Rep_greedy. }
      unfold match_here. rewrite Hexec.
      assert (Hstop' : stops (cls_mem true [IChar "|"]) rest).
      { destruct rest as [|x xs]; [done|]. simpl in *. by rewrite Hcls. }
      destruct (take_until "|" v) as [|x xs] eqn:Et.
      * simpl in Hv. subst rest. by rewrite greedy_run_none.
      * rewrite Hv at 1. erewrite greedy_run_app; [| | exact Hstop' | simpl; lia | reflexivity].
        -- cbn [option_map andb]. unfold group1, group, match_of.
           cbn [m_caps cap_lookup Nat.eqb default].
           rewrite Hv. by rewrite take_app_rest.
        -- apply Forall_forall. intros c Hc. rewrite Hcls.
           destruct (Ascii.eqb_spec c "|") as [->|]; [|done].
           exfalso. by apply Hnot, list_elem_of_In.
    + rewrite no_match_prefix; [done|]. by vm_compute (lit_prefix _).
Qed.

(** The button pattern consumes the macro; group 1 is its attribute text. *)
Lemma btn_match attrs :
  ~ In "]"%char attrs ->
  match_here (re "\[vc_btn([^\]]*)\]") false (py "[vc_btn" ++ attrs ++ py "]")
  = Some ([], [(1, attrs)]).
Proof.
  intros Hattrs. reify_re. norm_py. unfold match_here.
  rewrite !exec_Seq_Chr, exec_Seq, exec_Grp, exec_Rep_greedy.
  apply greedy_run_app.
  - apply Forall_forall. intros a Ha. unfold cls_mem. cbn [existsb item_mem xorb].
    rewrite orb_false_r. destruct (Ascii.eqb_spec a "]") as [->|]; [|done].
    exfalso. by apply Hattrs, list_elem_of_In.
  - done.
  - lia.
  - rewrite take_app_rest, exec_Cls_cons. done.
Qed.

Lemma plain_value_quote v : plain_value v -> v <> [] /\ ~ In dquote v.
Proof.
  intros [Hne Hv]. split; [done|]. intros Hin. apply list_elem_of_In in Hin.
  rewrite Forall_forall in Hv. by destruct (Hv _ Hin) as [? _].
Qed.

(** Decide a list of prefix tests on the literal parts of an attribute text. *)
Ltac prefix_tests := cbn [tails]; repeat (constructor; [by vm_compute|]); constructor.

(** The search for the title attribute in the attribute text of a button. *)
Lemma search_title link title :
  (forall L, link = Some L -> plain_value L /\ ~ (py "title=" `suffix_of` L)) ->
  (forall T, title = Some T -> plain_value T) ->
  attr_search "title=`([^`]+)`" (attribute "link" link ++ attribute "title" title) = title.
Proof.
  intros Hlink Htitle. unfold attr_search.
  destruct title as [T|]; destruct link as [L|]; unfold attribute.
  - destruct (Hlink L eq_refl) as [HL Hend]. apply plain_value_quote in HL as [_ HLq].
    destruct (plain_value_quote T (Htitle T eq_refl)) as [HTne HTq].
    replace ((py " " ++ py "link" ++ py "=`" ++ L ++ py "`")
               ++ py " " ++ py "title" ++ py "=`" ++ T ++ py "`")
      with ((py " link=`" ++ L ++ dquote :: py " ") ++ py "title=`" ++ T ++ dquote :: [])
      by (norm_py; rewrite <- !app_assoc; by cbn [app]).
    apply (attr_found _ _ _ _ _ title_pattern HTne HTq).
    apply (no_start_in_attr (py "title=") (py " link=`") L (py " ")); try done.
    + by vm_compute; intuition discriminate.
    + prefix_tests.
    + prefix_tests.
  - destruct (plain_value_quote T (Htitle T eq_refl)) as [HTne HTq].
    replace ([] ++ py " " ++ py "title" ++ py "=`" ++ T ++ py "`")
      with (py " " ++ py "title=`" ++ T ++ dquote :: [])
      by (norm_py; by cbn [app]).
    apply (attr_found _ _ _ _ _ title_pattern HTne HTq).
    intros A' Hne HA'. revert A' Hne HA'. apply tails_spec. prefix_tests.
  - destruct (Hlink L eq_refl) as [HL Hend]. apply plain_value_quote in HL as [_ HLq].
    rewrite app_nil_r.
    replace (py " " ++ py "link" ++ py "=`" ++ L ++ py "`")
      with (py " link=`" ++ L ++ dquote :: [])
      by (norm_py; by cbn [app]).
    apply (attr_absent _ _ _ title_pattern).
    intros s' Hne Hs'. rewrite <- (app_nil_r s').
    revert s' Hne Hs'.
    apply (no_start_in_attr (py "title=") (py " link=`") L [] []); try done.
    + by vm_compute; intuition discriminate.
    + prefix_tests.
    + prefix_tests.
  - by vm_compute.
Qed.

(** The search for the link attribute in the attribute text of a button. *)
Lemma search_link link title :
  (forall L, link = Some L -> plain_value L) ->
  (forall T, title = Some T -> plain_value T /\ ~ (py "link=" `suffix_of` T)) ->
  attr_search "link=`([^`]+)`" (attribute "link" link ++ attribute "title" title) = link.
Proof.
  intros Hlink Htitle. unfold attr_search.
  destruct link as [L|]; unfold attribute at 1.
  - destruct (plain_value_quote L (Hlink L eq_refl)) as [HLne HLq].
    replace ((py " " ++ py "link" ++ py "=`" ++ L ++ py "`") ++ attribute "title" title)
      with (py " " ++ py "link=`" ++ L ++ dquote :: attribute "title" title)
      by (norm_py; rewrite <- !app_assoc; by cbn [app]).
    apply (attr_found _ _ _ _ _ link_pattern HLne HLq).
    intros A' Hne HA'. revert A' Hne HA'. apply tails_spec. prefix_tests.
  - cbn [app]. destruct title as [T|]; unfold attribute; [|by vm_compute].
    destruct (Htitle T eq_refl) as [HT Hend]. apply plain_value_quote in HT as [_ HTq].
    replace (py " " ++ py "title" ++ py "=`" ++ T ++ py "`")
      with (py " title=`" ++ T ++ dquote :: [])
      by (norm_py; by cbn [app]).
    apply (attr_absent _ _ _ link_pattern).
    intros s' Hne Hs'. rewrite <- (app_nil_r s').
    revert s' Hne Hs'.
    apply (no_start_in_attr (py "link=") (py " title=`") T [] []); try done.
    + by vm_compute; intuition discriminate.
    + prefix_tests.
    + prefix_tests.
Qed.

End ButtonFacts.

(** ** [slugify] and the frontmatter *)

Module SlugFacts.
Import Re Lang MatchFacts StrFacts SubFacts CharFacts.

Lemma sub_fn_ext r f g s : (forall m, f m = g m) -> sub_fn r f s = sub_fn r g s.
Proof.
  intros H. unfold sub_fn. induction (scan r s) as [|p ps IH]; [done|].
  simpl. rewrite IH. by destruct p; simpl; rewrite ?H.
Qed.

(** The characters [slugify] keeps in its first [re.sub]. *)
Definition kept (c : ascii) : bool := negb (cls_mem true [IWord; ISpace; IChar "-"] c).

(** The characters [slugify] turns into hyphens. *)
Definition hyphenated (c : ascii) : bool := cls_mem false [IChar "-"; ISpace] c.

Lemma slugify_spec t :
  slugify t
  = strip_with (fun c => Ascii.eqb c "-")
      (collapse hyphenated ["-"%char] false (List.filter kept (lower (nfkd_ascii t)))).
Proof.
  unfold slugify, Match.sub. reify_re. f_equal.
  rewrite (sub_fn_ext _ _ (fun _ => ["-"%char])) by done.
  rewrite sub_fn_plus. f_equal.
  rewrite (sub_fn_ext _ _ (fun _ => [])) by done.
  rewrite sub_fn_class. generalize (lower (nfkd_ascii t)). intros x.
  induction x as [|c x IH]; [done|]. cbn [flat_map List.filter]. unfold kept at 1.
  destruct (cls_mem true [IWord; ISpace; IChar "-"] c); cbn [negb app]; by rewrite IH.
Qed.

Lemma kept_lower_nfkd t :
  List.filter kept (lower (nfkd_ascii t))
  = flat_map (fun c => List.filter kept (lower (nfkd_ascii_char c))) t.
Proof.
  induction t as [|c t IH]; [done|].
  unfold nfkd_ascii, lower in *. cbn [flat_map].
  by rewrite map_app, List.filter_app, IH.
Qed.

Lemma replace_char c new s :
  str_replace [c] new s = flat_map (fun a => if Ascii.eqb c a then new else [a]) s.
Proof.
  unfold str_replace. induction s as [|a s IH]; [done|].
  simpl. destruct (Ascii.eqb c a); simpl; by rewrite IH.
Qed.

(** Escaping the quotes of a title does not change its slug. *)
Lemma slugify_escape_quotes t : slugify (escape_quotes t) = slugify t.
Proof.
  rewrite !slugify_spec, !kept_lower_nfkd. do 2 f_equal.
  unfold escape_quotes. change (py "`") with ["034"%char].
  rewrite replace_char. induction t as [|c t IH]; [done|].
  cbn [flat_map]. rewrite flat_map_app, IH. f_equal.
  destruct (Ascii.eqb_spec "034" c) as [<-|_]; [by vm_compute|].
  cbn [flat_map]. by rewrite app_nil_r.
Qed.

Lemma nfkd_ascii_is_ascii t : Forall (fun c => (code c <? 128)%N = true) (nfkd_ascii t).
Proof.
  unfold nfkd_ascii. induction t as [|c t IH]; [constructor|].
  cbn [flat_map]. apply Forall_app. split; [|done].
  pose proof (forall_chars
    (fun c => forallb (fun x => (code x <? 128)%N) (nfkd_ascii_char c))
    ltac:(by vm_compute) c) as H.
  apply Forall_forall. intros x Hx. apply list_elem_of_In in Hx.
  cbv beta in H. rewrite forallb_forall in H. by apply H.
Qed.

(** The slug is made of lower-case ASCII letters, digits, underscores and
    hyphens. *)
Lemma slugify_chars t : Forall (fun c => slug_char c = true) (slugify t).
Proof.
  rewrite slugify_spec. apply strip_with_Forall, collapse_Forall.
  - by repeat constructor.
  - apply Forall_forall. intros c Hc.
    apply list_elem_of_In, List.filter_In in Hc as [Hc Hk].
    apply in_map_iff in Hc as (c' & <- & Hc').
    pose proof (nfkd_ascii_is_ascii t) as Ha. rewrite Forall_forall in Ha.
    apply list_elem_of_In, Ha in Hc'.
    pose proof (forall_chars
      (fun c' => implb (code c' <? 128)%N
         (implb (kept (lower_char c'))
            (implb (negb (hyphenated (lower_char c'))) (slug_char (lower_char c')))))
      ltac:(by vm_compute) c') as H.
    cbv beta in H. rewrite Hc', Hk in H. simpl in H. intros Hh. by rewrite Hh in H.
Qed.

Lemma stops_not_prefix d s :
  stops (fun c => Ascii.eqb c d) s -> is_prefix [d] s = false.
Proof.
  destruct s as [|a s]; [done|]. simpl. intros H.
  destruct (Ascii.eqb_spec d a) as [->|]; [|done]. by rewrite Ascii.eqb_refl in H.
Qed.

(** No two hyphens follow each other in a slug, and it neither starts nor
    ends with a hyphen. *)
Lemma slugify_hyphens t :
  contains (py "--") (slugify t) = false
  /\ is_prefix (py "-") (slugify t) = false
  /\ is_prefix (py "-") (rev (slugify t)) = false.
Proof.
  rewrite slugify_spec. split; [|split].
  - apply strip_with_contains. by apply (collapse_no_double hyphenated "-"%char).
  - apply stops_not_prefix, strip_with_ends.
  - apply stops_not_prefix, strip_with_ends.
Qed.

(** The first three lines of the frontmatter of a record without a slug. *)
Lemma frontmatter_head now it item_type :
  it_slug it = None ->
  exists rest,
    generate_frontmatter now it item_type
    = py "---\ntitle: `" ++ escape_quotes (default (py "Untitled") (it_title it))
        ++ py "`\npermalink: `" ++ slugify (default (py "Untitled") (it_title it))
        ++ py "`\n" ++ rest.
Proof.
  intros Hslug. unfold generate_frontmatter. cbv zeta. rewrite Hslug. cbn [default].
  rewrite slugify_escape_quotes.
  match goal with |- context [join _ (?l ++ [py "---"])] =>
    assert (exists tl, l ++ [py "---"]
      = py "---" :: (py "title: `" ++ escape_quotes (default (py "Untitled") (it_title it)) ++ py "`")
          :: (py "permalink: `" ++ slugify (default (py "Untitled") (it_title it)) ++ py "`")
          :: (py "date: `" ++ default now (it_date it) ++ py "`") :: tl) as [tl ->]
      by (rewrite <- !(app_assoc (A := text)); cbn [app]; by eexists)
  end.
  cbn [join]. eexists. rewrite <- !app_assoc. cbn [app py py_escapes list_ascii_of_string].
  reflexivity.
Qed.

End SlugFacts.

(** ** Internal links *)

Module LinkFacts.
Import Re Lang MatchFacts.

Lemma as_lit_lit p : as_lit (lit p) = Some p.
Proof.
  induction p as [|a p IH]; [done|]. destruct p as [|b p]; [done|].
  change (lit (a :: b :: p)) with (Seq (Chr a) (lit (b :: p))).
  cbn [as_lit Chr]. by rewrite IH.
Qed.

Lemma lit_prefix_base base r : lit_prefix (Seq (lit base) r) = base ++ lit_prefix r.
Proof. cbn [lit_prefix]. by rewrite as_lit_lit. Qed.

Lemma contains_suffix p s t :
  contains p s = false -> t `suffix_of` s -> is_prefix p t = false.
Proof.
  intros H [k ->]. induction k as [|a k IH]; simpl in H.
  - destruct t; simpl in H; by apply orb_false_iff in H as [? _].
  - apply orb_false_iff in H as [_ H]. by apply IH.
Qed.


(** A pattern whose literal prefix does not occur in the text leaves it as
    it is. *)
Lemma sub_fn_absent r f s :
  contains (lit_prefix r) s = false -> sub_fn r f s = s.
Proof.
  intros H. unfold sub_fn. rewrite scan_no_match; [apply render_gaps|].
  intros t Ht. apply no_match_prefix. by eapply contains_suffix.
Qed.

Lemma dslash_match_here t :
  match t with
  | c :: a :: b :: _ => negb (Ascii.eqb c ":") && Ascii.eqb a "/" && Ascii.eqb b "/"
  | _ => false
  end = false ->
  match_here (re "([^:])//") false t = None.
Proof.
  intros H. reify_re. unfold match_here. rewrite exec_Seq, exec_Grp.
  destruct t as [|c t]; [done|].
  rewrite exec_Cls_cons. unfold cls_mem at 1. cbn [existsb item_mem].
  rewrite orb_false_r. cbn [xorb].
  destruct (Ascii.eqb c ":"); [done|]. cbn [negb] in *.
  rewrite exec_Seq. destruct t as [|a t]; [done|].
  rewrite exec_Cls_cons. unfold cls_mem at 1. cbn [existsb item_mem xorb].
  rewrite orb_false_r.
  destruct (Ascii.eqb a "/"); [|done].
  destruct t as [|b t]; [done|].
  rewrite exec_Cls_cons. unfold cls_mem at 1. cbn [existsb item_mem xorb].
  rewrite orb_false_r.
  destruct (Ascii.eqb b "/"); [|done]. done.
Qed.

Lemma dslash_no_match s :
  has_dslash s = false ->
  forall t, t `suffix_of` s -> match_here (re "([^:])//") false t = None.
Proof.
  intros H t [k ->]. induction k as [|x k IH].
  - apply dslash_match_here. simpl in H.
    destruct t as [|c [|a [|b t]]]; try done. by apply orb_false_iff in H as [H _].
  - apply IH. simpl in H. destruct (k ++ t) as [|a [|b u]] eqn:E; try done.
    by apply orb_false_iff in H as [_ H].
Qed.

(** Without the base URL followed by a slash and without a doubled slash
    after a character other than the colon, no rule changes the text. *)
Lemma link_rules_tail_identity content base_url :
  contains (base_url ++ py "/") content = false ->
  has_dslash content = false ->
  apply_rules (skipn 1 (link_rules base_url)) content = content.
Proof.
  intros Hb Hd. unfold apply_rules, link_rules. cbn [skipn fold_left apply_rule].
  unfold Match.sub.
  rewrite (sub_fn_absent _ _ content) by (by rewrite lit_prefix_base).
  unfold sub_fn. rewrite scan_no_match by (by apply dslash_no_match).
  apply render_gaps.
Qed.

Lemma link_rules_identity content base_url :
  contains (base_url ++ py "/") content = false ->
  has_dslash content = false ->
  apply_rules (link_rules base_url) content = content.
Proof.
  intros Hb Hd.
  change (link_rules base_url)
    with ([Tpl (Seq (lit base_url) (re "/([\d]{4})/([\d]{2})/([\d]{2})/([^/`]+)/?"))
               (tpl "/blog/\4/")] ++ skipn 1 (link_rules base_url)).
  unfold apply_rules. rewrite fold_left_app. cbn [fold_left apply_rule].
  unfold Match.sub.
  rewrite (sub_fn_absent _ _ content) by (by rewrite lit_prefix_base).
  by apply link_rules_tail_identity.
Qed.








End LinkFacts.

(** ** The meta dictionary of a post *)

Module MetaFacts.

Lemma pack_meta_snoc vs v :
  pack_meta (vs ++ [v])
  = Some match pack_meta vs with
         | Some (Several ws) => Several (ws ++ [v])
         | Some (Single w) => Several [w; v]
         | None => Single v
         end.
Proof. destruct vs as [|a [|b vs]]; try done. Qed.

Lemma meta_rows_snoc key rows k v :
  meta_rows key (rows ++ [(k, v)])
  = meta_rows key rows ++ (if bool_decide (k = key) then [v] else []).
Proof.
  unfold meta_rows. rewrite List.filter_app, map_app. f_equal. simpl.
  by destruct (bool_decide (k = key)).
Qed.

Lemma get_post_meta_lookup rows : forall key,
  get_post_meta rows !! key
  = if internal_meta_key key then None else pack_meta (meta_rows key rows).
Proof.
  unfold get_post_meta.
  induction rows as [|[k v] rows IH] using rev_ind; intros key.
  - cbn [fold_left]. rewrite lookup_empty. by destruct (internal_meta_key key).
  - rewrite fold_left_app. cbn [fold_left]. rewrite meta_rows_snoc.
    unfold add_meta at 1.
    destruct (internal_meta_key k) eqn:Ek.
    + rewrite IH. destruct (internal_meta_key key) eqn:Ekey; [done|].
      rewrite bool_decide_eq_false_2; [by rewrite app_nil_r|congruence].
    + destruct (decide (k = key)) as [->|Hne].
      * rewrite bool_decide_eq_true_2 by done. rewrite Ek, pack_meta_snoc.
        rewrite (IH key), Ek.
        destruct (pack_meta (meta_rows key rows)) as [[w|ws]|];
          by rewrite lookup_insert_eq.
      * rewrite bool_decide_eq_false_2 by done. rewrite app_nil_r.
        rewrite <- IH.
        destruct (fold_left add_meta rows ∅ !! k) as [[w|ws]|];
          by rewrite lookup_insert_ne.
Qed.

End MetaFacts.

(** ** The table prefix *)

Module PrefixFacts.

Lemma bump_not_nil prefix d : bump prefix d <> [].
Proof. destruct d as [|[k n] d]; simpl; [done|]. by destruct (bool_decide (k = prefix)). Qed.

Lemma ends_with_spec suffix s :
  ends_with suffix s = true <-> exists k, s = k ++ suffix.
Proof.
  unfold ends_with. rewrite MatchFacts.is_prefix_spec. split.
  - intros [k Hk]. exists (rev k). apply (f_equal (@rev ascii)) in Hk.
    rewrite rev_involutive in Hk. by rewrite Hk, rev_app_distr, rev_involutive.
  - intros [k ->]. exists (rev k). by rewrite rev_app_distr.
Qed.

Lemma ends_with_underscore core table :
  ends_with ("_"%char :: core) table = true -> ends_with core table = true.
Proof.
  rewrite !ends_with_spec. intros [k ->]. exists (k ++ ["_"%char]).
  by rewrite <- app_assoc.
Qed.

(** A table counts for a core table exactly when it ends with its name. *)
Lemma count_table_none table d core :
  ends_with core table = false -> count_table table d core = d.
Proof.
  intros H. unfold count_table.
  destruct (ends_with ("_"%char :: core) table) eqn:E.
  - apply ends_with_underscore in E. congruence.
  - by rewrite H.
Qed.

Lemma count_table_some table d core :
  ends_with core table = true -> exists prefix, count_table table d core = bump prefix d.
Proof.
  intros H. unfold count_table. rewrite H, orb_true_r. by eexists.
Qed.

Lemma fold_count_none table : forall cores d,
  Forall (fun core => ends_with core table = false) cores ->
  fold_left (count_table table) cores d = d.
Proof.
  induction cores as [|c cores IH]; intros d H; [done|].
  apply Forall_cons in H as [Hc H]. simpl. rewrite count_table_none by done. by apply IH.
Qed.

Lemma fold_count_not_nil table : forall cores d,
  d <> [] -> fold_left (count_table table) cores d <> [].
Proof.
  induction cores as [|c cores IH]; intros d H; [done|]. simpl. apply IH.
  unfold count_table. destruct (_ || _); [apply bump_not_nil|done].
Qed.

Lemma fold_count_some table : forall cores d,
  Exists (fun core => ends_with core table = true) cores ->
  fold_left (count_table table) cores d <> [].
Proof.
  induction cores as [|c cores IH]; intros d H; [by apply Exists_nil in H|].
  simpl. destruct (ends_with c table) eqn:E.
  - destruct (count_table_some table d c E) as [prefix ->].
    apply fold_count_not_nil, bump_not_nil.
  - apply IH. apply Exists_cons in H as [H|H]; [congruence|done].
Qed.

Lemma count_prefixes_nil tables :
  count_prefixes tables = []
  <-> Forall (fun table => Forall (fun core => ends_with core table = false) wp_core_tables)
        tables.
Proof.
  unfold count_prefixes.
  assert (H : forall d,
    fold_left (fun prefixes table => fold_left (count_table table) wp_core_tables prefixes)
      tables d = []
    <-> d = [] /\ Forall (fun table =>
                   Forall (fun core => ends_with core table = false) wp_core_tables) tables).
  { induction tables as [|t tables IH]; intros d; cbn [fold_left].
    - split; [by intros ->|by intros [-> _]].
    - rewrite IH. split.
      + intros [Hd Ht].
        destruct (decide (Forall (fun core => ends_with core t = false) wp_core_tables))
          as [Hall|Hex].
        * rewrite fold_count_none in Hd by done. split; [done|by constructor].
        * exfalso. revert Hd. apply fold_count_some.
          apply not_Forall_Exists in Hex; [|apply _].
          eapply Exists_impl; [exact Hex|]. intros c Hc. simpl in Hc.
          by destruct (ends_with c t).
      + intros [-> Hall]. apply Forall_cons in Hall as [Ht Hall].
        split; [by apply fold_count_none|done]. }
  rewrite H. tauto.
Qed.

Lemma is_prefix_incomparable : forall a b q : text,
  is_prefix a b = false -> is_prefix b a = false -> is_prefix a (b ++ q) = false.
Proof.
  induction a as [|x a IH]; intros b q Ha Hb; [done|].
  destruct b as [|y b]; [done|]. simpl in *.
  destruct (Ascii.eqb_spec x y) as [->|Hne]; [|done].
  rewrite Ascii.eqb_refl in Hb. simpl in *. by apply IH.
Qed.

(** A name that is no end of [s], and of which [s] is no end, is no end of
    a text that ends with [s]. *)
Lemma ends_with_incomparable suffix s p :
  ends_with suffix s = false -> ends_with s suffix = false ->
  ends_with suffix (p ++ s) = false.
Proof.
  unfold ends_with. intros H1 H2. rewrite rev_app_distr.
  by apply is_prefix_incomparable.
Qed.

Definition distinct_ends (c c' : text) : bool :=
  bool_decide (c = c')
  || negb (ends_with c' ("_"%char :: c)) && negb (ends_with ("_"%char :: c) c').

(** No core table name is the end of another one, with or without an
    underscore before it. *)
Lemma core_tables_distinct_ends :
  forallb (fun c => forallb (distinct_ends c) wp_core_tables) wp_core_tables = true.
Proof. by vm_compute. Qed.

Lemma core_tables_NoDup : NoDup wp_core_tables.
Proof. apply (bool_decide_unpack _). by vm_compute. Qed.

Lemma count_table_own p c d :
  count_table (p ++ "_"%char :: c) d c = bump (p ++ py "_") d.
Proof.
  unfold count_table.
  assert (H : ends_with ("_"%char :: c) (p ++ "_"%char :: c) = true)
    by (apply ends_with_spec; by exists p).
  rewrite H. cbn [orb]. f_equal. f_equal.
  rewrite length_app. cbn [length].
  replace (length p + S (length c) - length c - 1) with (length p) by lia.
  by rewrite take_app_length.
Qed.

Lemma fold_count_own p c : forall cores d,
  NoDup cores -> c ∈ cores ->
  Forall (fun c' => distinct_ends c c' = true) cores ->
  fold_left (count_table (p ++ "_"%char :: c)) cores d = bump (p ++ py "_") d.
Proof.
  assert (Hother : forall c', c' <> c -> distinct_ends c c' = true ->
            ends_with c' (p ++ "_"%char :: c) = false).
  { intros c' Hne Hd. unfold distinct_ends in Hd.
    rewrite bool_decide_eq_false_2 in Hd by done. cbn [orb] in Hd.
    apply andb_true_iff in Hd as [H1 H2].
    apply negb_true_iff in H1, H2. by apply ends_with_incomparable. }
  induction cores as [|c' cores IH]; intros d Hnd Hin Hall; [by apply elem_of_nil in Hin|].
  apply NoDup_cons in Hnd as [Hc' Hnd]. apply Forall_cons in Hall as [Hd Hall].
  cbn [fold_left]. apply elem_of_cons in Hin as [<-|Hin].
  - rewrite count_table_own. apply fold_count_none.
    rewrite Forall_forall in Hall |- *. intros x Hx. apply Hother; [|by apply Hall].
    intros ->. done.
  - rewrite count_table_none; [by apply IH|].
    apply Hother; [|done]. intros ->. done.
Qed.

Lemma core_table_count p c d :
  c ∈ wp_core_tables ->
  fold_left (count_table (p ++ "_"%char :: c)) wp_core_tables d = bump (p ++ py "_") d.
Proof.
  intros Hc. apply fold_count_own; [apply core_tables_NoDup|done|].
  pose proof core_tables_distinct_ends as H. rewrite forallb_forall in H.
  apply list_elem_of_In in Hc. specialize (H _ Hc).
  rewrite forallb_forall in H. apply Forall_forall. intros x Hx.
  apply H. by apply list_elem_of_In.
Qed.

Lemma count_prefixes_uniform p : forall tables d,
  Forall (fun table => exists c, c ∈ wp_core_tables /\ table = p ++ "_"%char :: c) tables ->
  (d = [] \/ exists n, d = [(p ++ py "_", n)]) ->
  tables <> [] \/ d <> [] ->
  exists n,
    fold_left (fun prefixes table => fold_left (count_table table) wp_core_tables prefixes)
      tables d = [(p ++ py "_", n)].
Proof.
  induction tables as [|t tables IH]; intros d Hall Hd Hne.
  - destruct Hne as [?|Hne]; [done|]. destruct Hd as [->|Hd]; done.
  - apply Forall_cons in Hall as [(c & Hc & ->) Hall]. cbn [fold_left].
    rewrite core_table_count by done.
    apply IH; [done| |right; apply bump_not_nil].
    right. destruct Hd as [->|[n ->]]; simpl; [by eexists|].
    rewrite bool_decide_eq_true_2 by done. by eexists.
Qed.

Lemma bump_keys (P : text -> Prop) prefix : forall d,
  P prefix -> Forall (fun kv => P (fst kv)) d -> Forall (fun kv => P (fst kv)) (bump prefix d).
Proof.
  induction d as [|[k n] d IH]; intros Hp Hd; simpl; [by repeat constructor|].
  apply Forall_cons in Hd as [Hk Hd].
  destruct (bool_decide (k = prefix)); constructor; try done. by apply IH.
Qed.

Lemma max_item_in : forall items best, max_item best items ∈ best :: items.
Proof.
  induction items as [|x items IH]; intros best; simpl; [by left|].
  specialize (IH (if snd best <? snd x then x else best)).
  apply elem_of_cons in IH as [->|IH].
  - destruct (snd best <? snd x); [right; by left|by left].
  - right. by right.
Qed.

(** What a key of the dictionary is: the empty prefix of a table that ends
    with a core table name without an underscore before it, or the part,
    underscore included, that some table has before a core table name. *)
Definition prefix_of_table (tables : list text) (p : text) : Prop :=
  exists table core,
    table ∈ tables /\ core ∈ wp_core_tables /\ ends_with core table = true
    /\ (p = [] /\ ends_with ("_"%char :: core) table = false
        \/ ends_with (py "_") p = true /\ table = p ++ core).

Lemma count_table_keys tables table core d :
  table ∈ tables -> core ∈ wp_core_tables ->
  Forall (fun kv => prefix_of_table tables (fst kv)) d ->
  Forall (fun kv => prefix_of_table tables (fst kv)) (count_table table d core).
Proof.
  intros Ht Hc Hd. unfold count_table.
  destruct (ends_with ("_"%char :: core) table) eqn:E1; cbn [orb].
  - apply bump_keys; [|done]. exists table, core.
    pose proof (ends_with_underscore _ _ E1) as E2.
    split; [done|]. split; [done|]. split; [done|]. right.
    apply ends_with_spec in E1 as [k ->]. split.
    + apply ends_with_spec. eexists. reflexivity.
    + rewrite length_app. cbn [length].
      replace (length k + S (length core) - length core - 1) with (length k) by lia.
      rewrite take_app_length. by rewrite <- app_assoc.
  - destruct (ends_with core table) eqn:E2; [|done].
    apply bump_keys; [|done]. exists table, core. repeat split; try done. by left.
Qed.

Lemma count_prefixes_keys tables :
  Forall (fun kv => prefix_of_table tables (fst kv)) (count_prefixes tables).
Proof.
  unfold count_prefixes.
  assert (H : forall ts d, ts ⊆ tables ->
    Forall (fun kv => prefix_of_table tables (fst kv)) d ->
    Forall (fun kv => prefix_of_table tables (fst kv))
      (fold_left (fun prefixes table => fold_left (count_table table) wp_core_tables prefixes)
         ts d)).
  { induction ts as [|t ts IH]; intros d Hsub Hd; [done|]. cbn [fold_left].
    apply IH; [set_solver|].
    assert (Ht : t ∈ tables) by set_solver.
    assert (G : forall cores d', cores ⊆ wp_core_tables ->
      Forall (fun kv => prefix_of_table tables (fst kv)) d' ->
      Forall (fun kv => prefix_of_table tables (fst kv))
        (fold_left (count_table t) cores d')).
    { induction cores as [|c cores IHc]; intros d' Hs Hd'; [done|]. cbn [fold_left].
      apply IHc; [set_solver|]. apply count_table_keys; try done. set_solver. }
    by apply G. }
  by apply H.
Qed.

End PrefixFacts.

(** ** Full paths and the hierarchy *)

Module PathFacts.

(** The walk only puts slugs in front of the path it was given, and the
    slugs do not depend on that path. *)
Lemma walk_prepends pm : forall fuel path p x,
  walk fuel pm path p = Some x ->
  exists pre, x = pre ++ path /\ forall path', walk fuel pm path' p = Some (pre ++ path').
Proof.
  induction fuel as [|fuel IH]; intros path p x H; [done|].
  simpl in H |- *.
  destruct (0 <? pg_parentId p)%Z; [|exists []; split; [by injection H as <-|done]].
  destruct (pm !! pg_parentId p) as [parent|]; [|exists []; split; [by injection H as <-|done]].
  destruct (IH _ _ _ H) as (pre & -> & Hpre).
  exists (pre ++ [pg_slug parent]). split; [by rewrite <- app_assoc|].
  intros path'. rewrite <- app_assoc. apply Hpre.
Qed.

Lemma join_snoc (sep : text) (l : list text) (x : text) :
  l <> [] -> join sep (l ++ [x]) = join sep l ++ sep ++ x.
Proof.
  induction l as [|a l IH]; [done|]. intros _.
  destruct l as [|b l]; [done|].
  change (join sep ((a :: b :: l) ++ [x])) with (a ++ sep ++ join sep ((b :: l) ++ [x])).
  rewrite IH by done. change (join sep (a :: b :: l)) with (a ++ sep ++ join sep (b :: l)).
  by rewrite <- !app_assoc.
Qed.

Lemma build_loop_lookup fuel pm : forall pages h h',
  build_loop fuel pm pages h = Some h' ->
  (forall i, is_Some (h' !! i) <-> is_Some (h !! i) \/ i ∈ map pg_id pages)
  /\ (forall i, i ∉ map pg_id pages -> h' !! i = h !! i)
  /\ (NoDup (map pg_id pages) ->
      forall p, p ∈ pages ->
        exists full, get_path fuel pm p = Some full
          /\ h' !! pg_id p = Some (Node (pg_slug p) full (pg_parentId p) (pg_title p))).
Proof.
  induction pages as [|p pages IH]; intros h h' H; simpl in H.
  - injection H as <-. split; [|split].
    + intros i. split; [by left|]. intros [?|Hi]; [done|]. by apply elem_of_nil in Hi.
    + done.
    + intros _ q Hq. by apply elem_of_nil in Hq.
  - destruct (get_path fuel pm p) as [full|] eqn:E; [|done].
    destruct (IH _ _ H) as (Hdom & Hout & Hin). split; [|split].
    + intros i. rewrite Hdom. cbn [map]. rewrite elem_of_cons.
      destruct (decide (i = pg_id p)) as [->|Hne].
      * rewrite lookup_insert_eq. split; [intros _; right; by left|intros _; left; by eexists].
      * rewrite lookup_insert_ne by done. tauto.
    + intros i Hi. cbn [map] in Hi. apply not_elem_of_cons in Hi as [Hne Hi].
      rewrite (Hout i Hi). by rewrite lookup_insert_ne.
    + intros Hnd q Hq. cbn [map] in Hnd. apply NoDup_cons in Hnd as [Hp Hnd].
      apply elem_of_cons in Hq as [->|Hq].
      * exists full. split; [done|]. rewrite (Hout _ Hp). apply lookup_insert_eq.
      * by apply Hin.
Qed.

End PathFacts.

(** ** The order of the printed names *)

Module OrderFacts.

Lemma text_leb_total : forall a b : text, text_leb a b = true \/ text_leb b a = true.
Proof.
  induction a as [|x a IH]; intros [|y b]; simpl; try tauto.
  destruct (N.ltb_spec (code x) (code y)); [tauto|].
  destruct (N.ltb_spec (code y) (code x)); [tauto|].
  assert (E : code x = code y) by lia. rewrite E, N.eqb_refl. apply IH.
Qed.

Lemma text_leb_trans : forall a b c : text,
  text_leb a b = true -> text_leb b c = true -> text_leb a c = true.
Proof.
  induction a as [|x a IH]; intros [|y b] [|z c]; simpl; try done.
  destruct (N.ltb_spec (code x) (code y)) as [Hxy|Hxy].
  - intros _. destruct (N.ltb_spec (code y) (code z)) as [Hyz|Hyz].
    + intros _. destruct (N.ltb_spec (code x) (code z)); [done|lia].
    + destruct (N.eqb_spec (code y) (code z)) as [E|]; [|done]. intros _.
      destruct (N.ltb_spec (code x) (code z)); [done|lia].
  - destruct (N.eqb_spec (code x) (code y)) as [E|]; [|done]. rewrite E. intros Hab.
    destruct (N.ltb_spec (code y) (code z)); [done|].
    destruct (N.eqb_spec (code y) (code z)); [|done]. by apply IH.
Qed.

Lemma code_inj : forall x y : ascii, code x = code y -> x = y.
Proof.
  intros x y H. unfold code in H.
  rewrite <- (ascii_N_embedding x), <- (ascii_N_embedding y). by rewrite H.
Qed.

Lemma text_leb_antisym : forall a b : text,
  text_leb a b = true -> text_leb b a = true -> a = b.
Proof.
  induction a as [|x a IH]; intros [|y b]; simpl; try done.
  destruct (N.ltb_spec (code x) (code y)) as [Hxy|Hxy].
  - intros _. destruct (N.ltb_spec (code y) (code x)); [lia|].
    destruct (N.eqb_spec (code y) (code x)); [lia|done].
  - destruct (N.eqb_spec (code x) (code y)) as [E|]; [|done]. intros Hab.
    rewrite E. rewrite N.ltb_irrefl, N.eqb_refl. intros Hba.
    f_equal; [by apply code_inj|by apply IH].
Qed.

#[local] Instance text_leb_Total : Total (fun a b : text => Is_true (text_leb a b)).
Proof.
  intros a b. destruct (text_leb_total a b) as [H|H]; [left|right]; by apply Is_true_true.
Qed.

#[local] Instance text_leb_Transitive : Transitive (fun a b : text => Is_true (text_leb a b)).
Proof.
  intros a b c Hab Hbc. apply Is_true_true. apply Is_true_true in Hab, Hbc.
  by eapply text_leb_trans.
Qed.

Lemma printed_sorted reg :
  StronglySorted (fun a b => text_leb a b = true) (printed_shortcodes reg).
Proof.
  assert (H : StronglySorted (fun a b => Is_true (text_leb a b)) (printed_shortcodes reg))
    by (unfold printed_shortcodes; apply StronglySorted_merge_sort; apply _).
  induction H as [|a l Hl IH Ha]; constructor; [done|].
  eapply Forall_impl; [exact Ha|]. intros b Hb. by apply Is_true_true.
Qed.

Lemma printed_perm reg : printed_shortcodes reg ≡ₚ elements reg.
Proof. unfold printed_shortcodes. apply merge_sort_Permutation. Qed.

End OrderFacts.

(** ** The documents of a batch *)

Module DocumentFacts.



Lemma transform_items_cons u now ty base it items reg :
  transform_items u now ty base (it :: items) reg
  = match transform_content u (default [] (it_content it)) base reg with
    | (reg', Raise e) => (reg', Raise e)
    | (reg', OK content) =>
      match transform_items u now ty base items reg' with
      | (reg'', OK docs) =>
        (reg'', OK ((default (slugify (default (py "untitled") (it_title it))) (it_slug it),
                     generate_frontmatter now it ty ++ [newline; newline] ++ content) :: docs))
      | (reg'', Raise e) => (reg'', Raise e)
      end
    end.
Proof. reflexivity. Qed.

End DocumentFacts.

(** ** Plain prose *)

Module ProseFacts.
Import Re Lang MatchFacts StrFacts SubFacts MacroFacts.

Lemma inert_must_have c r s : must_have c r = true -> ~ In c s -> inert s r.
Proof.
  intros H Hs t [k ->]. apply no_match_must_have with c; [done|].
  intros Hin. apply Hs. apply in_or_app. by right.
Qed.

Lemma inert_no_prefix r s : contains (lit_prefix r) s = false -> inert s r.
Proof.
  intros H t Ht. apply no_match_prefix. by eapply LinkFacts.contains_suffix.
Qed.

Lemma sub_inert r t s : inert s r -> Match.sub r t s = s.
Proof. apply sub_fn_inert. Qed.

Lemma rules_inert_markup rules s :
  forallb needs_markup rules = true ->
  ~ In "<"%char s -> ~ In "{"%char s -> contains (py "/*") s = false ->
  Forall (fun ru => inert s (rule_regex ru)) rules.
Proof.
  intros H H1 H2 H3. rewrite forallb_forall in H. apply Forall_forall.
  intros ru Hru. apply list_elem_of_In, H in Hru. unfold needs_markup in Hru.
  apply orb_true_iff in Hru as [Hru|Hru]; [apply orb_true_iff in Hru as [Hru|Hru]|].
  - by apply (inert_must_have "<").
  - by apply (inert_must_have "{").
  - apply bool_decide_eq_true in Hru. apply inert_no_prefix. by rewrite Hru.
Qed.

Lemma markup_rules_need_markup : forallb needs_markup markup_rules = true.
Proof. by vm_compute. Qed.

Lemma gutenberg_rules_need_markup : forallb needs_markup gutenberg_rules = true.
Proof. by vm_compute. Qed.

(** Replacing a character that does not occur. *)
Lemma str_replace_absent c new s : ~ In c s -> str_replace [c] new s = s.
Proof.
  intros H. rewrite SlugFacts.replace_char. induction s as [|a s IH]; [done|].
  cbn [flat_map]. destruct (Ascii.eqb_spec c a) as [->|_].
  - exfalso. apply H. by left.
  - cbn [app]. f_equal. apply IH. intros Hin. apply H. by right.
Qed.

(** Runs of a class that are single [d] already are left as they are. *)
Lemma collapse_id p d : forall s b,
  (forall c, In c s -> p c = true -> c = d) ->
  contains [d; d] s = false ->
  (b = true -> is_prefix [d] s = false) ->
  collapse p [d] b s = s.
Proof.
  induction s as [|c s IH]; intros b Hp Hdd Hb; [done|].
  cbn [contains] in Hdd. apply orb_false_iff in Hdd as [Hhd Hdd].
  cbn [collapse]. destruct (p c) eqn:E.
  - assert (c = d) as -> by (apply Hp; [by left|done]).
    destruct b.
    + specialize (Hb eq_refl). cbn [is_prefix] in Hb. by rewrite Ascii.eqb_refl in Hb.
    + cbn [app]. f_equal. apply IH; [intros; apply Hp; [by right|done]|done|].
      intros _. cbn [is_prefix] in Hhd. rewrite Ascii.eqb_refl in Hhd. cbn [andb] in Hhd.
      exact Hhd.
  - f_equal. apply IH; [intros; apply Hp; [by right|done]|done|done].
Qed.

Lemma cls_chr a c : cls_mem false [IChar a] c = Ascii.eqb c a.
Proof. unfold cls_mem. simpl. by rewrite orb_false_r, Ascii.eqb_sym. Qed.

(** A greedy repetition that matches has taken its least number of
    characters of the class. *)
Lemma greedy_run_least p : forall s lo hi c k x,
  greedy_run p lo hi s c k = Some x ->
  lo <= length s /\ Forall (fun a => p a = true) (take lo s).
Proof.
  induction s as [|a s IH]; intros lo hi c k x H.
  - destruct lo; [split; [simpl; lia|constructor]|done].
  - assert (Hstop : lo = 0 -> lo <= length (a :: s)
                              /\ Forall (fun a => p a = true) (take lo (a :: s))).
    { intros ->. split; [simpl; lia|constructor]. }
    cbn [greedy_run] in H.
    destruct (p a) eqn:E.
    + destruct (greedy_run p (pred lo) (option_map pred hi) s c k) as [y|] eqn:G.
      * apply IH in G as [G1 G2]. destruct lo as [|lo]; [by apply Hstop|].
        destruct hi as [[|n]|]; [done| |]; (split; [simpl in *; lia|by constructor]).
      * apply Hstop. destruct lo; [done|]. by destruct hi as [[|n]|].
    + apply Hstop. destruct lo; [done|]. by destruct hi as [[|n]|].
Qed.

(** The four patterns of the white-space clean-up. *)
Lemma newlines_inert s : contains (py "\n\n\n") s = false -> inert s (re "\n{3,}").
Proof.
  intros H t Ht. pose proof (LinkFacts.contains_suffix _ _ _ H Ht) as Hp.
  unfold match_here. reify_re. rewrite exec_Rep_greedy.
  match goal with |- ?g = None => destruct g as [x|] eqn:G; [|done] end.
  apply greedy_run_least in G as [G1 G2]. exfalso.
  destruct t as [|a [|b [|c t]]]; try (simpl in G1; lia).
  cbn [take] in G2. rewrite !Forall_cons in G2. destruct G2 as (Ha & Hb & Hc & _).
  rewrite cls_chr in Ha, Hb, Hc. apply Ascii.eqb_eq in Ha, Hb, Hc. subst.
  by vm_compute in Hp.
Qed.

Lemma newline_spaces_inert s : contains (py "\n ") s = false -> inert s (re "\n +").
Proof.
  intros H t Ht. pose proof (LinkFacts.contains_suffix _ _ _ H Ht) as Hp.
  unfold match_here. reify_re. rewrite exec_Seq.
  destruct t as [|a t]; [reflexivity|]. rewrite exec_Cls_cons, cls_chr.
  destruct (Ascii.eqb_spec a "010") as [->|]; [|done].
  rewrite exec_Rep_greedy.
  match goal with |- ?g = None => destruct g as [x|] eqn:G; [|done] end.
  apply greedy_run_least in G as [G1 G2]. exfalso.
  destruct t as [|b t]; [simpl in G1; lia|].
  cbn [take] in G2. rewrite !Forall_cons in G2. destruct G2 as (Hb & _).
  rewrite cls_chr in Hb. apply Ascii.eqb_eq in Hb. subst.
  by vm_compute in Hp.
Qed.

Lemma spaces_newline_run k : forall t lo c,
  contains (py " \n") t = false ->
  (lo = 0 -> is_prefix [newline] t = false) ->
  greedy_run (cls_mem false [IChar " "]) lo None t c
    (fun s' c' => exec (Chr newline) s' c' k) = None.
Proof.
  induction t as [|a t IH]; intros lo c H Hlo.
  - cbn [greedy_run]. by destruct (lo =? 0).
  - assert (Hstop : (if lo =? 0 then exec (Chr newline) (a :: t) c k else None) = None).
    { destruct lo; [|done]. specialize (Hlo eq_refl). cbn [Nat.eqb].
      unfold Chr. rewrite exec_Cls_cons, cls_chr.
      cbn [is_prefix] in Hlo. rewrite andb_true_r, Ascii.eqb_sym in Hlo. by rewrite Hlo. }
    cbn [greedy_run option_map]. rewrite cls_chr.
    destruct (Ascii.eqb_spec a " ") as [->|]; [|exact Hstop].
    rewrite IH; [exact Hstop| |].
    + cbn [contains] in H. by apply orb_false_iff in H as [_ H].
    + intros _. cbn [contains] in H. apply orb_false_iff in H as [H _].
      revert H. change (py " \n") with [" "%char; newline]. cbn [is_prefix].
      by rewrite Ascii.eqb_refl.
Qed.

Lemma spaces_newline_inert s : contains (py " \n") s = false -> inert s (re " +\n").
Proof.
  intros H t Ht. pose proof (contains_drop_suffix _ _ _ H Ht) as Hp.
  unfold match_here. reify_re. rewrite exec_Seq, exec_Rep_greedy.
  by apply spaces_newline_run.
Qed.

Lemma spaces_identity s :
  ~ In tab s -> contains (py "  ") s = false ->
  Match.sub (re "[ \t]+") (tpl " ") s = s.
Proof.
  intros Ht Hs. unfold Match.sub. reify_re.
  rewrite (SlugFacts.sub_fn_ext _ _ (fun _ => [" "%char])) by done.
  rewrite sub_fn_plus. apply collapse_id; [|done|done].
  intros c Hc Hp. unfold cls_mem in Hp. simpl in Hp. rewrite orb_false_r in Hp.
  apply orb_true_iff in Hp as [Hp|Hp]; apply Ascii.eqb_eq in Hp; [done|].
  subst. done.
Qed.

Lemma whitespace_rules_identity s :
  tidy s = true -> apply_rules whitespace_rules s = s.
Proof.
  unfold tidy. rewrite !andb_true_iff, !negb_true_iff.
  intros [[[[[Htab Hss] Hns] Hsn] Hnnn] _].
  unfold whitespace_rules, apply_rules. cbn [fold_left apply_rule]. unfold Match.sub at 4.
  rewrite (sub_fn_inert _ _ s (newlines_inert s Hnnn)).
  rewrite spaces_identity; [|by apply Forall_not_In, Forall_forall; intros c Hc;
    rewrite forallb_forall in Htab; apply list_elem_of_In, Htab, negb_true_iff in Hc;
    intros ->; rewrite Ascii.eqb_refl in Hc|done].
  unfold Match.sub.
  rewrite (sub_fn_inert _ _ s (newline_spaces_inert s Hns)).
  by rewrite (sub_fn_inert _ _ s (spaces_newline_inert s Hsn)).
Qed.

Lemma markup_free_spec s :
  markup_free s = true ->
  (~ In "<"%char s /\ ~ In "["%char s /\ ~ In "&"%char s
   /\ ~ In "{"%char s /\ ~ In "}"%char s)
  /\ contains (py "/*") s = false.
Proof.
  unfold markup_free. rewrite andb_true_iff, negb_true_iff. intros [H ->].
  split; [|done]. rewrite forallb_forall in H.
  repeat split; intros Hin; apply H in Hin; by vm_compute in Hin.
Qed.

Section WithUnescape.

Variable html_unescape : text -> text.
Hypothesis unescape_plain_text : forall s, ~ In "&"%char s -> html_unescape s = s.

Lemma html_to_markdown_identity s :
  markup_free s = true -> tidy s = true -> html_to_markdown html_unescape s = s.
Proof.
  intros Hm Ht. destruct (markup_free_spec s Hm) as [(H1 & H2 & H3 & H4 & H5) H6].
  unfold html_to_markdown. destruct s as [|a s']; [done|].
  remember (a :: s') as s eqn:Es. clear Es a s'.
  rewrite (apply_rules_inert markup_rules s)
    by (apply rules_inert_markup; [apply markup_rules_need_markup|done..]).
  rewrite unescape_plain_text by done.
  unfold escape_braces. change (py "{") with ["{"%char]. change (py "}") with ["}"%char].
  rewrite (str_replace_absent "{") by done. rewrite (str_replace_absent "}") by done.
  rewrite whitespace_rules_identity by done.
  unfold tidy in Ht. apply andb_true_iff in Ht as [_ Ht].
  by apply bool_decide_eq_true in Ht.
Qed.

Lemma convert_vc_shortcodes_identity s reg :
  ~ In "["%char s -> convert_vc_shortcodes html_unescape s reg = (reg, OK s).
Proof.
  intros H. unfold convert_vc_shortcodes. destruct s as [|a s']; [done|].
  remember (a :: s') as s eqn:Es. clear Es a s'.
  assert (Hin : forall r, starts_only_with "[" r = true -> inert s r)
    by (intros r Hr t Ht; by apply (inert_without "["%char r s)).
  f_equal.
  - unfold track_shortcodes. rewrite scan_no_match by (apply Hin; by vm_compute).
    apply TrackFacts.track_fold_gaps.
  - rewrite (apply_rules_inert row_rules s)
      by (apply (rules_inert_without "["); [by vm_compute|done]).
    rewrite sub_try_inert by (apply Hin; by vm_compute). cbn [bind].
    rewrite sub_inert by (apply Hin; by vm_compute).
    rewrite sub_try_inert by (apply Hin; by vm_compute). cbn [bind].
    rewrite sub_inert by (apply Hin; by vm_compute).
    rewrite (apply_rules_inert (shortcode_rules html_unescape) s)
      by (apply (rules_inert_without "["); [by vm_compute|done]).
    reflexivity.
Qed.

Lemma transform_content_nonempty s base_url reg :
  s <> [] ->
  transform_content html_unescape s base_url reg
  = let '(reg', converted) :=
      convert_vc_shortcodes html_unescape (convert_gutenberg_blocks s) reg in
    (reg',
     content <- converted ;;
     OK (strip (Match.sub (re "\n{3,}") (tpl "\n\n")
                  (clean_html html_unescape (convert_internal_links content base_url))))).
Proof. by destruct s. Qed.

Lemma convert_gutenberg_blocks_identity s :
  ~ In "<"%char s -> convert_gutenberg_blocks s = s.
Proof.
  intros H. destruct s as [|a s']; [done|]. unfold convert_gutenberg_blocks.
  apply apply_rules_inert. rewrite Forall_forall. intros ru Hru.
  apply (inert_must_have "<"); [|done].
  assert (Hall : forallb (fun ru => must_have "<" (rule_regex ru)) gutenberg_rules = true)
    by (by vm_compute).
  rewrite forallb_forall in Hall. by apply Hall, list_elem_of_In.
Qed.

Lemma convert_internal_links_identity s base_url :
  contains (base_url ++ py "/") s = false -> has_dslash s = false ->
  convert_internal_links s base_url = s.
Proof.
  intros Hb Hd. destruct s as [|a s']; [done|]. by apply LinkFacts.link_rules_identity.
Qed.

Lemma transform_content_identity s base_url reg :
  markup_free s = true -> tidy s = true ->
  contains (base_url ++ py "/") s = false -> has_dslash s = false ->
  transform_content html_unescape s base_url reg = (reg, OK s).
Proof.
  intros Hm Ht Hb Hd. destruct (markup_free_spec s Hm) as [(H1 & H2 & H3 & H4 & H5) H6].
  destruct (decide (s = [])) as [->|Hne]; [done|].
  rewrite transform_content_nonempty by done.
  rewrite convert_gutenberg_blocks_identity, convert_vc_shortcodes_identity by done.
  cbn [bind]. f_equal.
  rewrite convert_internal_links_identity by done.
  unfold clean_html. rewrite html_to_markdown_identity by done.
  unfold tidy in Ht. rewrite !andb_true_iff, !negb_true_iff in Ht.
  destruct Ht as [[[[[_ _] _] _] Hnnn] Hs].
  rewrite (sub_inert _ _ s (newlines_inert s Hnnn)).
  apply bool_decide_eq_true in Hs. by rewrite Hs.
Qed.

End WithUnescape.

End ProseFacts.

(** ** The column macro *)

Module ColumnFacts.
Import Re Lang MatchFacts StrFacts SubFacts CharFacts MacroFacts AttrFacts ButtonFacts.

Lemma column_match attrs :
  ~ In "]"%char attrs ->
  match_here (re "\[vc_column([^\]]*)\]") false (py "[vc_column" ++ attrs ++ py "]")
  = Some ([], [(1, attrs)]).
Proof.
  intros Hattrs. reify_re. norm_py. unfold match_here.
  rewrite !exec_Seq_Chr, exec_Seq, exec_Grp, exec_Rep_greedy.
  apply greedy_run_app.
  - apply Forall_forall. intros a Ha. unfold cls_mem. cbn [existsb item_mem xorb].
    rewrite orb_false_r. destruct (Ascii.eqb_spec a "]") as [->|]; [|done].
    exfalso. by apply Hattrs, list_elem_of_In.
  - done.
  - lia.
  - rewrite take_app_rest, exec_Cls_cons. done.
Qed.

Lemma width_pattern : attr_pattern (re "width=`([^`]+)`") (py "width=`").
Proof.
  split; [by vm_compute|]. split; [by vm_compute|].
  intros s c k. reify_re. norm_py. by rewrite !exec_Seq_Chr.
Qed.

Lemma offset_pattern : attr_pattern (re "offset=`([^`]+)`") (py "offset=`").
Proof.
  split; [by vm_compute|]. split; [by vm_compute|].
  intros s c k. reify_re. norm_py. by rewrite !exec_Seq_Chr.
Qed.

Lemma contains_intro x : forall a b, contains x (a ++ x ++ b) = true.
Proof.
  induction a as [|c a IH]; intros b.
  - cbn [app]. destruct (x ++ b) eqn:E; simpl; rewrite <- ?E, is_prefix_app; done.
  - cbn [app contains]. by rewrite IH, orb_true_r.
Qed.

Lemma split_loop_run (d : ascii) : forall A cur rest,
  ~ In d A ->
  split_loop [d] 0 cur (A ++ rest) = split_loop [d] 0 (rev A ++ cur) rest.
Proof.
  induction A as [|a A IH]; intros cur rest H; [done|].
  cbn [app split_loop is_prefix].
  destruct (Ascii.eqb_spec d a) as [->|Hne]; [exfalso; apply H; by left|].
  cbn [andb]. rewrite IH by (intros Hin; apply H; by right).
  cbn [rev]. by rewrite <- app_assoc.
Qed.

Lemma str_split_two (d : ascii) A B :
  ~ In d A -> ~ In d B -> str_split [d] (A ++ d :: B) = [A; B].
Proof.
  intros HA HB. unfold str_split. rewrite split_loop_run by done.
  cbn [split_loop is_prefix]. rewrite Ascii.eqb_refl. cbn [andb length Nat.sub].
  rewrite app_nil_r, rev_involutive. f_equal.
  rewrite <- (app_nil_r B), split_loop_run by done. cbn [split_loop].
  by rewrite !app_nil_r, rev_involutive.
Qed.

Lemma drop_while_id p s : stops p s -> drop_while p s = s.
Proof. destruct s as [|a s]; [done|]. simpl. by intros ->. Qed.

Lemma strip_with_id p s :
  Forall (fun c => p c = false) s -> strip_with p s = s.
Proof.
  intros H. unfold strip_with.
  rewrite (drop_while_id p s) by (by destruct H).
  rewrite drop_while_id; [apply rev_involutive|].
  apply Forall_rev in H. by destruct H.
Qed.

Lemma int_digits_all : forall ds acc b,
  Forall (fun c => is_digit c = true) ds -> ds <> [] \/ b = true ->
  int_digits ds acc b
  = Some (fold_left (fun acc c => (10 * acc + (code c - 48))%N) ds acc).
Proof.
  induction ds as [|c ds IH]; intros acc b H Hne.
  - destruct Hne as [Hn| ->]; done.
  - apply Forall_cons in H as [Hc H]. cbn [int_digits fold_left]. rewrite Hc.
    apply IH; [done|by right].
Qed.

(** [int] of a run of decimal digits. *)
Lemma int_of_str_digits ds :
  ds <> [] -> Forall (fun c => is_digit c = true) ds ->
  int_of_str ds = OK (Z.of_N (numeral_value ds)).
Proof.
  intros Hne H. unfold int_of_str, strip.
  assert (Hdig : forall c, is_digit c = true ->
            is_space c = false /\ Ascii.eqb c "-" = false /\ Ascii.eqb c "+" = false).
  { intros c Hc.
    pose proof (forall_chars (fun c => implb (is_digit c)
      (negb (is_space c) && negb (Ascii.eqb c "-") && negb (Ascii.eqb c "+")))
      ltac:(by vm_compute) c) as Hall.
    cbv beta in Hall. rewrite Hc in Hall. cbn [implb] in Hall.
    rewrite !andb_true_iff, !negb_true_iff in Hall. tauto. }
  rewrite strip_with_id
    by (eapply Forall_impl; [exact H|]; intros c Hc; by apply Hdig).
  destruct ds as [|c ds]; [done|].
  pose proof (Forall_inv H) as Hc. destruct (Hdig c Hc) as (_ & -> & ->).
  by rewrite int_digits_all by (done || by left).
Qed.

Lemma digit_char_digit d : (d < 10)%N -> is_digit (digit_char d) = true.
Proof.
  intros H. assert (Hd : In d (map N.of_nat (seq 0 10))).
  { apply in_map_iff. exists (N.to_nat d). split; [lia|]. apply in_seq. lia. }
  simpl in Hd. repeat (destruct Hd as [<-|Hd]; [by vm_compute|]). done.
Qed.

Lemma dec_digits_digits : forall fuel n acc,
  Forall (fun c => is_digit c = true) acc ->
  Forall (fun c => is_digit c = true) (dec_digits fuel n acc).
Proof.
  induction fuel as [|fuel IH]; intros n acc H; [done|]. cbn [dec_digits].
  assert (Forall (fun c => is_digit c = true) (digit_char (n mod 10) :: acc)).
  { constructor; [|done]. apply digit_char_digit. by apply N.mod_lt. }
  destruct (n / 10 =? 0)%N; [done|by apply IH].
Qed.

Lemma str_of_Z_no_bracket z : ~ In "["%char (str_of_Z z).
Proof.
  assert (H : forall n, ~ In "["%char (str_of_N n)).
  { intros n Hin. pose proof (dec_digits_digits (S (N.to_nat (N.log2 n))) n [] ltac:(constructor)) as Hd.
    rewrite Forall_forall in Hd. apply list_elem_of_In, Hd in Hin. by vm_compute in Hin. }
  destruct z as [|p|p]; [apply (H 0%N)|apply (H (Npos p))|].
  cbn [str_of_Z]. intros [Hc|Hin]; [done|by apply H in Hin].
Qed.

Lemma fraction_chars num den :
  Forall (fun c => is_digit c = true) num -> Forall (fun c => is_digit c = true) den ->
  Forall (fun c => is_digit c = true \/ c = "/"%char) (fraction num den).
Proof.
  intros Hn Hd. unfold fraction. apply Forall_app. split; [|apply Forall_cons; split].
  - eapply Forall_impl; [exact Hn|]. by left.
  - by right.
  - eapply Forall_impl; [exact Hd|]. by left.
Qed.

Lemma fraction_lacks num den (c : ascii) :
  Forall (fun c => is_digit c = true) num -> Forall (fun c => is_digit c = true) den ->
  is_digit c = false -> c <> "/"%char -> ~ In c (fraction num den).
Proof.
  intros Hn Hd Hc Hs Hin. pose proof (fraction_chars num den Hn Hd) as H.
  rewrite Forall_forall in H. apply list_elem_of_In, H in Hin as [Hin|Hin]; congruence.
Qed.

Lemma not_suffix_lacking (Q V : text) (c : ascii) : In c Q -> ~ In c V -> ~ (Q `suffix_of` V).
Proof. intros HQ HV [k ->]. apply HV, in_or_app. by right. Qed.

(** The two searches of [convert_column] in the attribute text of a column
    with a fraction as width. *)
Lemma search_width_fraction num den offset :
  num <> [] ->
  Forall (fun c => is_digit c = true) num -> Forall (fun c => is_digit c = true) den ->
  attr_search "width=`([^`]+)`"
    (attribute "width" (Some (fraction num den)) ++ attribute "offset" offset)
  = Some (fraction num den).
Proof.
  intros Hne Hn Hd. unfold attr_search, attribute at 1.
  replace ((py " " ++ py "width" ++ py "=`" ++ fraction num den ++ py "`")
             ++ attribute "offset" offset)
    with (py " " ++ py "width=`" ++ fraction num den ++ dquote :: attribute "offset" offset)
    by (norm_py; rewrite <- !app_assoc; by cbn [app]).
  apply (attr_found _ _ _ _ _ width_pattern).
  - unfold fraction. by destruct num.
  - by apply fraction_lacks.
  - intros A' Hne' HA'. revert A' Hne' HA'. apply tails_spec. prefix_tests.
Qed.

Lemma search_offset_fraction num den offset :
  Forall (fun c => is_digit c = true) num -> Forall (fun c => is_digit c = true) den ->
  (forall o, offset = Some o -> plain_value o) ->
  attr_search "offset=`([^`]+)`"
    (attribute "width" (Some (fraction num den)) ++ attribute "offset" offset)
  = offset.
Proof.
  intros Hn Hd Ho. unfold attr_search.
  assert (Hq : ~ In dquote (fraction num den)) by (by apply fraction_lacks).
  assert (Hend : ~ (py "offset=" `suffix_of` fraction num den)).
  { apply (not_suffix_lacking _ _ "="%char); [by vm_compute; tauto|by apply fraction_lacks]. }
  destruct offset as [o|]; unfold attribute.
  - destruct (plain_value_quote o (Ho o eq_refl)) as [Hone Hoq].
    replace ((py " " ++ py "width" ++ py "=`" ++ fraction num den ++ py "`")
               ++ py " " ++ py "offset" ++ py "=`" ++ o ++ py "`")
      with ((py " width=`" ++ fraction num den ++ dquote :: py " ")
              ++ py "offset=`" ++ o ++ dquote :: [])
      by (norm_py; rewrite <- !app_assoc; by cbn [app]).
    apply (attr_found _ _ _ _ _ offset_pattern Hone Hoq).
    apply (no_start_in_attr (py "offset=") (py " width=`") (fraction num den) (py " "));
      try done.
    + by vm_compute; intuition discriminate.
    + prefix_tests.
    + prefix_tests.
  - rewrite app_nil_r.
    replace (py " " ++ py "width" ++ py "=`" ++ fraction num den ++ py "`")
      with (py " width=`" ++ fraction num den ++ dquote :: [])
      by (norm_py; by cbn [app]).
    apply (attr_absent _ _ _ offset_pattern).
    intros s' Hne Hs'. rewrite <- (app_nil_r s').
    revert s' Hne Hs'.
    apply (no_start_in_attr (py "offset=") (py " width=`") (fraction num den) [] []);
      try done.
    + by vm_compute; intuition discriminate.
    + prefix_tests.
    + prefix_tests.
Qed.

(** The two searches in the attribute text of a column without a width. *)
Lemma search_width_absent offset :
  (forall o, offset = Some o -> plain_value o /\ ~ (py "width=" `suffix_of` o)) ->
  attr_search "width=`([^`]+)`" (attribute "width" None ++ attribute "offset" offset) = None.
Proof.
  intros Ho. unfold attr_search. cbn [attribute app].
  destruct offset as [o|]; unfold attribute; [|by vm_compute].
  destruct (Ho o eq_refl) as [Hp Hend]. apply plain_value_quote in Hp as [_ Hoq].
  replace (py " " ++ py "offset" ++ py "=`" ++ o ++ py "`")
    with (py " offset=`" ++ o ++ dquote :: [])
    by (norm_py; by cbn [app]).
  apply (attr_absent _ _ _ width_pattern).
  intros s' Hne Hs'. rewrite <- (app_nil_r s').
  revert s' Hne Hs'.
  apply (no_start_in_attr (py "width=") (py " offset=`") o [] []); try done.
  + by vm_compute; intuition discriminate.
  + prefix_tests.
  + prefix_tests.
Qed.

Lemma search_offset_alone offset :
  (forall o, offset = Some o -> plain_value o) ->
  attr_search "offset=`([^`]+)`" (attribute "width" None ++ attribute "offset" offset)
  = offset.
Proof.
  intros Ho. unfold attr_search. cbn [attribute app].
  destruct offset as [o|]; unfold attribute; [|by vm_compute].
  destruct (plain_value_quote o (Ho o eq_refl)) as [Hone Hoq].
  replace (py " " ++ py "offset" ++ py "=`" ++ o ++ py "`")
    with (py " " ++ py "offset=`" ++ o ++ dquote :: [])
    by (norm_py; by cbn [app]).
  apply (attr_found _ _ _ _ _ offset_pattern Hone Hoq).
  intros A' Hne HA'. revert A' Hne HA'. apply tails_spec. prefix_tests.
Qed.

Lemma digits_lack (ds : text) (c : ascii) :
  Forall (fun c => is_digit c = true) ds -> is_digit c = false -> ~ In c ds.
Proof.
  intros H Hc Hin. rewrite Forall_forall in H. apply list_elem_of_In, H in Hin. congruence.
Qed.

(** [convert_column] on a fraction width. *)
Lemma convert_column_fraction whole num den offset :
  num <> [] -> den <> [] ->
  Forall (fun c => is_digit c = true) num -> Forall (fun c => is_digit c = true) den ->
  (forall o, offset = Some o -> plain_value o) ->
  convert_column
    (MatchObj whole
       [(1, attribute "width" (Some (fraction num den)) ++ attribute "offset" offset)])
  = (pct <- width_percent (Z.of_N (numeral_value num)) (Z.of_N (numeral_value den)) ;;
     OK (py "<div class=`column w-" ++ str_of_Z pct ++ offset_class offset ++ py "`>")).
Proof.
  intros Hnn Hdn Hn Hd Ho. unfold convert_column. cbv zeta.
  change (group1 (MatchObj whole ?c)) with
    (attribute "width" (Some (fraction num den)) ++ attribute "offset" offset).
  rewrite search_width_fraction, search_offset_fraction by done.
  unfold fraction at 1. rewrite contains_intro.
  unfold fraction at 1. change (py "/") with ["/"%char]. cbn [app].
  rewrite str_split_two by (by apply digits_lack).
  rewrite !int_of_str_digits by done. cbn [bind]. unfold width_percent.
  destruct (Float.true_div _ _) as [q|e]; [|done]. cbn [bind].
  destruct (Float.to_int _) as [pct|e]; [|done]. cbn [bind].
  f_equal. destruct offset as [o|]; cbn [offset_class app join].
  - norm_py. rewrite <- ?app_assoc. by cbn [app].
  - norm_py. rewrite <- ?app_assoc. by cbn [app].
Qed.

(** [convert_column] without a width. *)
Lemma convert_column_plain whole offset :
  (forall o, offset = Some o -> plain_value o /\ ~ (py "width=" `suffix_of` o)) ->
  convert_column
    (MatchObj whole [(1, attribute "width" None ++ attribute "offset" offset)])
  = OK (py "<div class=`column" ++ offset_class offset ++ py "`>").
Proof.
  intros Ho. unfold convert_column. cbv zeta.
  change (group1 (MatchObj whole ?c)) with
    (attribute "width" None ++ attribute "offset" offset).
  rewrite search_width_absent by done.
  rewrite search_offset_alone by (intros o Hoo; by destruct (Ho o Hoo)).
  cbn [bind]. f_equal. destruct offset as [o|]; cbn [offset_class app join].
  - norm_py. rewrite <- ?app_assoc. by cbn [app].
  - done.
Qed.

Lemma offset_class_no_bracket offset :
  (forall o, offset = Some o -> plain_value o) -> ~ In "["%char (offset_class offset).
Proof.
  intros Ho. destruct offset as [o|]; [|by intros []]. cbn [offset_class].
  destruct (Ho o eq_refl) as [_ Hp].
  intros Hin. apply in_app_or in Hin as [Hin|Hin]; [by vm_compute in Hin; intuition|].
  revert Hin. apply Forall_not_In, str_replace_Forall.
  - eapply Forall_impl; [exact Hp|]. intros c (_ & Hc & _). exact Hc.
  - vm_compute. repeat constructor; discriminate.
Qed.


(** The pipeline of [convert_vc_shortcodes] on a text that is one column
    macro: the result is what [convert_column] returns for the macro. *)
Lemma column_pipeline (html_unescape : text -> text) attrs reg res :
  ~ In "]"%char attrs -> ~ In "["%char attrs ->
  convert_column (MatchObj (py "[vc_column" ++ attrs ++ py "]") [(1, attrs)]) = res ->
  (forall out, res = OK out -> ~ In "["%char out) ->
  snd (convert_vc_shortcodes html_unescape (py "[vc_column" ++ attrs ++ py "]") reg) = res.
Proof.
  intros H1 H2 Hres Hout.
  assert (Hs : ~ In "["%char (py "vc_column" ++ attrs ++ py "]")).
  { intros Hin. apply in_app_or in Hin as [Hin|Hin]; [by vm_compute in Hin; intuition|].
    apply in_app_or in Hin as [Hin|Hin]; [done|by vm_compute in Hin; intuition]. }
  change (py "[vc_column" ++ attrs ++ py "]")
    with ("["%char :: py "vc_column" ++ attrs ++ py "]") in *.
  unfold convert_vc_shortcodes. cbn [snd].
  rewrite (apply_rules_inert row_rules)
    by (apply (rules_inert_at_head "["); [by vm_compute|by vm_compute|done]).
  rewrite (sub_try_whole _ _ _ [(1, attrs)]);
    [|by vm_compute|done|by apply column_match].
  rewrite Hres. destruct res as [out|e]; [|done]. cbn [bind].
  specialize (Hout out eq_refl).
  assert (Hin : forall r, starts_only_with "[" r = true -> inert out r)
    by (intros r Hr t Ht; by apply (inert_without "["%char r out)).
  rewrite ProseFacts.sub_inert by (apply Hin; by vm_compute).
  rewrite sub_try_inert by (apply Hin; by vm_compute). cbn [bind].
  rewrite ProseFacts.sub_inert by (apply Hin; by vm_compute).
  rewrite (apply_rules_inert (shortcode_rules html_unescape) out)
    by (apply (rules_inert_without "["); [by vm_compute|done]).
  reflexivity.
Qed.

Lemma attribute_lacks name value (c : ascii) :
  ~ In c (py " " ++ py name ++ py "=`") -> c <> dquote ->
  (forall v, value = Some v -> ~ In c v) -> ~ In c (attribute name value).
Proof.
  intros Hn Hq Hv. destruct value as [v|]; [|by intros []]. unfold attribute.
  specialize (Hv v eq_refl). rewrite !in_app_iff in *.
  intros [H|[H|[H|[H|H]]]]; try tauto. destruct H as [H|[]]. by apply Hq.
Qed.

(** A column macro with a fraction as width: the result of the whole
    conversion. *)
Lemma column_fraction_result (html_unescape : text -> text) num den offset reg :
  num <> [] -> den <> [] ->
  Forall (fun c => is_digit c = true) num -> Forall (fun c => is_digit c = true) den ->
  (forall o, offset = Some o -> plain_value o) ->
  snd (convert_vc_shortcodes html_unescape
         (column_macro (Some (fraction num den)) offset) reg)
  = (pct <- width_percent (Z.of_N (numeral_value num)) (Z.of_N (numeral_value den)) ;;
     OK (py "<div class=`column w-" ++ str_of_Z pct ++ offset_class offset ++ py "`>")).
Proof.
  intros Hnn Hdn Hn Hd Ho. unfold column_macro. rewrite (app_assoc (attribute _ _)).
  assert (Hlack : forall c : ascii, is_digit c = false -> c <> "/"%char -> c <> dquote ->
            ~ In c (py " " ++ py "width" ++ py "=`") ->
            ~ In c (py " " ++ py "offset" ++ py "=`") ->
            (forall o, offset = Some o -> ~ In c o) ->
            ~ In c (attribute "width" (Some (fraction num den)) ++ attribute "offset" offset)).
  { intros c H1 H2 H3 H4 H5 H6 Hin. apply in_app_or in Hin as [Hin|Hin]; revert Hin.
    - apply attribute_lacks; [done|done|]. intros v [= <-]. by apply fraction_lacks.
    - by apply attribute_lacks. }
  assert (Hplain : forall c : ascii, c = "["%char \/ c = "]"%char ->
            forall o, offset = Some o -> ~ In c o).
  { intros c Hc o Hoo Hin. destruct (Ho o Hoo) as [_ Hp]. rewrite Forall_forall in Hp.
    apply list_elem_of_In, Hp in Hin. destruct Hc as [->| ->]; tauto. }
  apply column_pipeline.
  - apply Hlack; try done; [by vm_compute; intuition..|]. apply Hplain. by right.
  - apply Hlack; try done; [by vm_compute; intuition..|]. apply Hplain. by left.
  - by apply convert_column_fraction.
  - intros out Hout. destruct (width_percent _ _) as [pct|e]; [|done].
    cbn [bind] in Hout.
    assert (Hout' : out = py "<div class=`column w-" ++ str_of_Z pct
                            ++ offset_class offset ++ py "`>") by congruence.
    rewrite Hout', !in_app_iff. intros [H|[H|[H|H]]].
    + by vm_compute in H; intuition.
    + by apply str_of_Z_no_bracket in H.
    + by apply offset_class_no_bracket in H.
    + by vm_compute in H; intuition.
Qed.

(** A column macro without a width. *)
Lemma column_plain_result (html_unescape : text -> text) offset reg :
  (forall o, offset = Some o -> plain_value o /\ ~ (py "width=" `suffix_of` o)) ->
  snd (convert_vc_shortcodes html_unescape (column_macro None offset) reg)
  = OK (py "<div class=`column" ++ offset_class offset ++ py "`>").
Proof.
  intros Ho. unfold column_macro. rewrite (app_assoc (attribute _ _)).
  assert (Ho' : forall o, offset = Some o -> plain_value o)
    by (intros o Hoo; by destruct (Ho o Hoo)).
  assert (Hplain : forall c : ascii, c = "["%char \/ c = "]"%char ->
            ~ In c (attribute "width" None ++ attribute "offset" offset)).
  { intros c Hc. cbn [attribute app]. apply attribute_lacks.
    - destruct Hc as [->| ->]; by vm_compute; intuition.
    - destruct Hc as [->| ->]; done.
    - intros o Hoo Hin. destruct (Ho' o Hoo) as [_ Hp]. rewrite Forall_forall in Hp.
      apply list_elem_of_In, Hp in Hin. destruct Hc as [->| ->]; tauto. }
  apply column_pipeline.
  - apply Hplain. by right.
  - apply Hplain. by left.
  - by apply convert_column_plain.
  - intros out Hout.
    assert (Hout' : out = py "<div class=`column" ++ offset_class offset ++ py "`>")
      by congruence.
    rewrite Hout', !in_app_iff. intros [H|[H|H]].
    + by vm_compute in H; intuition.
    + by apply offset_class_no_bracket in H.
    + by vm_compute in H; intuition.
Qed.

Lemma numeral_zeros ds : Forall (fun c => c = "0"%char) ds -> numeral_value ds = 0%N.
Proof.
  unfold numeral_value. induction 1 as [|c ds -> _ IH]; [done|]. exact IH.
Qed.

(** A test for [plain_value]. *)
Lemma plain_value_test v :
  negb (forallb (fun _ => false) v)
  && forallb (fun c => negb (existsb (Ascii.eqb c) [dquote; "["; "]"; "&"]%char)) v = true ->
  plain_value v.
Proof.
  intros H. apply andb_true_iff in H as [Hne H]. split; [by destruct v|].
  apply Forall_forall. intros c Hc. rewrite forallb_forall in H.
  apply list_elem_of_In, H, negb_true_iff in Hc. cbn [existsb] in Hc.
  rewrite !orb_false_iff in Hc. destruct Hc as (H1 & H2 & H3 & H4 & _).
  repeat split; intros ->; by rewrite Ascii.eqb_refl in *.
Qed.

(** The widths of the twelve-column grid: the double-precision percentage,
    cut off, is the whole part of [100 * a / b]. *)
Definition grid : list N := map N.of_nat (seq 1 12).

Definition grid_check (a b : N) : bool :=
  match width_percent (Z.of_N a) (Z.of_N b) with
  | OK pct => (pct =? Z.of_N (100 * a / b))%Z
  | Raise _ => false
  end
  && bool_decide (str_of_N a <> [])
  && forallb is_digit (str_of_N a)
  && (numeral_value (str_of_N a) =? a)%N.

Lemma grid_checked :
  forallb (fun a => forallb (fun b => grid_check a b && grid_check b a) grid) grid = true.
Proof. by vm_compute. Qed.

Lemma grid_spec (a b : N) :
  (1 <= a <= 12)%N -> (1 <= b <= 12)%N -> grid_check a b = true /\ grid_check b a = true.
Proof.
  intros Ha Hb. pose proof grid_checked as H. rewrite forallb_forall in H.
  assert (Hin : forall n, (1 <= n <= 12)%N -> In n grid).
  { intros n Hn. unfold grid. apply in_map_iff. exists (N.to_nat n).
    split; [lia|]. apply in_seq. lia. }
  specialize (H a (Hin a Ha)). rewrite forallb_forall in H.
  specialize (H b (Hin b Hb)). by apply andb_true_iff in H.
Qed.

End ColumnFacts.

(* ===================================================================== *)
(** * The claims of the specification *)
(* ===================================================================== *)

(** An instance of [html.unescape] for closed examples: on a text without
    an ampersand [html.unescape] returns the text itself, and the examples
    below decode no other text. *)
Definition unescape_plain (s : text) : text := s.

(** C2: for every body text, the output of [transform_content] (and of its
    last stage [html_to_markdown]) holds no raw brace. *)
Theorem C2_no_raw_brace :
  forall (html_unescape : text -> text) (content base_url : text) (reg : registry)
         (out : text),
    snd (transform_content html_unescape content base_url reg) = OK out ->
    (~ In "{"%char out /\ ~ In "}"%char out)
    /\ ~ In "{"%char (html_to_markdown html_unescape content)
    /\ ~ In "}"%char (html_to_markdown html_unescape content).
Proof.
  intros u content base reg out H. split.
  - eapply brace_free_spec, transform_content_brace_free, H.
  - apply brace_free_spec, html_to_markdown_brace_free.
Qed.

Lemma C2_no_raw_brace_witness :
  snd (transform_content unescape_plain (py "<p>if (x) { y } [vc_row]</p>")
         (py "http://example.com") ∅) = OK (py "if (x) &#123; y &#125;")
  /\ ~ In "{"%char (py "if (x) &#123; y &#125;").
Proof.
  assert (H : snd (transform_content unescape_plain (py "<p>if (x) { y } [vc_row]</p>")
                     (py "http://example.com") ∅) = OK (py "if (x) &#123; y &#125;"))
    by (vm_compute; reflexivity).
  split; [exact H|]. exact (proj1 (proj1 (C2_no_raw_brace _ _ _ _ _ H))).
Defined.



(** Three pages, [team] below [about]. *)
Definition example_pages : list page :=
  [ Page 1 (py "root") 0 (py "Root");
    Page 2 (py "about") 0 (py "About");
    Page 3 (py "team") 2 (py "Team") ].

(** C3 (as amended): for every finite collection of page records whose
    parent links form no cycle, [build_page_hierarchy] terminates: every walk
    of [get_path] ends within [length pages + 2] iterations.  The walk keeps
    no set of visited pages. *)
Theorem C3_hierarchy_terminates_without_cycle :
  forall (pages : list page) (fuel : nat),
    acyclic (page_map pages) -> length pages + 2 <= fuel ->
    exists h, build_page_hierarchy fuel pages = Some h.
Proof.
  intros pages fuel Hac Hf. unfold build_page_hierarchy.
  apply HierarchyFacts.build_loop_terminates; [done|].
  pose proof (HierarchyFacts.page_map_size pages). lia.
Qed.

Lemma C3_hierarchy_terminates_without_cycle_witness :
  acyclic (page_map example_pages)
  /\ exists h, build_page_hierarchy 5 example_pages = Some h.
Proof.
  assert (H : acyclic (page_map example_pages))
    by (apply (bool_decide_unpack _); vm_compute; exact I).
  split; [exact H|].
  apply (C3_hierarchy_terminates_without_cycle example_pages 5 H). simpl. lia.
Defined.

(** C3, counterexample: on a page that names itself as its parent the walk of
    [get_path] never ends, whatever the number of iterations allowed. *)
Lemma C3_cycle_never_terminates :
  ~ exists fuel h,
      build_page_hierarchy fuel [Page 1 (py "about") 1 (py "About")] = Some h.
Proof.
  intros (fuel & h & H). unfold build_page_hierarchy in H. simpl in H.
  unfold get_path in H.
  rewrite HierarchyFacts.walk_self_parent in H; [done|done|].
  apply lookup_insert_eq.
Qed.

(** Two posts that hold the same unknown macro. *)
Definition post_with (content : string) : item :=
  Item 1 (Some (py "Post")) (Some (py "post")) None None None None None None None None
       None None None (Some (py content)).





(** C1, counterexample: on the text of a line, two lines that hold one space
    each, and a line, the first application leaves three newlines in a row
    (the newline runs are collapsed before the spaces are removed) and the
    second application collapses them. *)
Lemma C1_not_idempotent :
  html_to_markdown unescape_plain (py "a\n \n \nb") = py "a\n\n\nb"
  /\ html_to_markdown unescape_plain (html_to_markdown unescape_plain (py "a\n \n \nb"))
     = py "a\n\nb"
  /\ html_to_markdown unescape_plain (html_to_markdown unescape_plain (py "a\n \n \nb"))
     <> html_to_markdown unescape_plain (py "a\n \n \nb").
Proof. vm_compute. repeat split. discriminate. Qed.

(** C4, counterexample: for the width [2/3] the class is [w-66], the product
    cut off, and not [w-67], the percentage rounded to the nearest whole
    number. *)
Lemma C4_two_thirds_truncated :
  snd (convert_vc_shortcodes unescape_plain (py "[vc_column width=`2/3`]") ∅)
  = OK (py "<div class=`column w-66`>")
  /\ spec_round_percent 2 3 = 67%Z
  /\ snd (convert_vc_shortcodes unescape_plain (py "[vc_column width=`2/3`]") ∅)
     <> OK (py "<div class=`column w-" ++ str_of_Z (spec_round_percent 2 3) ++ py "`>").
Proof. vm_compute. repeat split. discriminate. Qed.







(** A post with the title [Hello "World"] and no slug. *)
Definition hello_world_post : item :=
  Item 7 (Some (py "Hello `World`")) None (Some (py "2021-05-03T10:00:00")) None
       (Some (py "publish")) None None None None None None None None
       (Some (py "<p>Hello</p>")).

(** C6: for every record that supplies no slug, the frontmatter starts with
    the title line, the embedded quotes of the title escaped, and the
    permalink line, whose value is the slugified title ([Untitled] standing
    for a missing title): lower-case ASCII letters, digits, underscores and
    single hyphens, with no hyphen at either end, diacritics replaced by their
    base letters.  The title [Hello "World"] gives the slug [hello-world]. *)
Theorem C6_permalink_is_slugified_title :
  forall (now : text) (it : item) (item_type : text),
    it_slug it = None ->
    (exists rest,
       generate_frontmatter now it item_type
       = py "---\ntitle: `" ++ escape_quotes (default (py "Untitled") (it_title it))
           ++ py "`\npermalink: `" ++ slugify (default (py "Untitled") (it_title it))
           ++ py "`\n" ++ rest)
    /\ Forall (fun c => slug_char c = true) (slugify (default (py "Untitled") (it_title it)))
    /\ contains (py "--") (slugify (default (py "Untitled") (it_title it))) = false
    /\ is_prefix (py "-") (slugify (default (py "Untitled") (it_title it))) = false
    /\ is_prefix (py "-") (rev (slugify (default (py "Untitled") (it_title it)))) = false
    /\ slugify (py "Hello `World`") = py "hello-world"
    /\ escape_quotes (py "Hello `World`") = py "Hello \\`World\\`"
    /\ slugify (py "  Caf" ++ [ascii_of_nat 233] ++ py " -- Ol" ++ [ascii_of_nat 201] ++ py "! ")
       = py "cafe-ole".
Proof.
  intros now it ty Hslug.
  split; [by apply SlugFacts.frontmatter_head|].
  split; [apply SlugFacts.slugify_chars|].
  destruct (SlugFacts.slugify_hyphens (default (py "Untitled") (it_title it)))
    as (H1 & H2 & H3).
  repeat split; try done; by vm_compute.
Qed.

Lemma C6_permalink_is_slugified_title_witness :
  exists rest,
    generate_frontmatter (py "2024-01-01T00:00:00") hello_world_post (py "post")
    = py "---\ntitle: `Hello \\`World\\``\npermalink: `hello-world`\n" ++ rest.
Proof.
  exact (proj1 (C6_permalink_is_slugified_title (py "2024-01-01T00:00:00")
                  hello_world_post (py "post") eq_refl)).
Defined.

(* ===================================================================== *)
(** * Further properties of the code *)
(* ===================================================================== *)

(** A page below a parent: the full path is the parent's full path, a slash
    and the page's slug; a page without a parent in the collection has its
    slug as full path. *)
Theorem get_path_extends_parent_path :
  forall (fuel : nat) (pm : gmap Z page) (p : page) (full : text),
    get_path fuel pm p = Some full ->
    match pm !! pg_parentId p with
    | Some parent =>
      if (0 <? pg_parentId p)%Z
      then exists up, get_path fuel pm parent = Some up
                      /\ full = up ++ py "/" ++ pg_slug p
      else full = pg_slug p
    | None => full = pg_slug p
    end.
Proof.
  intros fuel pm p full H. unfold get_path in *.
  destruct fuel as [|fuel]; [done|]. cbn [walk] in H.
  destruct (pm !! pg_parentId p) as [parent|] eqn:E.
  - destruct (0 <? pg_parentId p)%Z; [|by injection H as <-].
    destruct (walk fuel pm [pg_slug parent; pg_slug p] parent) as [x|] eqn:W; [|done].
    injection H as <-.
    destruct (PathFacts.walk_prepends _ _ _ _ _ W) as (pre & -> & Hpre).
    exists (join (py "/") (pre ++ [pg_slug parent])). split.
    + rewrite (HierarchyFacts.walk_mono pm fuel (S fuel) _ _ _ (Hpre [pg_slug parent])) by lia.
      done.
    + change [pg_slug parent; pg_slug p] with ([pg_slug parent] ++ [pg_slug p]).
      rewrite app_assoc. apply PathFacts.join_snoc. by destruct pre.
  - destruct (0 <? pg_parentId p)%Z; by injection H as <-.
Qed.

Lemma get_path_extends_parent_path_witness :
  exists up, get_path 5 (page_map example_pages) (Page 2 (py "about") 0 (py "About")) = Some up
             /\ py "about/team" = up ++ py "/" ++ py "team".
Proof.
  exact (get_path_extends_parent_path 5 (page_map example_pages)
           (Page 3 (py "team") 2 (py "Team")) (py "about/team") eq_refl).
Defined.

(** The hierarchy [build_page_hierarchy] returns has exactly the ids of the
    pages as keys, and, when no two pages share an id, maps each page's id
    to its slug, full path, parent id and title. *)
Theorem build_page_hierarchy_lookup :
  forall (fuel : nat) (pages : list page) (h : gmap Z hierarchy_node),
    build_page_hierarchy fuel pages = Some h ->
    (forall i, is_Some (h !! i) <-> i ∈ map pg_id pages)
    /\ (NoDup (map pg_id pages) ->
        forall p, p ∈ pages ->
          exists full, get_path fuel (page_map pages) p = Some full
            /\ h !! pg_id p = Some (Node (pg_slug p) full (pg_parentId p) (pg_title p))).
Proof.
  intros fuel pages h H. unfold build_page_hierarchy in H.
  destruct (PathFacts.build_loop_lookup _ _ _ _ _ H) as (Hdom & _ & Hin).
  split; [|exact Hin].
  intros i. rewrite Hdom. rewrite lookup_empty. split; [|by right].
  intros [[? ?]|?]; done.
Qed.

Lemma build_page_hierarchy_lookup_witness :
  exists h, build_page_hierarchy 5 example_pages = Some h
    /\ h !! 3%Z = Some (Node (py "team") (py "about/team") 2 (py "Team")).
Proof.
  destruct (build_page_hierarchy 5 example_pages) as [h|] eqn:E; [|by vm_compute in E].
  exists h. split; [done|].
  destruct (build_page_hierarchy_lookup 5 example_pages h E) as [_ H].
  destruct (H ltac:(repeat constructor; vm_compute; set_solver)
              (Page 3 (py "team") 2 (py "Team")) ltac:(set_solver)) as (full & Hf & Hl).
  vm_compute in Hf. injection Hf as <-. exact Hl.
Defined.

(** The dictionary [get_post_meta] builds holds, for every key that is not
    internal, the value of its row when it has one row and the list of the
    values of its rows, in their order, when it has several; a key without a
    row and an internal key are not in it. *)
Theorem get_post_meta_collects_rows :
  forall (rows : list (text * text)) (key : text),
    get_post_meta rows !! key
    = if internal_meta_key key then None else pack_meta (meta_rows key rows).
Proof. intros rows key. apply MetaFacts.get_post_meta_lookup. Qed.

(** [detect_prefix] returns [None] exactly when no table of the list ends
    with the name of a core table. *)
Theorem detect_prefix_none_iff :
  forall tables : list text,
    detect_prefix tables = None
    <-> forall table core, table ∈ tables -> core ∈ wp_core_tables ->
          ends_with core table = false.
Proof.
  intros tables. unfold detect_prefix.
  transitivity (count_prefixes tables = []).
  - destruct (count_prefixes tables); split; done.
  - rewrite PrefixFacts.count_prefixes_nil. rewrite Forall_forall.
    setoid_rewrite Forall_forall. split; intros H t; [intros c Ht Hc|intros Ht c Hc]; by apply H.
Qed.

(** For a database whose tables are core tables under one prefix, [p]
    followed by an underscore, [detect_prefix] returns that prefix, whatever
    [p] is. *)
Theorem detect_prefix_uniform :
  forall (p : text) (tables : list text),
    tables <> [] ->
    (forall table, table ∈ tables ->
       exists core, core ∈ wp_core_tables /\ table = p ++ py "_" ++ core) ->
    detect_prefix tables = Some (p ++ py "_").
Proof.
  intros p tables Hne Hall. unfold detect_prefix, count_prefixes.
  destruct (PrefixFacts.count_prefixes_uniform p tables []) as [n ->]; try done.
  - by apply Forall_forall.
  - by left.
  - by left.
Qed.

Lemma detect_prefix_uniform_witness :
  detect_prefix [py "wp_posts"; py "wp_options"; py "wp_term_taxonomy"] = Some (py "wp_").
Proof.
  apply (detect_prefix_uniform (py "wp")); [done|].
  intros table Ht. repeat (apply elem_of_cons in Ht as [->|Ht]).
  - exists (py "posts"). split; [|done]. apply list_elem_of_In. vm_compute. tauto.
  - exists (py "options"). split; [|done]. apply list_elem_of_In. vm_compute. tauto.
  - exists (py "term_taxonomy"). split; [|done]. apply list_elem_of_In. vm_compute. tauto.
  - by apply elem_of_nil in Ht.
Defined.

(** A prefix [detect_prefix] returns is taken from a table of the list: it
    is the part, underscore included, that the table has before a core table
    name, or it is empty and some table ends with a core table name without
    an underscore before it. *)
Theorem detect_prefix_from_table :
  forall (tables : list text) (p : text),
    detect_prefix tables = Some p ->
    exists table core,
      table ∈ tables /\ core ∈ wp_core_tables /\ ends_with core table = true
      /\ (p = [] /\ ends_with ("_"%char :: core) table = false
          \/ ends_with (py "_") p = true /\ table = p ++ core).
Proof.
  intros tables p H. unfold detect_prefix in H.
  pose proof (PrefixFacts.count_prefixes_keys tables) as Hk.
  destruct (count_prefixes tables) as [|x items]; [done|]. injection H as <-.
  rewrite Forall_forall in Hk. apply (Hk (max_item x items)).
  apply PrefixFacts.max_item_in.
Qed.

Lemma detect_prefix_from_table_witness :
  exists table core,
    table ∈ [py "blog_posts"; py "reposts"; py "blog_users"]
    /\ core ∈ wp_core_tables /\ ends_with core table = true
    /\ (py "blog_" = [] /\ ends_with ("_"%char :: core) table = false
        \/ ends_with (py "_") (py "blog_") = true /\ table = py "blog_" ++ core).
Proof.
  exact (detect_prefix_from_table [py "blog_posts"; py "reposts"; py "blog_users"]
           (py "blog_") eq_refl).
Defined.

(** The names [generate_report] prints are the members of the registry,
    each once, in ascending order of their code points, whatever order the
    report field has them in. *)
Theorem printed_shortcodes_sorted :
  forall (set_order : gset text -> list text) (now : text) (reg : registry),
    (forall S, set_order S ≡ₚ elements S) ->
    StronglySorted (fun a b => text_leb a b = true) (printed_shortcodes reg)
    /\ NoDup (printed_shortcodes reg)
    /\ printed_shortcodes reg ≡ₚ unknownShortcodes (generate_report set_order now reg)
    /\ (forall x, x ∈ printed_shortcodes reg <-> x ∈ reg).
Proof.
  intros set_order now reg Hperm.
  pose proof (OrderFacts.printed_perm reg) as Hp. repeat split.
  - apply OrderFacts.printed_sorted.
  - rewrite Hp. apply NoDup_elements.
  - simpl. by rewrite Hp, Hperm.
  - rewrite Hp. apply elem_of_elements.
  - rewrite Hp. apply elem_of_elements.
Qed.

Lemma printed_shortcodes_sorted_witness :
  printed_shortcodes {[ py "zeta"; py "foo_bar" ]}
  ≡ₚ unknownShortcodes (generate_report (fun S => reverse (elements S)) (py "now")
                          {[ py "zeta"; py "foo_bar" ]}).
Proof.
  exact (proj1 (proj2 (proj2 (printed_shortcodes_sorted (fun S => reverse (elements S))
           (py "now") {[ py "zeta"; py "foo_bar" ]} (fun S => reverse_Permutation _))))).
Defined.



(** A text of plain prose passes through the pipeline unchanged: when the
    body holds no markup character, its white space is tidy, and it holds
    neither the base URL followed by a slash nor a doubled slash after a
    character other than the colon, [transform_content] returns the body
    itself and leaves the registry as it was, and so does [html_to_markdown];
    [html.unescape] is taken to return a text without ampersand as it is. *)
Theorem plain_prose_unchanged :
  forall (html_unescape : text -> text) (content base_url : text) (reg : registry),
    (forall s, ~ In "&"%char s -> html_unescape s = s) ->
    markup_free content = true -> tidy content = true ->
    contains (base_url ++ py "/") content = false -> has_dslash content = false ->
    transform_content html_unescape content base_url reg = (reg, OK content)
    /\ html_to_markdown html_unescape content = content.
Proof.
  intros u content base reg Hu Hm Ht Hb Hd. split.
  - by apply ProseFacts.transform_content_identity.
  - by apply ProseFacts.html_to_markdown_identity.
Qed.

Lemma plain_prose_unchanged_witness :
  transform_content unescape_plain
    (py "Hello, world - a plain paragraph.\n\nSee https://example.org/about for more.")
    (py "http://example.com") ∅
  = (∅, OK (py "Hello, world - a plain paragraph.\n\nSee https://example.org/about for more.")).
Proof.
  refine (proj1 (plain_prose_unchanged unescape_plain
    (py "Hello, world - a plain paragraph.\n\nSee https://example.org/about for more.")
    (py "http://example.com") ∅ _ _ _ _ _)).
  - done.
  - by vm_compute.
  - by vm_compute.
  - by vm_compute.
  - by vm_compute.
Defined.

(** A body without an opening square bracket holds no macro:
    [convert_vc_shortcodes] returns it unchanged and records no name. *)
Theorem shortcodes_absent_unchanged :
  forall (html_unescape : text -> text) (content : text) (reg : registry),
    ~ In "["%char content ->
    convert_vc_shortcodes html_unescape content reg = (reg, OK content).
Proof. intros. by apply ProseFacts.convert_vc_shortcodes_identity. Qed.

Lemma shortcodes_absent_unchanged_witness :
  convert_vc_shortcodes unescape_plain (py "<p>No macro here</p>") ∅
  = (∅, OK (py "<p>No macro here</p>")).
Proof.
  apply (shortcodes_absent_unchanged unescape_plain (py "<p>No macro here</p>") ∅).
  vm_compute. intuition discriminate.
Defined.

(** A body without an opening angle bracket holds no block comment:
    [convert_gutenberg_blocks] returns it unchanged. *)
Theorem gutenberg_absent_unchanged :
  forall content : text,
    ~ In "<"%char content -> convert_gutenberg_blocks content = content.
Proof. intros. by apply ProseFacts.convert_gutenberg_blocks_identity. Qed.

Lemma gutenberg_absent_unchanged_witness :
  convert_gutenberg_blocks (py "[vc_row]plain[/vc_row]") = py "[vc_row]plain[/vc_row]".
Proof.
  apply (gutenberg_absent_unchanged (py "[vc_row]plain[/vc_row]")).
  vm_compute. intuition discriminate.
Defined.

(** A column macro whose width is a fraction of two runs of decimal digits
    becomes a [div] whose width class holds [int((num / den) * 100)], computed
    in double precision and cut off toward zero; an offset attribute adds its
    value, [vc_col-] replaced by [col-], as a further class.  The exceptions
    of the arithmetic are the result of the conversion. *)
Theorem column_fraction_width :
  forall (html_unescape : text -> text) (num den : text) (offset : option text)
         (reg : registry),
    num <> [] -> den <> [] ->
    Forall (fun c => is_digit c = true) num -> Forall (fun c => is_digit c = true) den ->
    (forall o, offset = Some o -> plain_value o) ->
    snd (convert_vc_shortcodes html_unescape
           (column_macro (Some (fraction num den)) offset) reg)
    = (pct <- width_percent (Z.of_N (numeral_value num)) (Z.of_N (numeral_value den)) ;;
       OK (py "<div class=`column w-" ++ str_of_Z pct ++ offset_class offset ++ py "`>")).
Proof. intros. by apply ColumnFacts.column_fraction_result. Qed.

Lemma column_fraction_width_witness :
  snd (convert_vc_shortcodes unescape_plain
         (py "[vc_column width=`2/3` offset=`vc_col-lg-offset-1`]") ∅)
  = OK (py "<div class=`column w-66 col-lg-offset-1`>").
Proof.
  apply (column_fraction_width unescape_plain (py "2") (py "3")
           (Some (py "vc_col-lg-offset-1")) ∅).
  - discriminate.
  - discriminate.
  - by repeat constructor.
  - by repeat constructor.
  - intros o [= <-]. by apply ColumnFacts.plain_value_test.
Defined.

(** A column macro whose width has the denominator zero makes the
    conversion raise [ZeroDivisionError]: [transform_content] raises it, and
    a batch whose first post holds the macro ends with it, without a
    report. *)
Theorem column_zero_denominator :
  forall (html_unescape : text -> text) (set_order : gset text -> list text)
         (now base_url num den : text) (reg : registry)
         (it : item) (posts pages : list item) (custom_types : list (text * list item)),
    num <> [] -> den <> [] ->
    Forall (fun c => is_digit c = true) num -> Forall (fun c => c = "0"%char) den ->
    it_content it = Some (column_macro (Some (fraction num den)) None) ->
    snd (convert_vc_shortcodes html_unescape (column_macro (Some (fraction num den)) None) reg)
    = Raise ZeroDivisionError
    /\ snd (transform_content html_unescape (column_macro (Some (fraction num den)) None)
              base_url reg)
       = Raise ZeroDivisionError
    /\ main html_unescape set_order now base_url (it :: posts) pages custom_types
       = Raise ZeroDivisionError.
Proof.
  intros u set_order now base num den reg it posts pages custom Hnn Hdn Hn Hd Hit.
  assert (Hdig : Forall (fun c => is_digit c = true) den)
    by (eapply Forall_impl; [exact Hd|]; by intros c ->).
  pose proof (ColumnFacts.numeral_zeros den Hd) as Hzero.
  assert (Hconv : forall reg',
    snd (convert_vc_shortcodes u (column_macro (Some (fraction num den)) None) reg')
    = Raise ZeroDivisionError).
  { intros reg'. rewrite ColumnFacts.column_fraction_result by done.
    by rewrite Hzero. }
  assert (Hgut : convert_gutenberg_blocks (column_macro (Some (fraction num den)) None)
                 = column_macro (Some (fraction num den)) None).
  { apply ProseFacts.convert_gutenberg_blocks_identity. unfold column_macro.
    rewrite !in_app_iff. intros [H|[H|[H|H]]]; try (by vm_compute in H; intuition).
    revert H. apply ColumnFacts.attribute_lacks; [by vm_compute; intuition|done|].
    intros v [= <-]. by apply ColumnFacts.fraction_lacks. }
  assert (Htc : forall reg',
    snd (transform_content u (column_macro (Some (fraction num den)) None) base reg')
    = Raise ZeroDivisionError).
  { intros reg'. rewrite ProseFacts.transform_content_nonempty by (by unfold column_macro).
    rewrite Hgut. specialize (Hconv reg').
    destruct (convert_vc_shortcodes u _ reg') as [r res]. cbn [snd] in *. by subst res. }
  split; [apply Hconv|]. split; [apply Htc|].
  unfold main. rewrite DocumentFacts.transform_items_cons, Hit. cbn [default].
  specialize (Htc ∅).
  destruct (transform_content u _ base ∅) as [r res]. cbn [snd] in Htc. by subst res.
Qed.

Lemma column_zero_denominator_witness :
  main unescape_plain elements (py "2024-01-01T00:00:00") (py "http://example.com")
       [post_with "[vc_column width=`1/0`]"] [] []
  = Raise ZeroDivisionError.
Proof.
  refine (proj2 (proj2 (column_zero_denominator unescape_plain elements
            (py "2024-01-01T00:00:00") (py "http://example.com") (py "1") (py "0") ∅
            (post_with "[vc_column width=`1/0`]") [] [] [] _ _ _ _ _))).
  - discriminate.
  - discriminate.
  - by repeat constructor.
  - by repeat constructor.
  - reflexivity.
Defined.

(** A column macro without a width becomes a [div] of class [column]; an
    offset attribute adds its value, [vc_col-] replaced by [col-], as a second
    class. *)
Theorem column_without_width :
  forall (html_unescape : text -> text) (offset : option text) (reg : registry),
    (forall o, offset = Some o -> plain_value o /\ ~ (py "width=" `suffix_of` o)) ->
    snd (convert_vc_shortcodes html_unescape (column_macro None offset) reg)
    = OK (py "<div class=`column" ++ offset_class offset ++ py "`>").
Proof. intros. by apply ColumnFacts.column_plain_result. Qed.

Lemma column_without_width_witness :
  snd (convert_vc_shortcodes unescape_plain (py "[vc_column offset=`vc_col-md-offset-2`]") ∅)
  = OK (py "<div class=`column col-md-offset-2`>").
Proof.
  apply (column_without_width unescape_plain (Some (py "vc_col-md-offset-2")) ∅).
  intros o [= <-]. split.
  - by apply ColumnFacts.plain_value_test.
  - intros [k Hk]. apply (f_equal (@rev ascii)) in Hk. rewrite rev_app_distr in Hk.
    by vm_compute in Hk.
Defined.

(** On the twelve-column grid, the width [a/b] gives the class that holds
    the whole part of [100 * a / b]: the percentage is cut off, not rounded. *)
Theorem column_grid_width :
  forall (html_unescape : text -> text) (a b : N) (reg : registry),
    (1 <= a <= 12)%N -> (1 <= b <= 12)%N ->
    snd (convert_vc_shortcodes html_unescape
           (column_macro (Some (fraction (str_of_N a) (str_of_N b))) None) reg)
    = OK (py "<div class=`column w-" ++ str_of_N (100 * a / b) ++ py "`>").
Proof.
  intros u a b reg Ha Hb. destruct (ColumnFacts.grid_spec a b Ha Hb) as [Hab Hba].
  unfold ColumnFacts.grid_check in Hab, Hba.
  rewrite !andb_true_iff in Hab, Hba.
  destruct Hab as [[[Hpct Hane] Hadig] Haval], Hba as [[[_ Hbne] Hbdig] Hbval].
  apply bool_decide_eq_true in Hane, Hbne. apply N.eqb_eq in Haval, Hbval.
  rewrite ColumnFacts.column_fraction_result; try done.
  - rewrite Haval, Hbval.
    destruct (width_percent (Z.of_N a) (Z.of_N b)) as [pct|e]; [|done].
    apply Z.eqb_eq in Hpct. subst pct. cbn [bind offset_class]. rewrite app_nil_l.
    do 3 f_equal. by destruct (100 * a / b)%N.
  - apply Forall_forall. intros c Hc. rewrite forallb_forall in Hadig.
    by apply Hadig, list_elem_of_In.
  - apply Forall_forall. intros c Hc. rewrite forallb_forall in Hbdig.
    by apply Hbdig, list_elem_of_In.
Qed.

Lemma column_grid_width_witness :
  snd (convert_vc_shortcodes unescape_plain (py "[vc_column width=`2/3`]") ∅)
  = OK (py "<div class=`column w-66`>").
Proof.
  apply (column_grid_width unescape_plain 2 3 ∅); lia.
Defined.
